(** * Random maze game: the maze generator, the tile layout and the movement solver

    A shallow embedding of [main.py]: the adjacency matrix of the square grid
    ([AdjacencyMatrix.__init__]), the randomised Prim expansion
    ([AdjacencyMatrix.random_prims]), the tile layout ([Game.create_grid]) and the
    per-axis collision resolution ([Player.move]).

    Python integers that come out of [range] are naturals; a value that may be
    negative ([adj_pos]) is an integer in [Z] and goes through Python's indexing
    rules, negative positions included.  Python floats are IEEE binary64 numbers,
    the kernel's primitive floats.  A Python exception is [None]. *)

From Stdlib Require Import ZArith List Lia Bool Floats.
From stdpp Require Import base option list relations strings.

Set Default Proof Using "Type".
Set Warnings "-inexact-float".

(** ** Python lists *)

Module Py.

(** The position a Python subscript [l[i]] denotes: [i] itself when
    [0 <= i < len(l)], [len(l) + i] when [-len(l) <= i < 0], and an
    [IndexError] otherwise. *)
Definition index {A} (l : list A) (i : Z) : option nat :=
  let len := Z.of_nat (length l) in
  if decide (0 ≤ i < len)%Z then Some (Z.to_nat i)
  else if decide (- len ≤ i < 0)%Z then Some (Z.to_nat (len + i))
  else None.

(** [l[i]] *)
Definition getitem {A} (l : list A) (i : Z) : option A :=
  k ← index l i; l !! k.

(** [l[i] = v] *)
Definition setitem {A} (l : list A) (i : Z) (v : A) : option (list A) :=
  k ← index l i; Some (<[k := v]> l).

(** [a // b] on integers: floor division, [ZeroDivisionError] on [b = 0]. *)
Definition floordiv (a b : Z) : option Z :=
  if decide (b = 0)%Z then None else Some (a / b)%Z.

(** [for a in l: s = body(s, a)], stopping at the first exception. *)
Fixpoint for_each {S A} (body : S → A → option S) (s : S) (l : list A) : option S :=
  match l with
  | [] => Some s
  | a :: l => s' ← body s a; for_each body s' l
  end.

(** [range(n)] *)
Definition range (n : nat) : list nat := seq 0 n.

(** [random.choice(l)], the draw [r] of the generator given: [IndexError] on the
    empty list, otherwise the element at a position below [len(l)]. Every
    element of [l] is the result for some draw. *)
Definition random_choice {A} (r : nat) (l : list A) : option A :=
  match l with
  | [] => None
  | _ => l !! (r mod length l)
  end.

End Py.

(** ** The adjacency matrix of the grid graph *)

(** [matrix] is indexed [row][column]; its entries are the integers 0 and 1. *)
Abbreviation Matrix := (list (list Z)).

Record AdjacencyMatrix := {
  vertex_across : nat;
  vertex_total : nat;
  matrix : Matrix;
}.

(** [self.matrix[r][c] = v]: the row object is fetched and updated in place. Rows
    are distinct objects, so the update touches one row. *)
Definition set_entry (m : Matrix) (r c : Z) (v : Z) : option Matrix :=
  row ← Py.getitem m r;
  row' ← Py.setitem row c v;
  Py.setitem m r row'.

(** The loop that creates the empty matrix. *)
Definition empty_matrix (total : nat) : Matrix :=
  foldl (λ m _, m ++ [replicate total 0%Z]) [] (Py.range total).

(** The body of the filling loop for one [vertex]. *)
Definition fill_vertex (across total : nat) (m : Matrix) (vertex : nat) : option Matrix :=
  let n := Z.of_nat across in
  let v := Z.of_nat vertex in
  (* Square to the left *)
  m ← (let adj_pos := (v - 1)%Z in
       qa ← Py.floordiv adj_pos n; qv ← Py.floordiv v n;
       if decide (qa = qv) then set_entry m v adj_pos 1 else Some m);
  (* Square to the right *)
  m ← (let adj_pos := (v + 1)%Z in
       qa ← Py.floordiv adj_pos n; qv ← Py.floordiv v n;
       if decide (qa = qv) then set_entry m v adj_pos 1 else Some m);
  (* Square above *)
  m ← (let adj_pos := (v - n)%Z in
       if decide (0 ≤ adj_pos)%Z then set_entry m v adj_pos 1 else Some m);
  (* Square below *)
  (let adj_pos := (v + n)%Z in
   if decide (adj_pos < Z.of_nat total)%Z then set_entry m v adj_pos 1 else Some m).

(** [AdjacencyMatrix.__init__], from the two attributes of the game it reads:
    [game.squares_across] and [game.squares_total]. *)
Definition AdjacencyMatrix_init (squares_across squares_total : nat) : option AdjacencyMatrix :=
  m ← Py.for_each (fill_vertex squares_across squares_total)
        (empty_matrix squares_total) (Py.range squares_total);
  Some {| vertex_across := squares_across; vertex_total := squares_total; matrix := m |}.

(** [Game.__init__] sets [squares_total = squares_across ** 2] and builds the
    matrix from them. *)
Definition squares_total (squares_across : nat) : nat := squares_across ^ 2.

Definition grid_matrix (n : nat) : option AdjacencyMatrix :=
  AdjacencyMatrix_init n (squares_total n).

(** ** Maze generation *)

(** The state of the loop of [random_prims]: the matrix, the visited vertices in
    the order they were visited, and the edge list. *)
Record PrimsState := {
  ps_matrix : Matrix;
  visited_vertices : list nat;
  edge_list : list (nat * nat);
}.

(** The nested comprehension that fills [available_vertices]: the outer loop runs
    over the visited columns, the inner one over all rows. *)
Definition available_vertices (m : Matrix) (total : nat) (visited : list nat)
  : option (list (nat * nat)) :=
  Py.for_each (λ acc column,
    Py.for_each (λ acc row,
      r ← m !! row; e ← r !! column;
      Some (if decide (e = 1%Z) then acc ++ [(row, column)] else acc))
      acc (Py.range total))
    [] visited.

(** One iteration of the loop, [choice count] being the draw of [random.choice]. *)
Definition prims_step (choice : nat → nat) (total : nat) (st : PrimsState) (count : nat)
  : option PrimsState :=
  available ← available_vertices (ps_matrix st) total (visited_vertices st);
  chosen_edge ← Py.random_choice (choice count) available;
  m ← Py.setitem (ps_matrix st) (Z.of_nat chosen_edge.1) (replicate total 0%Z);
  Some {| ps_matrix := m;
          visited_vertices := visited_vertices st ++ [chosen_edge.1];
          edge_list := edge_list st ++ [chosen_edge] |}.

(** The state before the loop: vertex 0 visited and its row cleared. *)
Definition prims_start (self : AdjacencyMatrix) : option PrimsState :=
  m ← Py.setitem (matrix self) 0 (replicate (vertex_total self) 0%Z);
  Some {| ps_matrix := m; visited_vertices := [0]; edge_list := [] |}.

(** The state after the first [k] iterations. *)
Definition prims_iter (choice : nat → nat) (self : AdjacencyMatrix) (k : nat)
  : option PrimsState :=
  st ← prims_start self;
  Py.for_each (prims_step choice (vertex_total self)) st (Py.range k).

(** [AdjacencyMatrix.random_prims]. *)
Definition random_prims (choice : nat → nat) (self : AdjacencyMatrix) : option PrimsState :=
  prims_iter choice self (vertex_total self - 1).

(** Generation from the grid size, as [Game.__init__] runs it. *)
Definition generate (choice : nat → nat) (n : nat) : option PrimsState :=
  self ← grid_matrix n; random_prims choice self.

(** ** Tiles, the player and pygame's rectangles *)

Inductive Colour := White | Black | Red | Green.

(** [pygame.math.Vector2] with its two float coordinates. *)
Record Vector2 := { vx : float; vy : float }.

(** An [int] read as a float, as Python converts it in [row * self.base_square]. *)
Definition float_of_nat (k : nat) : float := of_uint63 (Uint63.of_Z (Z.of_nat k)).

Definition WIN_WIDTH : nat := 900.

Section Game.

Open Scope float_scope.

(** pygame's rectangles are taken as they are used: a type, its constructor
    [pygame.Rect(x, y, w, h)] and the point test [Rect.collidepoint]. *)
Variable Rect : Type.
Variable Rect_new : float → float → float → float → Rect.
Variable collidepoint : Rect → float * float → bool.

Record Square := {
  sq_x : float;
  sq_y : float;
  sq_colour : Colour;
  sq_rect : Rect;
}.

(** [Square.__init__], [small_square] read from the game. *)
Definition Square_init (small_square x y : float) (colour : Colour) : Square :=
  {| sq_x := x; sq_y := y; sq_colour := colour;
     sq_rect := Rect_new x y small_square small_square |}.

Definition set_colour (s : Square) (c : Colour) : Square :=
  {| sq_x := sq_x s; sq_y := sq_y s; sq_colour := c; sq_rect := sq_rect s |}.

(** The attributes of [Game] the layout and the solver read. *)
Record Game := {
  squares_across : nat;
  game_squares_total : nat;
  base_square : float;
  small_square : float;
  path_squares : list Square;
  delta_time : float;
}.

(** The sizes [Game.__init__] computes from the difficulty, before any tile. *)
Definition Game_sizes (difficulty : nat) (dt : float) : Game :=
  let base := float_of_nat WIN_WIDTH / float_of_nat difficulty in
  {| squares_across := difficulty;
     game_squares_total := squares_total difficulty;
     base_square := base;
     small_square := base / 2;
     path_squares := [];
     delta_time := dt |}.

Definition with_path_squares (g : Game) (l : list Square) : Game :=
  {| squares_across := squares_across g;
     game_squares_total := game_squares_total g;
     base_square := base_square g;
     small_square := small_square g;
     path_squares := l;
     delta_time := delta_time g |}.

(** *** [Game.create_grid] *)

(** The first loop: [(row, column, path_squares)] through one base square. *)
Definition base_step (g : Game) (st : nat * nat * list Square) (base_square_index : nat)
  : option (nat * nat * list Square) :=
  let '(row, column, squares) := st in
  let '(row, column) :=
    if decide (column = squares_across g) then (row + 1, 0)%nat else (row, column) in
  Some (row, (column + 1)%nat,
        squares ++ [Square_init (small_square g)
                      (float_of_nat row * base_square g + small_square g)
                      (float_of_nat column * base_square g + small_square g)
                      Black]).

(** [self.path_squares[-1].colour = COLOUR['Green']] *)
Definition mark_end (squares : list Square) : option (list Square) :=
  s ← Py.getitem squares (-1);
  Py.setitem squares (-1) (set_colour s Green).

(** The second loop: one connecting square per edge, at the midpoint of the two
    squares the edge names. *)
Definition join_step (g : Game) (squares : list Square) (edge : nat * nat)
  : option (list Square) :=
  a ← squares !! edge.1;
  b ← squares !! edge.2;
  let path_square_x := 0.5 * (sq_x a + sq_x b) in
  let path_square_y := 0.5 * (sq_y a + sq_y b) in
  Some (squares ++ [Square_init (small_square g) path_square_x path_square_y Black]).

Definition create_grid (g : Game) (edge_list : list (nat * nat)) : option Game :=
  '(_, _, squares) ← Py.for_each (base_step g) (0, 0, [])%nat
                        (Py.range (game_squares_total g));
  squares ← mark_end squares;
  squares ← Py.for_each (join_step g) squares edge_list;
  Some (with_path_squares g squares).

(** *** [Player] *)

Record Player := {
  pos : float * float;
  width : float;
  collide_margin : float;
  velocity : float;
}.

(** [Player.__init__]: the hit box is inset by a margin of 1. *)
Definition Player_init (x y width velocity : float) : Player :=
  {| pos := (x, y); width := width; collide_margin := 1; velocity := velocity |}.

Definition with_pos (self : Player) (p : float * float) : Player :=
  {| pos := p; width := width self; collide_margin := collide_margin self;
     velocity := velocity self |}.

(** [Player.gen_corners]; the list is in the order the source returns it. *)
Definition gen_corners (self : Player) (coordinate : float * float) : list (float * float) :=
  let top_right := (coordinate.1 + collide_margin self, coordinate.2 + collide_margin self) in
  let top_left := (coordinate.1 + width self - collide_margin self,
                   coordinate.2 + collide_margin self) in
  let bot_left := (coordinate.1 + collide_margin self,
                   coordinate.2 + width self - collide_margin self) in
  let bot_right := (coordinate.1 + width self - collide_margin self,
                    coordinate.2 + width self - collide_margin self) in
  [top_left; top_right; bot_left; bot_right].

(** [Vector2.magnitude] and [Vector2.normalize_ip]: the Euclidean length, and the
    division of both coordinates by it ([ValueError] on length zero). *)
Definition magnitude (v : Vector2) : float := sqrt (vx v * vx v + vy v * vy v).

Definition normalize_ip (v : Vector2) : option Vector2 :=
  let length := magnitude v in
  if length =? 0 then None else Some {| vx := vx v / length; vy := vy v / length |}.

(** The first statement of [move]: the vector is normalised in place unless its
    magnitude is 0 or 1. *)
Definition normalise_step (movement_vector : Vector2) : option Vector2 :=
  if negb ((magnitude movement_vector =? 0) || (magnitude movement_vector =? 1))
  then normalize_ip movement_vector
  else Some movement_vector.

(** The flags of one axis: [on_path_for_x] and [x_complete]. *)
Definition AxisFlags : Type := list bool * bool.

(** The body of the corner loop for one axis. *)
Definition check_corner (rect : Rect) (corners : list (float * float)) (corner : nat)
    (fl : AxisFlags) : option AxisFlags :=
  let '(on_path, complete) := fl in
  if negb complete then
    c ← corners !! corner;
    on_path ← (if collidepoint rect c
               then (if decide (corner < length on_path)%nat
                     then Some (<[corner := true]> on_path) else None)
               else Some on_path);
    Some (on_path,
          if decide (on_path = [true; true; true; true]) then true else complete)
  else Some fl.

(** The loop over the path squares and the four corners. *)
Definition check_corners (squares : list Square) (corners_for_x corners_for_y : list (float * float))
  : option (AxisFlags * AxisFlags) :=
  Py.for_each (λ st path_square,
    Py.for_each (λ st corner,
      fx ← check_corner (sq_rect path_square) corners_for_x corner st.1;
      fy ← check_corner (sq_rect path_square) corners_for_y corner st.2;
      Some (fx, fy))
      st (Py.range 4))
    (([false; false; false; false], false), ([false; false; false; false], false))
    squares.

(** The projected coordinates. *)
Definition next_x (self : Player) (g : Game) (v : Vector2) : float :=
  (pos self).1 + (vx v * velocity self * delta_time g).
Definition next_y (self : Player) (g : Game) (v : Vector2) : float :=
  (pos self).2 + (vy v * velocity self * delta_time g).

(** [Player.move]. The result is the player and the vector object, which
    [normalize_ip] changes in place. [update_player_rect] rebuilds the player's
    rectangle from [pos] and is a function of the position returned. *)
Definition move (self : Player) (g : Game) (movement_vector : Vector2)
  : option (Player * Vector2) :=
  movement_vector ← normalise_step movement_vector;
  let nx := next_x self g movement_vector in
  let ny := next_y self g movement_vector in
  let corners_for_x := gen_corners self (nx, (pos self).2) in
  let corners_for_y := gen_corners self ((pos self).1, ny) in
  '((_, x_complete), (_, y_complete)) ←
     check_corners (path_squares g) corners_for_x corners_for_y;
  let p := pos self in
  let p := if (x_complete : bool) then (nx, p.2) else p in
  let p := if (y_complete : bool) then (p.1, ny) else p in
  Some (with_pos self p, movement_vector).

(** [game.get_delta_time] stores the frame time in the game. *)
Definition with_delta_time (g : Game) (dt : float) : Game :=
  {| squares_across := squares_across g;
     game_squares_total := game_squares_total g;
     base_square := base_square g;
     small_square := small_square g;
     path_squares := path_squares g;
     delta_time := dt |}.

(** The frames of [game_loop] that reach the player (a frame longer than 0.06 s
    is skipped before it): each has its frame time and the vector built from the
    keys, and calls [move] once. *)
Fixpoint move_frames (self : Player) (g : Game) (frames : list (float * Vector2))
  : option Player :=
  match frames with
  | [] => Some self
  | (dt, v) :: frames =>
      r ← move self (with_delta_time g dt) v;
      move_frames r.1 g frames
  end.

End Game.

Arguments sq_x {Rect} _.
Arguments sq_y {Rect} _.
Arguments sq_colour {Rect} _.
Arguments sq_rect {Rect} _.
Arguments Square_init {Rect} Rect_new small_square x y colour.
Arguments set_colour {Rect} s c.
Arguments squares_across {Rect} _.
Arguments game_squares_total {Rect} _.
Arguments base_square {Rect} _.
Arguments small_square {Rect} _.
Arguments path_squares {Rect} _.
Arguments delta_time {Rect} _.
Arguments with_path_squares {Rect} g l.
Arguments with_delta_time {Rect} g dt.
Arguments base_step {Rect} Rect_new g st base_square_index.
Arguments mark_end {Rect} squares.
Arguments join_step {Rect} Rect_new g squares edge.
Arguments create_grid {Rect} Rect_new g edge_list.
Arguments check_corner {Rect} collidepoint rect corners corner fl.
Arguments check_corners {Rect} collidepoint squares corners_for_x corners_for_y.
Arguments next_x {Rect} self g v.
Arguments next_y {Rect} self g v.
Arguments move {Rect} collidepoint self g movement_vector.
Arguments move_frames {Rect} collidepoint self g frames.

(** ** The vocabulary of the statements *)

(** [u] and [v] are orthogonal neighbours in the grid of side [n]: [v] is [u - 1]
    or [u + 1] in the row of [u] (the row of a vertex is its quotient by [n]), or
    [v] is [u - n] or [u + n]. *)
Definition grid_adjacent (n u v : nat) : Prop :=
  (u / n = v / n ∧ (v + 1 = u ∨ v = u + 1)) ∨ v + n = u ∨ v = u + n.

#[global] Instance grid_adjacent_dec n u v : Decision (grid_adjacent n u v).
Proof. unfold grid_adjacent. apply _. Defined.

(** The entry [matrix[u][v]]. *)
Definition entry (m : Matrix) (u v : nat) : option Z := r ← m !! u; r !! v.

(** The row of [u] in the adjacency matrix of the grid. *)
Definition grid_row (n u : nat) : list Z :=
  (λ v, if decide (grid_adjacent n u v) then 1%Z else 0%Z) <$> seq 0 (n ^ 2).

Definition zero_row (total : nat) : list Z := replicate total 0%Z.

(** The matrix of the grid: one [grid_row] per vertex. *)
Definition grid_rows (n : nat) : Matrix := grid_row n <$> seq 0 (n ^ 2).

(** The number of ones in a row: the degree of its vertex. *)
Definition count_ones (row : list Z) : nat := length (filter (λ e, e = 1%Z) row).

(** The number of ones in the matrix. *)
Definition ones (m : Matrix) : nat := sum_list_with count_ones m.

(** The pairs [u < v] with [matrix[u][v] = 1]: the undirected edges. *)
Definition undirected_edges (m : Matrix) : list (nat * nat) :=
  u ← seq 0 (length m);
  (λ v, (u, v)) <$> filter (λ v, u < v ∧ entry m u v = Some 1%Z) (seq 0 (length m)).

(** Which of the four neighbours a vertex has, by its column and row. *)
Abbreviation has_left n u := (1 ≤ u mod n) (only parsing).
Abbreviation has_right n u := (u mod n + 1 < n) (only parsing).
Abbreviation has_above n u := (n ≤ u) (only parsing).
Abbreviation has_below n u := (u + n < n ^ 2) (only parsing).

Definition neighbours (n u : nat) : list nat :=
  (if decide (has_left n u) then [u - 1] else [])
  ++ (if decide (has_right n u) then [u + 1] else [])
  ++ (if decide (has_above n u) then [u - n] else [])
  ++ (if decide (has_below n u) then [u + n] else []).

Definition indicator (P : Prop) `{!Decision P} : nat := if decide P then 1 else 0.

(** The neighbours with a larger number: the one to the right and the one below. *)
Definition later_neighbours (n u : nat) : list nat :=
  (if decide (has_right n u) then [u + 1] else [])
  ++ (if decide (has_below n u) then [u + n] else []).

(** The candidate pairs as a list comprehension: for each visited [column], the
    rows with a 1 in that column. *)
Definition available_pairs (m : Matrix) (total : nat) (visited : list nat) : list (nat * nat) :=
  column ← visited;
  row ← seq 0 total;
  if decide (entry m row column = Some 1%Z) then [(row, column)] else [].

(** A [total] by [total] matrix. *)
Definition square (m : Matrix) (total : nat) : Prop :=
  length m = total ∧ ∀ u row, m !! u = Some row → length row = total.

(** How [random_prims] grows its two lists: it starts from vertex 0 alone, and each
    iteration appends a vertex not visited before together with an edge from it to
    a visited vertex. *)
Inductive grown : list nat → list (nat * nat) → Prop :=
  | grown_start : grown [0] []
  | grown_step vs es u w :
      grown vs es → u ∉ vs → w ∈ vs → grown (vs ++ [u]) (es ++ [(u, w)]).

(** The invariant after [k] iterations on the grid of side [n]. *)
Record prims_inv (n k : nat) (st : PrimsState) : Prop := {
  inv_square : square (ps_matrix st) (n ^ 2);
  inv_length : length (visited_vertices st) = k + 1;
  inv_range : Forall (λ v, v < n ^ 2) (visited_vertices st);
  inv_visited_row : ∀ u, u ∈ visited_vertices st →
                         ps_matrix st !! u = Some (zero_row (n ^ 2));
  inv_other_row : ∀ u, u < n ^ 2 → u ∉ visited_vertices st →
                       ps_matrix st !! u = Some (grid_row n u);
  inv_grown : grown (visited_vertices st) (edge_list st);
  inv_grid_edges : Forall (λ e, grid_adjacent n e.1 e.2) (edge_list st);
}.

(** [u] and [v] are joined by an edge of the list, in either direction. *)
Definition linked (es : list (nat * nat)) (u v : nat) : Prop :=
  (u, v) ∈ es ∨ (v, u) ∈ es.

(** [u] and [v] are joined by a path. *)
Definition connected (es : list (nat * nat)) (u v : nat) : Prop := rtc (linked es) u v.

(** [v] is an endpoint of some edge. *)
Definition touched (es : list (nat * nat)) (v : nat) : Prop := ∃ w, linked es v w.

(** A simple cycle: at least three distinct vertices, each linked to the next and
    the last one to the first. *)
Definition simple_cycle (es : list (nat * nat)) (p : list nat) : Prop :=
  3 ≤ length p ∧ NoDup p
  ∧ ∀ i u v, p !! i = Some u → p !! (S i mod length p) = Some v → linked es u v.

(** A spanning tree of the vertices [0 .. total - 1]: the edges stay among these
    vertices, touch all of them, connect them, and close no cycle (no loop, no
    edge twice in either direction, no simple cycle). *)
Record spanning_tree (total : nat) (es : list (nat * nat)) : Prop := {
  tree_range : ∀ u v, (u, v) ∈ es → u < total ∧ v < total;
  tree_touches : ∀ v, v < total → touched es v;
  tree_connected : ∀ u v, u < total → v < total → connected es u v;
  tree_no_loop : ∀ u, (u, u) ∉ es;
  tree_no_double : NoDup es ∧ ∀ u v, (u, v) ∈ es → (v, u) ∉ es;
  tree_no_cycle : ∀ p, ¬ simple_cycle es p;
}.

(** How often [v] occurs in [l]. *)
Definition occurrences (v : nat) (l : list nat) : nat := length (filter (λ x, x = v) l).

(** The state after [k] iterations of the loop on the freshly built grid. *)
Definition generate_iter (choice : nat → nat) (n k : nat) : option PrimsState :=
  self ← grid_matrix n; prims_iter choice self k.

Section LayoutTerms.

Open Scope float_scope.

Context {Rect : Type} (Rect_new : float → float → float → float → Rect).

(** The base tile of vertex [i]: its x coordinate comes from the row [i // n] and
    its y coordinate from the column [i % n] of the vertex. *)
Definition base_tile (g : Game Rect) (i : nat) : Square Rect :=
  Square_init Rect_new (small_square g)
    (float_of_nat (i / squares_across g) * base_square g + small_square g)
    (float_of_nat (i mod squares_across g) * base_square g + small_square g)
    Black.

(** The connector tile of an edge over the tiles laid so far. *)
Definition connector_tile (g : Game Rect) (a b : Square Rect) : Square Rect :=
  Square_init Rect_new (small_square g)
    (0.5 * (sq_x a + sq_x b)) (0.5 * (sq_y a + sq_y b)) Black.

(** The tiles [create_grid] lays: the base tiles, the last of them green, then the
    connectors. *)
Definition marked_tiles (g : Game Rect) (N : nat) : list (Square Rect) :=
  (base_tile g <$> seq 0 (N - 1)) ++ [set_colour (base_tile g (N - 1)) Green].

End LayoutTerms.

(** A rectangle kept on float coordinates, with the point test pygame documents
    (the left and top edges are inside, the right and bottom edges are not); the
    definitions are run on it in the examples. *)
Definition FloatRect : Type := float * float * float * float.

Definition FloatRect_new (x y w h : float) : FloatRect := (x, y, w, h).

Definition FloatRect_collidepoint (r : FloatRect) (p : float * float) : bool :=
  let '(x, y, w, h) := r in
  ((x <=? p.1) && (p.1 <? x + w) && (y <=? p.2) && (p.2 <? y + h))%float.

(** The same number: the same float, or two zeros (of either sign). *)
Definition same_number (a b : float) : Prop :=
  a = b ∨ (is_zero a = true ∧ is_zero b = true).

(** A zero or a NaN: what a product with a zero factor can be. *)
Definition zero_or_nan (z : float) : Prop := is_zero z = true ∨ is_nan z = true.

Section SolverTerms.

Open Scope float_scope.

Context {Rect : Type} (collidepoint : Rect → float * float → bool).

(** A corner lies inside some path tile. *)
Definition on_path (squares : list (Square Rect)) (c : float * float) : bool :=
  existsb (λ path_square, collidepoint (sq_rect path_square) c) squares.

(** All the corners lie inside path tiles (each inside some tile). *)
Definition all_on_path (squares : list (Square Rect)) (corners : list (float * float)) : bool :=
  forallb (on_path squares) corners.

(** The same as a proposition. *)
Definition axis_clear (squares : list (Square Rect)) (corners : list (float * float)) : Prop :=
  ∀ c, c ∈ corners →
    ∃ path_square, path_square ∈ squares ∧ collidepoint (sq_rect path_square) c = true.

(** [collidepoint] accepts no point with a NaN coordinate. *)
Definition rejects_nan : Prop :=
  ∀ rect p, is_nan p.1 = true ∨ is_nan p.2 = true → collidepoint rect p = false.

End SolverTerms.

(** The vector [pygame.math.Vector2()] of a frame without keys. *)
Definition zero_vector : Vector2 := {| vx := 0; vy := 0 |}.

(** A direction vector with a NaN or an infinite coordinate. *)
Definition malformed (v : Vector2) : Prop :=
  is_nan (vx v) = true ∨ is_infinity (vx v) = true
  ∨ is_nan (vy v) = true ∨ is_infinity (vy v) = true.

(** The four corners of the body at [(x, y)], each inset by the margin: the body
    is a square of side [width], and [collide_margin] is taken off on every side. *)
Definition inset_corners (self : Player) (x y : float) : list (float * float) :=
  [(x + collide_margin self, y + collide_margin self);
   (x + width self - collide_margin self, y + collide_margin self);
   (x + collide_margin self, y + width self - collide_margin self);
   (x + width self - collide_margin self, y + width self - collide_margin self)]%float.

(** A player near the inner corner of a bend of the path. *)
Definition corner_player : Player := Player_init 390 390 56.25 1575.

(** A game of side 2 with one tile, and the player [Game.__init__] puts on it:
    a quarter of the tile wide, centred, with velocity seven tiles a second. *)
Definition example_game : Game FloatRect :=
  with_path_squares (Game_sizes FloatRect 2 0.015625)
    [Square_init FloatRect_new 225 225 225 Black].

Definition example_player : Player := Player_init 309.375 309.375 56.25 1575.

(** ** The game object and its loop *)

(** The keys [game_loop] reads from [pygame.key.get_pressed()]. *)
Record Keys := {
  K_q : bool;
  K_r : bool;
  K_w : bool;
  K_s : bool;
  K_d : bool;
  K_a : bool;
}.

(** The types of the events [pygame.event.get()] returns, as far as the loops
    tell them apart. *)
Inductive Event := QUIT | MOUSEBUTTONUP | OtherEvent.

Definition is_quit (e : Event) : bool :=
  match e with QUIT => true | _ => false end.

(** The vector [game_loop] builds from the keys of a frame. *)
Definition key_vector (keys : Keys) : Vector2 :=
  let movement_vector := {| vx := 0; vy := 0 |} in
  let movement_vector :=
    if K_w keys then {| vx := vx movement_vector; vy := vy movement_vector - 1 |}
    else movement_vector in
  let movement_vector :=
    if K_s keys then {| vx := vx movement_vector; vy := vy movement_vector + 1 |}
    else movement_vector in
  let movement_vector :=
    if K_d keys then {| vx := vx movement_vector + 1; vy := vy movement_vector |}
    else movement_vector in
  let movement_vector :=
    if K_a keys then {| vx := vx movement_vector - 1; vy := vy movement_vector |}
    else movement_vector in
  movement_vector.

(** What one iteration of [game_loop] takes from outside: the two readings of
    [perf_counter] (in [get_delta_time] and in [back_to_start]), the events of
    [pygame.event.get()] and the keys. *)
Record FrameInput := {
  time_now : float;
  restart_time : float;
  events : list Event;
  keys : Keys;
}.

Section GameLoop.

Open Scope float_scope.

Variable Rect : Type.
Variable Rect_new : float → float → float → float → Rect.
Variable collidepoint : Rect → float * float → bool.
(** [Rect.contains] *)
Variable contains : Rect → Rect → bool.

(** The attributes of [Game] the loop works on. [time_last] and the game's
    [delta_time] are written by [game_loop] before they are read. *)
Record Session := {
  game : Game Rect;
  maze : PrimsState;
  end_square : Square Rect;
  player : Player;
  player_velocity : float;
  start_time : float;
  time_last : float;
  run : bool;
  won : bool;
  to_menu : bool;
}.

(** The player at the start of the maze, as [Game.__init__] and [back_to_start]
    create it. *)
Definition start_player (g : Game Rect) (player_velocity : float) : option Player :=
  let player_width := small_square g / 4 in
  first ← Py.getitem (path_squares g) 0;
  Some (Player_init (sq_x first + (small_square g - player_width) / 2)
                    (sq_y first + (small_square g - player_width) / 2)
                    player_width player_velocity).

(** [Game.__init__]; [now] is the reading of [perf_counter]. [create_grid] keeps
    the green tile in [end_square] before it appends the connectors: it is the
    tile at index [squares_total - 1]. *)
Definition Game_init (choice : nat → nat) (difficulty : nat) (now : float) : option Session :=
  if decide (difficulty = 0)%nat then None
  else
    let g := Game_sizes Rect difficulty 0 in
    self_matrix ← AdjacencyMatrix_init (squares_across g) (game_squares_total g);
    prims ← random_prims choice self_matrix;
    g ← create_grid Rect_new g (edge_list prims);
    last ← path_squares g !! (game_squares_total g - 1)%nat;
    let player_velocity := 7 * small_square g in
    p ← start_player g player_velocity;
    Some {| game := g; maze := prims; end_square := last; player := p;
            player_velocity := player_velocity; start_time := now; time_last := 0;
            run := true; won := false; to_menu := false |}.

(** [Player.rect] after [update_player_rect]. *)
Definition player_rect (p : Player) : Rect :=
  Rect_new (pos p).1 (pos p).2 (width p) (width p).

(** [Game.get_delta_time] *)
Definition get_delta_time (s : Session) (now : float) : Session :=
  {| game := with_delta_time (game s) (now - time_last s);
     maze := maze s; end_square := end_square s; player := player s;
     player_velocity := player_velocity s; start_time := start_time s;
     time_last := now;
     run := run s; won := won s; to_menu := to_menu s |}.

(** [Game.back_to_start] *)
Definition back_to_start (s : Session) (now : float) : option Session :=
  p ← start_player (game s) (player_velocity s);
  Some {| game := game s; maze := maze s; end_square := end_square s; player := p;
          player_velocity := player_velocity s; start_time := now;
          time_last := time_last s;
          run := run s; won := won s; to_menu := to_menu s |}.

Definition with_flags (s : Session) (run won to_menu : bool) : Session :=
  {| game := game s; maze := maze s; end_square := end_square s; player := player s;
     player_velocity := player_velocity s; start_time := start_time s;
     time_last := time_last s;
     run := run; won := won; to_menu := to_menu |}.

Definition with_player (s : Session) (p : Player) : Session :=
  {| game := game s; maze := maze s; end_square := end_square s; player := p;
     player_velocity := player_velocity s; start_time := start_time s;
     time_last := time_last s;
     run := run s; won := won s; to_menu := to_menu s |}.

(** The body of the loop of [game_loop], drawing apart. *)
Definition game_frame (s : Session) (input : FrameInput) : option Session :=
  let s := get_delta_time s (time_now input) in
  (* Skips exceptionally long frame times *)
  if 0.06 <? delta_time (game s) then Some s
  else
    let s := if existsb is_quit (events input)
             then with_flags s false (won s) (to_menu s) else s in
    let s := if K_q (keys input) then with_flags s false (won s) true else s in
    s ← (if K_r (keys input) then back_to_start s (restart_time input) else Some s);
    r ← move collidepoint (player s) (game s) (key_vector (keys input));
    let s := with_player s r.1 in
    let s := if contains (sq_rect (end_square s)) (player_rect (player s))
             then with_flags s false true (to_menu s) else s in
    Some s.

(** The loop over the frames that come, as long as [run] holds. *)
Fixpoint game_frames (s : Session) (inputs : list FrameInput) : option Session :=
  match inputs with
  | [] => Some s
  | input :: inputs =>
      if run s then s ← game_frame s input; game_frames s inputs else Some s
  end.

(** [Game.game_loop] on the frames that come; [now] is its first reading of
    [perf_counter]. *)
Definition game_loop (s : Session) (now : float) (inputs : list FrameInput)
  : option Session :=
  let s :=
    {| game := game s; maze := maze s; end_square := end_square s; player := player s;
       player_velocity := player_velocity s; start_time := start_time s;
       time_last := now;
       run := true; won := won s; to_menu := to_menu s |} in
  game_frames s inputs.

End GameLoop.

Arguments game {Rect} _.
Arguments maze {Rect} _.
Arguments end_square {Rect} _.
Arguments player {Rect} _.
Arguments player_velocity {Rect} _.
Arguments start_time {Rect} _.
Arguments time_last {Rect} _.
Arguments run {Rect} _.
Arguments won {Rect} _.
Arguments to_menu {Rect} _.
Arguments start_player {Rect} g player_velocity.
Arguments Game_init {Rect} Rect_new choice difficulty now.
Arguments player_rect {Rect} Rect_new p.
Arguments get_delta_time {Rect} s now.
Arguments back_to_start {Rect} s now.
Arguments with_flags {Rect} s run won to_menu.
Arguments with_player {Rect} s p.
Arguments game_frame {Rect} Rect_new collidepoint contains s input.
Arguments game_frames {Rect} Rect_new collidepoint contains s inputs.
Arguments game_loop {Rect} Rect_new collidepoint contains s now inputs.

(** ** The menu *)

(** The dictionary [DIFFICULTY], in the order of its keys. *)
Definition DIFFICULTY : list (string * nat) :=
  [("Simple", 5); ("Regular", 10); ("Complex", 15)]%string.

(** [d[key]]: the value of the key, [KeyError] when it is absent. *)
Definition dict_getitem (d : list (string * nat)) (key : string) : option nat :=
  snd <$> find (λ kv, bool_decide (kv.1 = key)) d.

(** The attributes of [Menu] that [display_loop] works on; [difficulty] is set by
    the first click on a button. *)
Record Menu := {
  exit : bool;
  run_game : bool;
  difficulty : option nat;
  mouse_click : bool;
  mouse_hovering : bool;
}.

(** [Menu.__init__], rendering apart. *)
Definition Menu_init : Menu :=
  {| exit := false; run_game := false; difficulty := None;
     mouse_click := false; mouse_hovering := false |}.

(** [Menu.display_button]; [hover] is [rect.collidepoint(self.mouse_pos)]. *)
Definition display_button (hover : nat → bool) (m : Menu) (difficulty_index : nat)
  : option Menu :=
  difficulty_str ← DIFFICULTY.*1 !! difficulty_index;
  if hover difficulty_index then
    let m := {| exit := exit m; run_game := run_game m; difficulty := difficulty m;
                mouse_click := mouse_click m; mouse_hovering := true |} in
    if mouse_click m then
      d ← dict_getitem DIFFICULTY difficulty_str;
      Some {| exit := exit m; run_game := true; difficulty := Some d;
              mouse_click := mouse_click m; mouse_hovering := mouse_hovering m |}
    else Some m
  else Some m.

(** The event loop of one frame of the menu. *)
Definition menu_event (m : Menu) (event : Event) : Menu :=
  let m := match event with
           | QUIT => {| exit := true; run_game := run_game m; difficulty := difficulty m;
                        mouse_click := mouse_click m; mouse_hovering := mouse_hovering m |}
           | _ => m
           end in
  match event with
  | MOUSEBUTTONUP => {| exit := exit m; run_game := run_game m; difficulty := difficulty m;
                        mouse_click := true; mouse_hovering := mouse_hovering m |}
  | _ => m
  end.

(** The body of the loop of [display_loop], drawing apart. *)
Definition menu_frame (m : Menu) (input : list Event * (nat → bool)) : option Menu :=
  let m := {| exit := exit m; run_game := run_game m; difficulty := difficulty m;
              mouse_click := false; mouse_hovering := false |} in
  let m := foldl menu_event m input.1 in
  Py.for_each (display_button input.2) m (Py.range (length DIFFICULTY)).

(** [Menu.display_loop] on the frames that come. *)
Fixpoint display_loop (m : Menu) (inputs : list (list Event * (nat → bool))) : option Menu :=
  match inputs with
  | [] => Some m
  | input :: inputs =>
      if negb (exit m || run_game m)
      then m ← menu_frame m input; display_loop m inputs
      else Some m
  end.

(** ** The vocabulary of the statements on the loops *)

(** What a frame leaves alone: the tiles and sizes of the level, the end square,
    the maze and the velocity new players get. *)
Record level_kept {Rect} (s s' : Session Rect) : Prop := {
  kept_tiles : path_squares (game s') = path_squares (game s);
  kept_small : small_square (game s') = small_square (game s);
  kept_end : end_square s' = end_square s;
  kept_maze : maze s' = maze s;
  kept_velocity : player_velocity s' = player_velocity s;
}.

(** The player has the shape [start_player] gives it. *)
Definition player_shape {Rect} (s : Session Rect) : Prop :=
  width (player s) = (small_square (game s) / 4)%float
  ∧ collide_margin (player s) = 1%float
  ∧ velocity (player s) = player_velocity s.

(** The flags agree: the game is won only with the player inside the end square,
    and a game that is won or left for the menu no longer runs. *)
Definition flags_agree {Rect} (Rect_new : float → float → float → float → Rect)
    (contains : Rect → Rect → bool) (s : Session Rect) : Prop :=
  (won s = true →
     run s = false
     ∧ contains (sq_rect (end_square s)) (player_rect Rect_new (player s)) = true)
  ∧ (to_menu s = true → run s = false).

(** Some frame brought a [QUIT] event. *)
Definition quit_sent (inputs : list FrameInput) : Prop :=
  ∃ input, input ∈ inputs ∧ existsb is_quit (events input) = true.

(** The menu's attributes agree: a difficulty is set exactly when a game is to be
    run, and it is one of the values of [DIFFICULTY]. *)
Definition menu_agrees (m : Menu) : Prop :=
  (run_game m = true ↔ is_Some (difficulty m))
  ∧ ∀ d, difficulty m = Some d → d ∈ DIFFICULTY.*2.

(** [Rect.contains] on float rectangles, as pygame documents it. *)
Definition FloatRect_contains (r inner : FloatRect) : bool :=
  let '(x, y, w, h) := r in
  let '(ix, iy, iw, ih) := inner in
  ((x <=? ix) && (y <=? iy) && (ix + iw <=? x + w) && (iy + ih <=? y + h)
   && (ix <? x + w) && (iy <? y + h))%float.

(** A session on [example_game], and a frame that presses [R] and [D]. *)
Definition example_session : Session FloatRect :=
  {| game := example_game;
     maze := {| ps_matrix := [[0%Z]]; visited_vertices := [0]; edge_list := [] |};
     end_square := Square_init FloatRect_new 225 225 225 Green;
     player := example_player; player_velocity := 1575;
     start_time := 0; time_last := 0; run := true; won := false; to_menu := false |}.

Definition example_input : FrameInput :=
  {| time_now := 0.015625; restart_time := 1; events := [OtherEvent];
     keys := {| K_q := false; K_r := true; K_w := false; K_s := false;
                K_d := true; K_a := false |} |}.

(** * Proofs *)

(** ** Python lists: the subscripts that stay in range *)

Lemma index_nat {A} (l : list A) (i : nat) :
  i < length l → Py.index l (Z.of_nat i) = Some i.
Proof.
  intros Hi. unfold Py.index.
  destruct (decide _) as [_|Hn]; [by rewrite Nat2Z.id | lia].
Qed.

Lemma getitem_nat {A} (l : list A) (i : nat) (x : A) :
  l !! i = Some x → Py.getitem l (Z.of_nat i) = Some x.
Proof.
  intros Hx. unfold Py.getitem.
  rewrite index_nat by (by eapply lookup_lt_Some). done.
Qed.

Lemma setitem_nat {A} (l : list A) (i : nat) (x : A) :
  i < length l → Py.setitem l (Z.of_nat i) x = Some (<[i := x]> l).
Proof. intros Hi. unfold Py.setitem. by rewrite index_nat. Qed.

Lemma for_each_app {S A} (body : S → A → option S) (s : S) (l k : list A) :
  Py.for_each body s (l ++ k) = s' ← Py.for_each body s l; Py.for_each body s' k.
Proof.
  revert s. induction l as [|a l IH]; intros s; simpl; [done|].
  destruct (body s a); simpl; [apply IH | done].
Qed.

Lemma range_S (n : nat) : Py.range (S n) = Py.range n ++ [n].
Proof. unfold Py.range. by rewrite seq_S. Qed.

Lemma random_choice_elem {A} (r : nat) (l : list A) :
  l ≠ [] → ∃ x, Py.random_choice r l = Some x ∧ x ∈ l.
Proof.
  intros Hl. destruct l as [|a l]; [done|]. unfold Py.random_choice.
  destruct (lookup_lt_is_Some_2 (a :: l) (r mod length (a :: l))) as [x Hx].
  { apply Nat.mod_upper_bound. simpl. lia. }
  exists x. split; [done | by eapply list_elem_of_lookup_2].
Qed.

Lemma random_choice_Some {A} (r : nat) (l : list A) (x : A) :
  Py.random_choice r l = Some x → x ∈ l.
Proof.
  destruct l as [|a l]; [done|]. unfold Py.random_choice.
  apply list_elem_of_lookup_2.
Qed.

(** ** The grid graph: the matrix the constructor builds *)

Lemma empty_matrix_eq (total : nat) :
  empty_matrix total = replicate total (zero_row total).
Proof.
  unfold empty_matrix, Py.range.
  enough (H : ∀ (l : list nat) acc,
             foldl (λ (m : Matrix) _, m ++ [replicate total 0%Z]) acc l
             = acc ++ replicate (length l) (zero_row total)).
  { rewrite H, length_seq. done. }
  induction l as [|a l IH]; intros acc; simpl.
  - by rewrite app_nil_r.
  - rewrite IH, <- app_assoc. done.
Qed.

Lemma set_entry_nat (m : Matrix) (r c : nat) (row : list Z) (v : Z) :
  m !! r = Some row → c < length row →
  set_entry m (Z.of_nat r) (Z.of_nat c) v = Some (<[r := <[c := v]> row]> m).
Proof.
  intros Hr Hc. unfold set_entry.
  rewrite (getitem_nat _ _ _ Hr). simpl.
  rewrite setitem_nat by done. simpl.
  apply setitem_nat. by eapply lookup_lt_Some.
Qed.

(** A guarded assignment [if guard: self.matrix[u][adj_pos] = 1] whose guard keeps
    [adj_pos] inside the row. *)
Lemma guarded_set (m : Matrix) (u : nat) (row : list Z) (adj_pos : Z)
    (guard : Prop) `{!Decision guard} :
  m !! u = Some row →
  (guard → (0 ≤ adj_pos < Z.of_nat (length row))%Z) →
  (if decide guard then set_entry m (Z.of_nat u) adj_pos 1 else Some m)
  = Some (<[u := if decide guard then <[Z.to_nat adj_pos := 1%Z]> row else row]> m).
Proof.
  intros Hu Hg. destruct (decide guard) as [Hy|Hn].
  - specialize (Hg Hy). rewrite <- (Z2Nat.id adj_pos) at 1 by lia.
    apply set_entry_nat; [done | lia].
  - f_equal. symmetry. by apply list_insert_id.
Qed.

(** The guards of [fill_vertex], read on naturals. *)
Lemma left_guard (n u : nat) :
  1 ≤ n → ((Z.of_nat u - 1) / Z.of_nat n = Z.of_nat u / Z.of_nat n)%Z ↔ 1 ≤ u ∧ (u - 1) / n = u / n.
Proof.
  intros Hn. destruct u as [|u].
  - split; [|lia]. intros H. exfalso.
    change (Z.of_nat 0 - 1)%Z with (-1)%Z in H. change (Z.of_nat 0) with 0%Z in H.
    rewrite Z.div_0_l in H by lia.
    assert (-1 / Z.of_nat n < 0)%Z by (apply Z.div_lt_upper_bound; lia). lia.
  - replace (Z.of_nat (S u) - 1)%Z with (Z.of_nat u) by lia.
    replace (S u - 1) with u by lia.
    rewrite <- !Nat2Z.inj_div, Nat2Z.inj_iff. split; [intros; split; [lia|done] | tauto].
Qed.

Lemma right_guard (n u : nat) :
  ((Z.of_nat u + 1) / Z.of_nat n = Z.of_nat u / Z.of_nat n)%Z ↔ (u + 1) / n = u / n.
Proof.
  replace (Z.of_nat u + 1)%Z with (Z.of_nat (u + 1)) by lia.
  by rewrite <- !Nat2Z.inj_div, Nat2Z.inj_iff.
Qed.

Lemma right_guard_range (n u : nat) :
  1 ≤ n → u < n ^ 2 → (u + 1) / n = u / n → u + 1 < n ^ 2.
Proof.
  intros Hn Hu Hq.
  destruct (decide (u + 1 = n ^ 2)) as [He|]; [|lia]. exfalso.
  rewrite He in Hq. replace (n ^ 2) with (n * n) in * by (simpl; lia).
  rewrite Nat.div_mul in Hq by lia.
  assert (u / n < n) by (apply Nat.Div0.div_lt_upper_bound; lia). lia.
Qed.

(** What a guarded assignment of 1 leaves in the row. *)
Lemma guarded_insert_length (guard : Prop) `{!Decision guard} (k : nat) (row : list Z) :
  length (if decide guard then <[k := 1%Z]> row else row) = length row.
Proof. destruct (decide guard); [apply length_insert | done]. Qed.

Lemma guarded_insert_one (guard : Prop) `{!Decision guard} (k c : nat) (row : list Z) :
  (if decide guard then <[k := 1%Z]> row else row) !! c = Some 1%Z
  ↔ (guard ∧ k = c ∧ c < length row) ∨ row !! c = Some 1%Z.
Proof.
  destruct (decide guard) as [Hy|Hn].
  - rewrite list_lookup_insert_Some. split.
    + intros [(-> & _ & Hc)|[_ Hl]]; [by left | by right].
    + intros [(_ & -> & Hc)|Hl]; [by left|].
      destruct (decide (k = c)) as [->|Hne]; [left | by right].
      split_and!; [done..|]. by eapply lookup_lt_Some.
  - split; [by right | intros [[? _]|?]; done].
Qed.

Lemma guarded_insert_bit (guard : Prop) `{!Decision guard} (k : nat) (row : list Z) :
  (∀ c e, row !! c = Some e → e = 0%Z ∨ e = 1%Z) →
  ∀ c e, (if decide guard then <[k := 1%Z]> row else row) !! c = Some e → e = 0%Z ∨ e = 1%Z.
Proof.
  intros Hrow c e. destruct (decide guard); [|apply Hrow].
  rewrite list_lookup_insert_Some. intros [(_ & <- & _)|[_ He]]; [by right | by eapply Hrow].
Qed.

Lemma zero_row_lookup (total c : nat) (e : Z) :
  zero_row total !! c = Some e ↔ e = 0%Z ∧ c < total.
Proof. apply lookup_replicate. Qed.

Lemma grid_row_length (n u : nat) : length (grid_row n u) = n ^ 2.
Proof. unfold grid_row. by rewrite length_fmap, length_seq. Qed.

Lemma grid_row_lookup (n u v : nat) :
  v < n ^ 2 →
  grid_row n u !! v = Some (if decide (grid_adjacent n u v) then 1%Z else 0%Z).
Proof.
  intros Hv. unfold grid_row. rewrite list_lookup_fmap.
  assert (seq 0 (n ^ 2) !! v = Some v) as -> by (apply lookup_seq; lia). done.
Qed.

(** A row of bits is the row of the grid as soon as its ones are the neighbours. *)
Lemma grid_row_intro (n u : nat) (row : list Z) :
  length row = n ^ 2 →
  (∀ c e, row !! c = Some e → e = 0%Z ∨ e = 1%Z) →
  (∀ c, c < n ^ 2 → row !! c = Some 1%Z ↔ grid_adjacent n u c) →
  row = grid_row n u.
Proof.
  intros Hlen Hbit Hone. apply list_eq. intros c.
  destruct (decide (c < n ^ 2)) as [Hc|Hc].
  - rewrite grid_row_lookup by done.
    destruct (lookup_lt_is_Some_2 row c) as [e He]; [lia|].
    rewrite He. f_equal. destruct (decide (grid_adjacent n u c)) as [Ha|Ha].
    + apply Hone in Ha; [|done]. congruence.
    + destruct (Hbit _ _ He) as [->| ->]; [done|]. by apply Hone in He.
  - rewrite !lookup_ge_None_2; [done | rewrite grid_row_length; lia | lia].
Qed.

(** The body of the filling loop writes the row of the grid into a zero row. *)
Lemma fill_vertex_row (n : nat) (m : Matrix) (u : nat) :
  1 ≤ n → u < n ^ 2 → m !! u = Some (zero_row (n ^ 2)) →
  fill_vertex n (n ^ 2) m u = Some (<[u := grid_row n u]> m).
Proof.
  intros Hn Hu Hrow.
  assert (Hlen : u < length m) by (by eapply lookup_lt_Some).
  assert (Hsq : n ^ 2 = n * n) by (simpl; lia).
  unfold fill_vertex, Py.floordiv.
  destruct (decide (Z.of_nat n = 0)%Z) as [?|_]; [lia|]. cbn [mbind option_bind].
  rewrite (guarded_set m u (zero_row (n ^ 2))); [|done|]; cycle 1.
  { rewrite left_guard by done. unfold zero_row. rewrite length_replicate. lia. }
  cbn [mbind option_bind].
  erewrite guarded_set; [|by apply list_lookup_insert_eq|]; cycle 1.
  { rewrite right_guard, guarded_insert_length. unfold zero_row. rewrite length_replicate.
    intros Hq. pose proof (right_guard_range n u Hn Hu Hq). lia. }
  cbn [mbind option_bind].
  erewrite guarded_set; [|by (apply list_lookup_insert_eq; rewrite !length_insert)|]; cycle 1.
  { rewrite !guarded_insert_length. unfold zero_row. rewrite length_replicate. lia. }
  cbn [mbind option_bind].
  erewrite guarded_set; [|by (apply list_lookup_insert_eq; rewrite !length_insert)|]; cycle 1.
  { rewrite !guarded_insert_length. unfold zero_row. rewrite length_replicate. lia. }
  rewrite !list_insert_insert_eq. f_equal. f_equal.
  apply grid_row_intro.
  - rewrite !guarded_insert_length. unfold zero_row. by rewrite length_replicate.
  - do 4 apply guarded_insert_bit. intros c e He. apply zero_row_lookup in He. tauto.
  - intros c Hc. rewrite !guarded_insert_one, !guarded_insert_length.
    rewrite left_guard, right_guard by done.
    unfold zero_row at 1 2 3 4. rewrite length_replicate, zero_row_lookup.
    unfold grid_adjacent. split.
    + intros [(Hg & Hk & _)|[(Hg & Hk & _)|[(Hg & Hk & _)|[(Hg & Hk & _)|[? _]]]]];
        [| | | |done].
      * right; right. lia.
      * right; left. lia.
      * assert (c = u + 1) as -> by lia. left. split; [by symmetry | by right].
      * destruct Hg as [H1 Hg]. assert (c = u - 1) as -> by lia.
        left. split; [by symmetry | left; lia].
    + intros [[Hq [Hc1| ->]]|[Hc1| ->]].
      * do 3 right. left. assert (c = u - 1) as -> by lia.
        repeat split; [lia | by symmetry | lia | lia].
      * right; right; left. repeat split; [by symmetry | lia | lia].
      * right; left. lia.
      * left. lia.
Qed.

Lemma fill_loop (n : nat) (j k : nat) :
  1 ≤ n → k + j = n ^ 2 →
  Py.for_each (fill_vertex n (n ^ 2))
    ((grid_row n <$> seq 0 k) ++ replicate j (zero_row (n ^ 2))) (seq k j)
  = Some (grid_rows n).
Proof.
  intros Hn. revert k. induction j as [|j IH]; intros k Hk.
  - simpl. rewrite app_nil_r. unfold grid_rows. replace (n ^ 2) with k by lia. done.
  - cbn [seq Py.for_each replicate].
    rewrite fill_vertex_row; [|done|lia|]; cycle 1.
    { apply list_lookup_middle. by rewrite length_fmap, length_seq. }
    cbn [mbind option_bind].
    rewrite insert_app_r_alt by (rewrite length_fmap, length_seq; lia).
    rewrite length_fmap, length_seq, Nat.sub_diag. cbn [insert list_insert].
    rewrite (cons_middle (grid_row n k)), app_assoc.
    replace ((grid_row n <$> seq 0 k) ++ [grid_row n k]) with (grid_row n <$> seq 0 (S k))
      by (by rewrite seq_S, fmap_app).
    apply IH. lia.
Qed.

(** [AdjacencyMatrix.__init__] returns, and its matrix is the matrix of the grid. *)
Lemma grid_matrix_eq (n : nat) :
  1 ≤ n →
  grid_matrix n
  = Some {| vertex_across := n; vertex_total := n ^ 2; matrix := grid_rows n |}.
Proof.
  intros Hn. unfold grid_matrix, AdjacencyMatrix_init, squares_total, Py.range.
  rewrite empty_matrix_eq.
  pose proof (fill_loop n (n ^ 2) 0 Hn eq_refl) as Hloop.
  cbn [seq fmap list_fmap app] in Hloop. rewrite Hloop. done.
Qed.

Lemma grid_rows_length (n : nat) : length (grid_rows n) = n ^ 2.
Proof. unfold grid_rows. by rewrite length_fmap, length_seq. Qed.

Lemma grid_rows_lookup (n u : nat) :
  u < n ^ 2 → grid_rows n !! u = Some (grid_row n u).
Proof.
  intros Hu. unfold grid_rows. rewrite list_lookup_fmap.
  assert (seq 0 (n ^ 2) !! u = Some u) as -> by (apply lookup_seq; lia). done.
Qed.

Lemma grid_rows_entry (n u v : nat) :
  u < n ^ 2 → v < n ^ 2 →
  entry (grid_rows n) u v = Some (if decide (grid_adjacent n u v) then 1%Z else 0%Z).
Proof.
  intros Hu Hv. unfold entry. rewrite grid_rows_lookup by done. simpl.
  by apply grid_row_lookup.
Qed.

Lemma grid_adjacent_sym (n u v : nat) : grid_adjacent n u v → grid_adjacent n v u.
Proof. unfold grid_adjacent. intros [[Hq Hc]|Hc]; [left; split; [done | lia] | right; lia]. Qed.

Lemma grid_adjacent_irrefl (n u : nat) : 1 ≤ n → ¬ grid_adjacent n u u.
Proof. unfold grid_adjacent. lia. Qed.

(** ** Counting the ones of the grid matrix *)

Lemma div_mod_split (n u : nat) : 1 ≤ n → u = n * (u / n) + u mod n ∧ u mod n < n.
Proof.
  intros Hn. split; [apply Nat.div_mod_eq | apply Nat.mod_upper_bound; lia].
Qed.

Lemma same_row_pred (n u : nat) : 1 ≤ n → 1 ≤ u → (u - 1) / n = u / n ↔ has_left n u.
Proof.
  intros Hn Hu.
  destruct (div_mod_split n u Hn) as [Hdu Hru].
  destruct (div_mod_split n (u - 1) Hn) as [Hdp Hrp].
  split.
  - intros Hq. rewrite Hq in Hdp. lia.
  - intros Hl. symmetry. apply (Nat.div_unique _ _ _ (u mod n - 1)); lia.
Qed.

Lemma same_row_succ (n u : nat) : 1 ≤ n → (u + 1) / n = u / n ↔ has_right n u.
Proof.
  intros Hn.
  destruct (div_mod_split n u Hn) as [Hdu Hru].
  destruct (div_mod_split n (u + 1) Hn) as [Hdp Hrp].
  split.
  - intros Hq. rewrite Hq in Hdp. lia.
  - intros Hl. symmetry. apply (Nat.div_unique _ _ _ (u mod n + 1)); lia.
Qed.

Lemma has_right_range (n u : nat) : 1 ≤ n → u < n ^ 2 → has_right n u → u + 1 < n ^ 2.
Proof.
  intros Hn Hu Hr. apply right_guard_range; [done..|]. by apply same_row_succ.
Qed.

Lemma neighbours_spec (n u x : nat) :
  1 ≤ n → u < n ^ 2 → x ∈ neighbours n u ↔ grid_adjacent n u x ∧ x < n ^ 2.
Proof.
  intros Hn Hu. unfold neighbours, grid_adjacent.
  rewrite !elem_of_app. split.
  - intros [Hx|[Hx|[Hx|Hx]]]; destruct (decide _) as [Hg|_];
      try (by apply elem_of_nil in Hx); apply list_elem_of_singleton in Hx; subst x.
    + assert (1 ≤ u).
      { pose proof (Nat.Div0.mod_le u n). lia. }
      split; [|lia]. left. split; [|lia]. symmetry. by apply same_row_pred.
    + pose proof (has_right_range n u Hn Hu Hg).
      split; [|lia]. left. split; [|lia]. symmetry. by apply same_row_succ.
    + split; [|lia]. right. lia.
    + split; [|lia]. right. lia.
  - intros [[[Hq [Hx| ->]]|[Hx| ->]] Hlt].
    + left. assert (x = u - 1) as -> by lia.
      rewrite decide_True; [by apply list_elem_of_singleton|].
      apply same_row_pred; [done | lia | done].
    + right; left. rewrite decide_True; [by apply list_elem_of_singleton|].
      by apply same_row_succ.
    + right; right; left. assert (x = u - n) as -> by lia.
      rewrite decide_True; [by apply list_elem_of_singleton|]. lia.
    + do 3 right. rewrite decide_True; [by apply list_elem_of_singleton|]. done.
Qed.

Lemma neighbours_NoDup (n u : nat) : 1 ≤ n → NoDup (neighbours n u).
Proof.
  intros Hn. destruct (div_mod_split n u Hn) as [Hdu Hru].
  unfold neighbours.
  repeat destruct (decide _); simpl;
    repeat (apply NoDup_cons; split; [rewrite ?elem_of_cons, ?elem_of_nil; lia|]);
    apply NoDup_nil_2.
Qed.

Lemma neighbours_length (n u : nat) :
  length (neighbours n u)
  = indicator (has_left n u) + indicator (has_right n u)
    + indicator (has_above n u) + indicator (has_below n u).
Proof.
  unfold neighbours, indicator. rewrite !length_app.
  repeat destruct (decide _); simpl; lia.
Qed.

Lemma count_ones_bits {A} (P : A → Prop) `{!∀ x, Decision (P x)} (l : list A) :
  count_ones ((λ x, if decide (P x) then 1%Z else 0%Z) <$> l) = length (filter P l).
Proof.
  unfold count_ones. induction l as [|a l IH]; [done|].
  rewrite fmap_cons, !filter_cons. destruct (decide (P a)).
  - rewrite decide_True by done. simpl. by rewrite IH.
  - rewrite decide_False by done. done.
Qed.

(** The degree of a vertex is the number of its neighbours. *)
Lemma grid_row_degree (n u : nat) :
  1 ≤ n → u < n ^ 2 → count_ones (grid_row n u) = length (neighbours n u).
Proof.
  intros Hn Hu. unfold grid_row. rewrite count_ones_bits.
  apply Permutation_length, NoDup_Permutation.
  - apply NoDup_filter, NoDup_seq.
  - by apply neighbours_NoDup.
  - intros x. rewrite list_elem_of_filter, elem_of_seq, neighbours_spec by done.
    split; [intros []; split; [done | lia] | intros []; split; [done | lia]].
Qed.

Lemma grid_degree_bounds (n u : nat) :
  2 ≤ n → u < n ^ 2 → 2 ≤ length (neighbours n u) ≤ 4.
Proof.
  intros Hn Hu. rewrite neighbours_length.
  destruct (div_mod_split n u ltac:(lia)) as [Hdu Hru].
  assert (Hsq : n ^ 2 = n * n) by (simpl; lia).
  unfold indicator.
  repeat destruct (decide _); nia.
Qed.

(** ** Sums over the vertices *)

Lemma sum_indicator {A} (P : A → Prop) `{!∀ x, Decision (P x)} (l : list A) :
  sum_list_with (λ x, indicator (P x)) l = length (filter P l).
Proof.
  induction l as [|a l IH]; [done|]. rewrite filter_cons. simpl. rewrite IH.
  unfold indicator. by destruct (decide (P a)).
Qed.

Lemma sum_list_with_add {A} (f g : A → nat) (l : list A) :
  sum_list_with (λ x, f x + g x) l = sum_list_with f l + sum_list_with g l.
Proof. induction l as [|a l IH]; simpl; lia. Qed.

Lemma sum_list_with_fmap {A B} (f : B → nat) (g : A → B) (l : list A) :
  sum_list_with f (g <$> l) = sum_list_with (λ x, f (g x)) l.
Proof. induction l as [|a l IH]; [done|]. rewrite fmap_cons. simpl. by rewrite IH. Qed.

Lemma sum_list_with_ext {A} (f g : A → nat) (l : list A) :
  (∀ x, x ∈ l → f x = g x) → sum_list_with f l = sum_list_with g l.
Proof.
  induction l as [|a l IH]; intros Hfg; [done|]. simpl.
  rewrite (Hfg a) by apply list_elem_of_here. rewrite IH; [done|].
  intros x Hx. apply Hfg. by apply list_elem_of_further.
Qed.

Lemma count_ge (a N : nat) : length (filter (λ u, a ≤ u) (seq 0 N)) = N - a.
Proof.
  induction N as [|N IH]; [done|].
  rewrite seq_S, filter_app, length_app, IH, filter_cons, filter_nil. simpl.
  destruct (decide (a ≤ N)); simpl; lia.
Qed.

Lemma count_lt (b N : nat) : length (filter (λ u, u < b) (seq 0 N)) = N `min` b.
Proof.
  induction N as [|N IH]; [done|].
  rewrite seq_S, filter_app, length_app, IH, filter_cons, filter_nil.
  change (0 + N) with N. destruct (decide (N < b)); cbn [length]; lia.
Qed.

(** A property of the column holds equally often in every row. *)
Lemma count_column_row (n k j : nat) (Q : nat → Prop) `{!∀ c, Decision (Q c)} :
  j ≤ n →
  length (filter (λ u, Q (u mod n)) (seq (k * n) j)) = length (filter Q (seq 0 j)).
Proof.
  induction j as [|j IHj]; intros Hj; [done|].
  rewrite !seq_S, !filter_app, !length_app, IHj by lia.
  f_equal. rewrite !filter_cons, !filter_nil. change (0 + j) with j.
  assert ((k * n + j) mod n = j) as Hmod.
  { rewrite Nat.add_comm, Nat.Div0.mod_add. apply Nat.mod_small. lia. }
  destruct (decide (Q ((k * n + j) mod n))) as [Hq|Hq], (decide (Q j)) as [Hq'|Hq'];
    rewrite Hmod in Hq; done.
Qed.

Lemma count_column (n k : nat) (Q : nat → Prop) {dQ : ∀ c, Decision (Q c)}
    {dQ' : ∀ u, Decision (Q (u mod n))} :
  length (filter (λ u, Q (u mod n)) (seq 0 (k * n))) = k * length (filter Q (seq 0 n)).
Proof.
  assert (∀ l : list nat,
            @filter _ _ _ (λ u, Q (u mod n)) dQ' l
            = @filter _ _ _ (λ u, Q (u mod n)) (λ u, dQ (u mod n)) l) as ->
    by (intros; by apply list_filter_iff).
  induction k as [|k IH]; [done|].
  replace (S k * n) with (k * n + n) by lia.
  rewrite seq_app, filter_app, length_app, IH. simpl.
  rewrite count_column_row by done. lia.
Qed.

Lemma count_has_left (n : nat) :
  1 ≤ n → length (filter (λ u, has_left n u) (seq 0 (n ^ 2))) = n * (n - 1).
Proof.
  intros Hn. replace (n ^ 2) with (n * n) by (simpl; lia).
  rewrite (count_column n n (λ c, 1 ≤ c)), count_ge. done.
Qed.

Lemma count_has_right (n : nat) :
  1 ≤ n → length (filter (λ u, has_right n u) (seq 0 (n ^ 2))) = n * (n - 1).
Proof.
  intros Hn. replace (n ^ 2) with (n * n) by (simpl; lia).
  rewrite (list_filter_iff _ (λ u, (λ c, c < n - 1) (u mod n))) by (intros; simpl; lia).
  rewrite (count_column n n (λ c, c < n - 1)), count_lt. f_equal. lia.
Qed.

Lemma count_has_above (n : nat) :
  length (filter (λ u, has_above n u) (seq 0 (n ^ 2))) = n * (n - 1).
Proof. rewrite count_ge. simpl. nia. Qed.

Lemma count_has_below (n : nat) :
  length (filter (λ u, has_below n u) (seq 0 (n ^ 2))) = n * (n - 1).
Proof.
  rewrite (list_filter_iff _ (λ u, u < n ^ 2 - n)) by (intros; simpl; lia).
  rewrite count_lt. simpl. nia.
Qed.

(** The grid matrix holds [4 n (n - 1)] ones. *)
Lemma grid_rows_ones (n : nat) : 1 ≤ n → ones (grid_rows n) = 2 * (2 * n * (n - 1)).
Proof.
  intros Hn. unfold ones, grid_rows.
  rewrite sum_list_with_fmap.
  rewrite (sum_list_with_ext _ (λ u, indicator (has_left n u) + indicator (has_right n u)
                                     + indicator (has_above n u) + indicator (has_below n u))).
  2:{ intros u Hu. apply elem_of_seq in Hu. simpl.
      rewrite grid_row_degree, neighbours_length by lia. done. }
  rewrite !sum_list_with_add, !sum_indicator.
  rewrite count_has_left, count_has_right, count_has_above, count_has_below by done.
  lia.
Qed.

Lemma length_bind_sum {A B} (f : A → list B) (l : list A) :
  length (l ≫= f) = sum_list_with (λ x, length (f x)) l.
Proof.
  induction l as [|a l IH]; [done|].
  rewrite bind_cons, length_app, IH. done.
Qed.

Lemma grid_rows_entry_one (n u v : nat) :
  u < n ^ 2 → v < n ^ 2 →
  entry (grid_rows n) u v = Some 1%Z ↔ grid_adjacent n u v.
Proof.
  intros Hu Hv. rewrite grid_rows_entry by done.
  destruct (decide (grid_adjacent n u v)); split; intros; done.
Qed.

Lemma later_neighbours_spec (n u x : nat) :
  1 ≤ n → u < n ^ 2 →
  x ∈ later_neighbours n u ↔ u < x ∧ grid_adjacent n u x ∧ x < n ^ 2.
Proof.
  intros Hn Hu. rewrite <- neighbours_spec by done.
  unfold later_neighbours, neighbours. rewrite !elem_of_app.
  repeat destruct (decide _);
    rewrite ?list_elem_of_singleton, ?elem_of_nil; lia.
Qed.

Lemma later_neighbours_NoDup (n u : nat) : 1 ≤ n → NoDup (later_neighbours n u).
Proof.
  intros Hn. destruct (div_mod_split n u Hn) as [Hdu Hru]. unfold later_neighbours.
  repeat destruct (decide _); simpl;
    repeat (apply NoDup_cons; split; [rewrite ?elem_of_cons, ?elem_of_nil; lia|]);
    apply NoDup_nil_2.
Qed.

(** The grid has [2 n (n - 1)] undirected edges. *)
Lemma grid_rows_undirected (n : nat) :
  1 ≤ n → length (undirected_edges (grid_rows n)) = 2 * n * (n - 1).
Proof.
  intros Hn. unfold undirected_edges. rewrite length_bind_sum, grid_rows_length.
  rewrite (sum_list_with_ext _ (λ u, indicator (has_right n u) + indicator (has_below n u))).
  - rewrite sum_list_with_add, !sum_indicator.
    rewrite count_has_right by done. rewrite count_has_below. lia.
  - intros u Hu. apply elem_of_seq in Hu. rewrite length_fmap.
    trans (length (later_neighbours n u)).
    + apply Permutation_length, NoDup_Permutation.
      * apply NoDup_filter, NoDup_seq.
      * by apply later_neighbours_NoDup.
      * intros x. rewrite list_elem_of_filter, elem_of_seq, later_neighbours_spec by lia.
        split.
        -- intros [[Hlt He] Hx]. apply grid_rows_entry_one in He; [|lia..].
           split_and!; [done | done | lia].
        -- intros (Hlt & Ha & Hx). split_and!; [done| |lia..].
           apply grid_rows_entry_one; [lia..|done].
    + unfold later_neighbours, indicator. rewrite length_app.
      repeat destruct (decide _); done.
Qed.

Lemma grid_rows_symmetric (n u v : nat) :
  u < n ^ 2 → v < n ^ 2 → entry (grid_rows n) u v = entry (grid_rows n) v u.
Proof.
  intros Hu Hv. rewrite !grid_rows_entry by done.
  destruct (decide (grid_adjacent n u v)) as [H|H],
           (decide (grid_adjacent n v u)) as [H'|H']; try done;
    exfalso; [apply H' | apply H]; by apply grid_adjacent_sym.
Qed.

(** C3. For every grid side [n >= 2] the matrix [AdjacencyMatrix.__init__] builds
    has a 1 at [u][v] exactly when [u] and [v] are orthogonal neighbours in the grid
    (and a 0 otherwise); so it is symmetric, it holds [2 n (n - 1)] undirected edges,
    each counted twice (once per direction), and every row has 2, 3 or 4 ones. *)
Theorem grid_matrix_adjacency (n : nat) :
  2 ≤ n →
  ∃ self, grid_matrix n = Some self
    ∧ vertex_across self = n ∧ vertex_total self = n ^ 2
    ∧ length (matrix self) = n ^ 2
    ∧ (∀ u v, u < n ^ 2 → v < n ^ 2 →
         entry (matrix self) u v
         = Some (if decide (grid_adjacent n u v) then 1%Z else 0%Z))
    ∧ (∀ u v, u < n ^ 2 → v < n ^ 2 →
         entry (matrix self) u v = entry (matrix self) v u)
    ∧ length (undirected_edges (matrix self)) = 2 * n * (n - 1)
    ∧ ones (matrix self) = 2 * (2 * n * (n - 1))
    ∧ (∀ u row, matrix self !! u = Some row →
         length row = n ^ 2 ∧ 2 ≤ count_ones row ≤ 4).
Proof.
  intros Hn. eexists. split; [apply grid_matrix_eq; lia|]. simpl.
  split_and!; [done | done | apply grid_rows_length | intros; by apply grid_rows_entry
              | intros; by apply grid_rows_symmetric | apply grid_rows_undirected; lia
              | apply grid_rows_ones; lia |].
  intros u row Hrow.
  assert (Hu : u < n ^ 2).
  { rewrite <- (grid_rows_length n). by eapply lookup_lt_Some. }
  rewrite grid_rows_lookup in Hrow by done. injection Hrow as <-.
  split; [apply grid_row_length|].
  rewrite grid_row_degree by lia. apply grid_degree_bounds; lia.
Qed.

Lemma grid_matrix_adjacency_witness :
  ∃ self, grid_matrix 2 = Some self
    ∧ vertex_across self = 2 ∧ vertex_total self = 2 ^ 2
    ∧ length (matrix self) = 2 ^ 2
    ∧ (∀ u v, u < 2 ^ 2 → v < 2 ^ 2 →
         entry (matrix self) u v
         = Some (if decide (grid_adjacent 2 u v) then 1%Z else 0%Z))
    ∧ (∀ u v, u < 2 ^ 2 → v < 2 ^ 2 →
         entry (matrix self) u v = entry (matrix self) v u)
    ∧ length (undirected_edges (matrix self)) = 2 * 2 * (2 - 1)
    ∧ ones (matrix self) = 2 * (2 * 2 * (2 - 1))
    ∧ (∀ u row, matrix self !! u = Some row →
         length row = 2 ^ 2 ∧ 2 ≤ count_ones row ≤ 4).
Proof. apply (grid_matrix_adjacency 2). lia. Defined.

(** ** Maze generation: the candidate pairs *)

Lemma square_entry (m : Matrix) (total u v : nat) :
  square m total → u < total → v < total → is_Some (entry m u v).
Proof.
  intros [Hlen Hrows] Hu Hv. unfold entry.
  destruct (lookup_lt_is_Some_2 m u) as [row Hrow]; [lia|].
  rewrite Hrow. simpl. apply lookup_lt_is_Some. rewrite (Hrows _ _ Hrow). done.
Qed.

Lemma scan_column (m : Matrix) (total column : nat) (rows : list nat) (acc : list (nat * nat)) :
  square m total → column < total → Forall (λ r, r < total) rows →
  Py.for_each (λ acc row,
      r ← m !! row; e ← r !! column;
      Some (if decide (e = 1%Z) then acc ++ [(row, column)] else acc)) acc rows
  = Some (acc ++ (row ← rows;
                  if decide (entry m row column = Some 1%Z) then [(row, column)] else [])).
Proof.
  intros Hsq Hc Hrows. revert acc.
  induction Hrows as [|row rows Hrow _ IH]; intros acc.
  - simpl. by rewrite app_nil_r.
  - cbn [Py.for_each]. rewrite bind_cons.
    destruct (square_entry m total row column Hsq Hrow Hc) as [e He].
    rewrite He. unfold entry in He.
    destruct (m !! row) as [r|]; [|done]. simpl in He. simpl. rewrite He. simpl.
    rewrite IH. f_equal.
    destruct (decide (e = 1%Z)) as [->|Hne].
    + rewrite decide_True by done. by rewrite <- app_assoc.
    + rewrite decide_False by congruence. done.
Qed.

(** The comprehension never raises on a square matrix and in-range columns. *)
Lemma available_vertices_eq (m : Matrix) (total : nat) (visited : list nat) :
  square m total → Forall (λ c, c < total) visited →
  available_vertices m total visited = Some (available_pairs m total visited).
Proof.
  intros Hsq Hvis. unfold available_vertices, available_pairs.
  enough (H : ∀ acc,
    Py.for_each (λ acc column,
      Py.for_each (λ acc row,
        r ← m !! row; e ← r !! column;
        Some (if decide (e = 1%Z) then acc ++ [(row, column)] else acc))
        acc (Py.range total)) acc visited
    = Some (acc ++ (column ← visited; row ← seq 0 total;
                    if decide (entry m row column = Some 1%Z) then [(row, column)] else [])))
    by apply (H []).
  induction Hvis as [|c cs Hc _ IH]; intros acc.
  - simpl. by rewrite app_nil_r.
  - cbn [Py.for_each]. unfold Py.range at 1.
    rewrite (scan_column m total c) by
      (try done; apply Forall_forall; intros r Hr; apply elem_of_seq in Hr; lia).
    cbn [mbind option_bind]. rewrite IH, bind_cons, app_assoc. done.
Qed.

Lemma available_pairs_spec (m : Matrix) (total : nat) (visited : list nat) (r c : nat) :
  (r, c) ∈ available_pairs m total visited
  ↔ c ∈ visited ∧ r < total ∧ entry m r c = Some 1%Z.
Proof.
  unfold available_pairs. rewrite list_elem_of_bind. split.
  - intros (c' & Hrc & Hc'). apply list_elem_of_bind in Hrc as (r' & Hrc & Hr').
    apply elem_of_seq in Hr'.
    destruct (decide _) as [He|]; [|by apply elem_of_nil in Hrc].
    apply list_elem_of_singleton in Hrc. injection Hrc as -> ->.
    split_and!; [done | lia | done].
  - intros (Hc & Hr & He). exists c. split; [|done].
    apply list_elem_of_bind. exists r. split; [|apply elem_of_seq; lia].
    rewrite decide_True by done. by apply list_elem_of_singleton.
Qed.

(** ** The least vertex not yet visited *)

Lemma least_unvisited (vs : list nat) (N : nat) :
  (∀ u, u < N → u ∈ vs) ∨ (∃ v, v < N ∧ (v ∉ vs) ∧ (∀ u, u < v → u ∈ vs)).
Proof.
  induction N as [|N [IH|(v & Hv & Hnv & Hlow)]].
  - left. lia.
  - destruct (decide (N ∈ vs)) as [Hin|Hout].
    + left. intros u Hu. destruct (decide (u = N)) as [->|]; [done | apply IH; lia].
    + right. exists N. split_and!; [lia | done | done].
  - right. exists v. split_and!; [lia | done | done].
Qed.

Lemma unvisited_exists (vs : list nat) (N : nat) :
  NoDup vs → length vs < N → ∃ v, v < N ∧ (v ∉ vs) ∧ (∀ u, u < v → u ∈ vs).
Proof.
  intros Hnd Hlen. destruct (least_unvisited vs N) as [Hall|Hv]; [|done].
  exfalso. assert (length (seq 0 N) ≤ length vs) as Hle.
  { apply submseteq_length, NoDup_submseteq; [apply NoDup_seq|].
    intros x Hx. apply elem_of_seq in Hx. apply Hall. lia. }
  rewrite length_seq in Hle. lia.
Qed.

Lemma visited_complete (vs : list nat) (N : nat) :
  NoDup vs → Forall (λ v, v < N) vs → length vs = N → ∀ v, v < N → v ∈ vs.
Proof.
  intros Hnd Hlt Hlen v Hv.
  destruct (least_unvisited vs N) as [Hall|(w & Hw & Hnw & _)]; [by apply Hall|].
  exfalso. assert (length (w :: vs) ≤ length (seq 0 N)) as Hle.
  { apply submseteq_length, NoDup_submseteq; [by apply NoDup_cons|].
    intros x Hx. apply elem_of_seq. apply elem_of_cons in Hx as [->|Hx]; [lia|].
    rewrite Forall_forall in Hlt. specialize (Hlt _ Hx). lia. }
  rewrite length_seq in Hle. simpl in Hle. lia.
Qed.

(** ** Maze generation: the loop invariant *)

Lemma grown_NoDup vs es : grown vs es → NoDup vs.
Proof.
  induction 1 as [|vs es u w _ IH Hu _].
  - apply NoDup_singleton.
  - apply NoDup_app. split_and!; [done | | apply NoDup_singleton].
    intros x Hx Hx'. apply list_elem_of_singleton in Hx'. by subst.
Qed.

Lemma grown_root vs es : grown vs es → 0 ∈ vs.
Proof.
  induction 1; [apply list_elem_of_here | apply elem_of_app; by left].
Qed.

Lemma grown_length vs es : grown vs es → length vs = length es + 1.
Proof. induction 1; [done | rewrite !length_app; simpl; lia]. Qed.

Lemma grid_rows_square (n : nat) : square (grid_rows n) (n ^ 2).
Proof.
  split; [apply grid_rows_length|]. intros u row Hrow.
  assert (u < n ^ 2) by (rewrite <- (grid_rows_length n); by eapply lookup_lt_Some).
  rewrite grid_rows_lookup in Hrow by done. injection Hrow as <-. apply grid_row_length.
Qed.

Lemma square_insert (m : Matrix) (total u : nat) (row : list Z) :
  square m total → length row = total → square (<[u := row]> m) total.
Proof.
  intros [Hlen Hrows] Hrow. split; [by rewrite length_insert|].
  intros v r Hv. apply list_lookup_insert_Some in Hv as [(_ & <- & _)|[_ Hv]]; [done|].
  by eapply Hrows.
Qed.

Lemma zero_row_entry (m : Matrix) (total u v : nat) :
  m !! u = Some (zero_row total) → entry m u v ≠ Some 1%Z.
Proof.
  intros Hu. unfold entry. rewrite Hu. simpl. intros He.
  apply zero_row_lookup in He. lia.
Qed.

(** The state before the loop satisfies the invariant. *)
Lemma prims_start_inv (n : nat) :
  1 ≤ n →
  ∃ st, prims_start {| vertex_across := n; vertex_total := n ^ 2; matrix := grid_rows n |}
        = Some st ∧ prims_inv n 0 st.
Proof.
  intros Hn. assert (0 < n ^ 2) by (simpl; nia).
  unfold prims_start. simpl.
  rewrite (setitem_nat (grid_rows n) 0) by (rewrite grid_rows_length; lia).
  eexists. split; [done|]. split; simpl.
  - apply square_insert; [apply grid_rows_square | apply length_replicate].
  - done.
  - by apply Forall_singleton.
  - intros u Hu. apply list_elem_of_singleton in Hu as ->.
    apply list_lookup_insert_eq. rewrite grid_rows_length. lia.
  - intros u Hu Hnu. rewrite list_elem_of_singleton in Hnu.
    rewrite list_lookup_insert_ne by done. by apply grid_rows_lookup.
  - constructor.
  - constructor.
Qed.

(** Before the last vertex is visited, some candidate pair exists: the least
    unvisited vertex has its left or its upper neighbour visited. *)
Lemma available_nonempty (n k : nat) (st : PrimsState) :
  1 ≤ n → prims_inv n k st → k + 1 < n ^ 2 →
  available_pairs (ps_matrix st) (n ^ 2) (visited_vertices st) ≠ [].
Proof.
  intros Hn Hinv Hk.
  destruct (unvisited_exists (visited_vertices st) (n ^ 2)) as (v & Hv & Hnv & Hlow).
  { eapply grown_NoDup, inv_grown, Hinv. }
  { rewrite (inv_length _ _ _ Hinv). lia. }
  assert (Hv0 : v ≠ 0).
  { intros ->. apply Hnv. eapply grown_root, inv_grown, Hinv. }
  assert (Hentry : ∀ c, c < n ^ 2 → grid_adjacent n v c →
                        entry (ps_matrix st) v c = Some 1%Z).
  { intros c Hc Ha. unfold entry. rewrite (inv_other_row _ _ _ Hinv v Hv Hnv). simpl.
    rewrite grid_row_lookup by done. by rewrite decide_True. }
  destruct (div_mod_split n v Hn) as [Hdv Hrv].
  destruct (decide (has_left n v)) as [Hl|Hl].
  - enough ((v, v - 1) ∈ available_pairs (ps_matrix st) (n ^ 2) (visited_vertices st)) as Hin.
    { intros Hnil. rewrite Hnil in Hin. by apply elem_of_nil in Hin. }
    apply available_pairs_spec. split_and!; [apply Hlow; lia | done |].
    apply Hentry; [lia|]. left. split; [|left; lia].
    symmetry. apply same_row_pred; [done | lia | done].
  - assert (n ≤ v).
    { assert (v mod n = 0) as Hz by lia. rewrite Hz in Hdv.
      destruct (v / n) as [|q]; [lia | nia]. }
    enough ((v, v - n) ∈ available_pairs (ps_matrix st) (n ^ 2) (visited_vertices st)) as Hin.
    { intros Hnil. rewrite Hnil in Hin. by apply elem_of_nil in Hin. }
    apply available_pairs_spec. split_and!; [apply Hlow; lia | done |].
    apply Hentry; [lia|]. right. left. lia.
Qed.

(** Choosing any candidate pair keeps the invariant. *)
Lemma prims_choose_inv (n k : nat) (st : PrimsState) (r c : nat) :
  prims_inv n k st →
  (r, c) ∈ available_pairs (ps_matrix st) (n ^ 2) (visited_vertices st) →
  prims_inv n (k + 1)
    {| ps_matrix := <[r := zero_row (n ^ 2)]> (ps_matrix st);
       visited_vertices := visited_vertices st ++ [r];
       edge_list := edge_list st ++ [(r, c)] |}.
Proof.
  intros Hinv Hrc. apply available_pairs_spec in Hrc as (Hc & Hr & He).
  assert (Hnr : r ∉ visited_vertices st).
  { intros Hin. eapply zero_row_entry; [|exact He]. by apply (inv_visited_row _ _ _ Hinv). }
  assert (Hcr : c < n ^ 2).
  { pose proof (inv_range _ _ _ Hinv) as Hrange. rewrite Forall_forall in Hrange.
    by apply Hrange. }
  split; simpl.
  - apply square_insert; [apply Hinv | apply length_replicate].
  - rewrite length_app, (inv_length _ _ _ Hinv). simpl. lia.
  - apply Forall_app. split; [apply Hinv | by apply Forall_singleton].
  - intros u Hu. destruct (decide (u = r)) as [->|Hne].
    + apply list_lookup_insert_eq. destruct (inv_square _ _ _ Hinv) as [-> _]. done.
    + rewrite list_lookup_insert_ne by done. apply (inv_visited_row _ _ _ Hinv).
      apply elem_of_app in Hu as [Hu|Hu]; [done|].
      by apply list_elem_of_singleton in Hu.
  - intros u Hu Hnu. rewrite elem_of_app, list_elem_of_singleton in Hnu.
    rewrite list_lookup_insert_ne by (intros ->; tauto).
    apply (inv_other_row _ _ _ Hinv); [done | tauto].
  - apply grown_step; [apply Hinv | done | done].
  - apply Forall_app. split; [apply Hinv|]. apply Forall_singleton. simpl.
    unfold entry in He. rewrite (inv_other_row _ _ _ Hinv r Hr Hnr) in He. simpl in He.
    rewrite grid_row_lookup in He by done.
    destruct (decide (grid_adjacent n r c)); [done | congruence].
Qed.

(** One iteration returns, whatever [random.choice] draws. *)
Lemma prims_step_inv (choice : nat → nat) (n k : nat) (st : PrimsState) (count : nat) :
  1 ≤ n → prims_inv n k st → k + 1 < n ^ 2 →
  ∃ st', prims_step choice (n ^ 2) st count = Some st' ∧ prims_inv n (k + 1) st'.
Proof.
  intros Hn Hinv Hk. unfold prims_step.
  rewrite available_vertices_eq by apply Hinv. cbn [mbind option_bind].
  destruct (random_choice_elem (choice count) _ (available_nonempty n k st Hn Hinv Hk))
    as ([r c] & -> & Hrc).
  cbn [mbind option_bind fst].
  pose proof Hrc as Hrc'. apply available_pairs_spec in Hrc' as (_ & Hr & _).
  rewrite setitem_nat by (destruct (inv_square _ _ _ Hinv) as [-> _]; done).
  eexists. split; [done|]. by apply prims_choose_inv.
Qed.

(** Every prefix of the loop returns and keeps the invariant. *)
Lemma prims_iter_inv (choice : nat → nat) (n k : nat) :
  1 ≤ n → k + 1 ≤ n ^ 2 →
  ∃ st, prims_iter choice
          {| vertex_across := n; vertex_total := n ^ 2; matrix := grid_rows n |} k
        = Some st ∧ prims_inv n k st.
Proof.
  intros Hn. unfold prims_iter.
  destruct (prims_start_inv n Hn) as (st0 & -> & Hinv0). cbn [mbind option_bind vertex_total].
  induction k as [|k IH]; intros Hk.
  - exists st0. done.
  - destruct IH as (st & Hst & Hinv); [lia|].
    rewrite range_S, for_each_app, Hst. cbn [mbind option_bind Py.for_each].
    destruct (prims_step_inv choice n k st k Hn Hinv) as (st' & -> & Hinv'); [lia|].
    exists st'. replace (S k) with (k + 1) by lia. done.
Qed.

(** ** The edge list as an undirected graph *)

Lemma linked_sym es u v : linked es u v → linked es v u.
Proof. unfold linked. tauto. Qed.

Lemma linked_app_l es e u v : linked es u v → linked (es ++ [e]) u v.
Proof. unfold linked. rewrite !elem_of_app. tauto. Qed.

Lemma connected_sym es u v : connected es u v → connected es v u.
Proof.
  induction 1 as [|x y z Hxy _ IH]; [apply rtc_refl|].
  eapply rtc_r; [exact IH | by apply linked_sym].
Qed.

Lemma grown_endpoints vs es u v : grown vs es → (u, v) ∈ es → u ∈ vs ∧ v ∈ vs.
Proof.
  induction 1 as [|vs es a b _ IH Ha Hb]; intros Huv.
  - by apply elem_of_nil in Huv.
  - rewrite !elem_of_app, !list_elem_of_singleton.
    apply elem_of_app in Huv as [Huv|Huv].
    + destruct (IH Huv). tauto.
    + apply list_elem_of_singleton in Huv. injection Huv as -> ->. tauto.
Qed.

(** The visited list is the root followed by the first components of the edges. *)
Lemma grown_shape vs es : grown vs es → vs = 0 :: es.*1.
Proof.
  induction 1 as [|vs es u w _ IH _ _]; [done|].
  rewrite fmap_app, IH at 1. done.
Qed.

Lemma grown_connected vs es : grown vs es → ∀ v, v ∈ vs → connected es 0 v.
Proof.
  induction 1 as [|vs es u w Hg IH Hu Hw]; intros v Hv.
  - apply list_elem_of_singleton in Hv as ->. apply rtc_refl.
  - assert (Hmono : ∀ x, connected es 0 x → connected (es ++ [(u, w)]) 0 x).
    { intros x. apply rtc_subrel. intros a b. apply linked_app_l. }
    apply elem_of_app in Hv as [Hv|Hv]; [by apply Hmono, IH|].
    apply list_elem_of_singleton in Hv as ->.
    eapply rtc_r; [apply Hmono, IH, Hw|].
    right. apply elem_of_app. right. apply list_elem_of_here.
Qed.

Lemma grown_no_loop vs es u : grown vs es → (u, u) ∉ es.
Proof.
  induction 1 as [|vs es a b _ IH Ha Hb]; [apply not_elem_of_nil|].
  rewrite elem_of_app, list_elem_of_singleton. intros [Hu|Hu]; [done|].
  injection Hu as -> ->. done.
Qed.

Lemma grown_no_double vs es :
  grown vs es → NoDup es ∧ ∀ u v, (u, v) ∈ es → (v, u) ∉ es.
Proof.
  induction 1 as [|vs es a b Hg [IHnd IHrev] Ha Hb].
  - split; [apply NoDup_nil_2 | intros u v Huv; by apply elem_of_nil in Huv].
  - assert (Hfresh : ∀ x, ((a, x) ∉ es) ∧ ((x, a) ∉ es)).
    { intros x. split; intros Hin; destruct (grown_endpoints _ _ _ _ Hg Hin); done. }
    split.
    + apply NoDup_app. split_and!; [done | | apply NoDup_singleton].
      intros e He He'. apply list_elem_of_singleton in He' as ->.
      by destruct (Hfresh b).
    + intros u v. rewrite !elem_of_app, !list_elem_of_singleton.
      intros [Huv|Huv] [Hvu|Hvu]; simplify_eq.
      * by eapply IHrev.
      * by destruct (Hfresh b).
      * by destruct (Hfresh b).
      * done.
Qed.

(** The two neighbours of a position on a cycle. *)
Lemma cycle_next (k i : nat) : i < k → S i mod k = if decide (S i = k) then 0 else S i.
Proof.
  intros Hi. destruct (decide (S i = k)) as [<-|Hne].
  - apply Nat.Div0.mod_same.
  - apply Nat.mod_small. lia.
Qed.

(** A vertex is fresh for an edge list when no edge mentions it. *)
Lemma fresh_link es a b x y :
  (∀ z, ((a, z) ∉ es) ∧ ((z, a) ∉ es)) →
  linked (es ++ [(a, b)]) x y → x ≠ a → y ≠ a → linked es x y.
Proof.
  intros Hfresh Hl Hx Hy. unfold linked in *.
  rewrite !elem_of_app, !list_elem_of_singleton in Hl.
  destruct Hl as [[?|?]|[?|?]]; simplify_eq; tauto.
Qed.

Lemma fresh_link_end es a b x :
  (∀ z, ((a, z) ∉ es) ∧ ((z, a) ∉ es)) → a ≠ b →
  linked (es ++ [(a, b)]) a x ∨ linked (es ++ [(a, b)]) x a → x = b.
Proof.
  intros Hfresh Hab Hl. unfold linked in *.
  rewrite !elem_of_app, !list_elem_of_singleton in Hl.
  destruct Hl as [[[?|?]|[?|?]]|[[?|?]|[?|?]]]; simplify_eq;
    try done; by destruct (Hfresh x).
Qed.

Lemma grown_no_cycle vs es p : grown vs es → ¬ simple_cycle es p.
Proof.
  intros Hg. revert p. induction Hg as [|vs es a b Hg IH Ha Hb]; intros p (Hlen & Hnd & Hlink).
  - destruct p as [|x [|y p]]; simpl in Hlen; [lia..|].
    specialize (Hlink 0 x y eq_refl).
    rewrite cycle_next in Hlink by (simpl; lia).
    rewrite decide_False in Hlink by (simpl; lia).
    destruct (Hlink eq_refl) as [H|H]; by apply elem_of_nil in H.
  - assert (Hfresh : ∀ z, ((a, z) ∉ es) ∧ ((z, a) ∉ es)).
    { intros z. split; intros Hin; destruct (grown_endpoints _ _ _ _ Hg Hin); done. }
    assert (Hab : a ≠ b) by (intros ->; done).
    destruct (decide (a ∈ p)) as [Hin|Hout].
    + apply list_elem_of_lookup in Hin as [i Hi].
      pose proof (lookup_lt_Some _ _ _ Hi) as Hik.
      set (k := length p) in *.
      (* the successor of [a] on the cycle *)
      destruct (lookup_lt_is_Some_2 p (S i mod k)) as [y Hy].
      { apply Nat.mod_upper_bound. lia. }
      assert (y = b) as ->.
      { apply (fresh_link_end es a b y Hfresh Hab). left. by eapply Hlink. }
      (* its predecessor *)
      set (j := if decide (i = 0) then k - 1 else i - 1).
      assert (Hjk : j < k) by (unfold j; destruct (decide (i = 0)); lia).
      assert (Hji : S j mod k = i).
      { rewrite cycle_next by done. unfold j.
        destruct (decide (i = 0)), (decide _); lia. }
      destruct (lookup_lt_is_Some_2 p j Hjk) as [x Hx].
      assert (x = b) as ->.
      { apply (fresh_link_end es a b x Hfresh Hab). right.
        eapply Hlink; [exact Hx | by rewrite Hji]. }
      pose proof (NoDup_lookup _ _ _ _ Hnd Hx Hy) as Heq.
      rewrite cycle_next in Heq by done. unfold j in Heq.
      destruct (decide (i = 0)), (decide (S i = k)); lia.
    + apply (IH p). split_and!; [done..|].
      intros i u v Hu Hv. apply (fresh_link es a b); [done | by eapply Hlink | |].
      * intros ->. apply Hout. by eapply list_elem_of_lookup_2.
      * intros ->. apply Hout. by eapply list_elem_of_lookup_2.
Qed.

(** Once every vertex is visited, the edge list is a spanning tree. *)
Lemma grown_spanning_tree (total : nat) vs es :
  2 ≤ total → grown vs es → (∀ v, v ∈ vs ↔ v < total) → spanning_tree total es.
Proof.
  intros Htot Hg Hvs. split.
  - intros u v Huv. destruct (grown_endpoints _ _ _ _ Hg Huv). split; by apply Hvs.
  - intros v Hv.
    assert (Hc : ∀ x y, x ≠ y → connected es x y → touched es x).
    { intros x y Hxy Hr. destruct Hr as [|x y z Hl _]; [done | by exists y]. }
    destruct (decide (v = 0)) as [->|Hv0].
    + apply (Hc 0 1); [done|]. eapply grown_connected; [done|]. apply Hvs. lia.
    + apply (Hc v 0); [done|]. apply connected_sym. eapply grown_connected; [done|].
      by apply Hvs.
  - intros u v Hu Hv. unfold connected. trans 0.
    + apply connected_sym. eapply grown_connected; [done | by apply Hvs].
    + eapply grown_connected; [done | by apply Hvs].
  - intros u. by eapply grown_no_loop.
  - by eapply grown_no_double.
  - intros p. by eapply grown_no_cycle.
Qed.

(** ** Maze generation: the spanning tree, the candidates and the cleared matrix *)

Lemma generate_iter_inv (choice : nat → nat) (n k : nat) :
  1 ≤ n → k + 1 ≤ n ^ 2 →
  ∃ st, generate_iter choice n k = Some st ∧ prims_inv n k st.
Proof.
  intros Hn Hk. unfold generate_iter. rewrite grid_matrix_eq by done.
  cbn [mbind option_bind]. by apply prims_iter_inv.
Qed.

Lemma generate_last (choice : nat → nat) (n : nat) :
  generate choice n = generate_iter choice n (n ^ 2 - 1).
Proof.
  unfold generate, generate_iter, random_prims, grid_matrix, AdjacencyMatrix_init,
    squares_total.
  destruct (Py.for_each _ _ _); done.
Qed.

Lemma generate_inv (choice : nat → nat) (n : nat) :
  1 ≤ n → ∃ st, generate choice n = Some st ∧ prims_inv n (n ^ 2 - 1) st.
Proof.
  intros Hn. rewrite generate_last. apply generate_iter_inv; [done|].
  assert (0 < n ^ 2) by (simpl; nia). lia.
Qed.

(** On return every vertex has been visited. *)
Lemma prims_inv_all_visited (n : nat) (st : PrimsState) :
  1 ≤ n → prims_inv n (n ^ 2 - 1) st → ∀ v, v ∈ visited_vertices st ↔ v < n ^ 2.
Proof.
  intros Hn Hinv v. assert (0 < n ^ 2) by (simpl; nia). split.
  - intros Hv. pose proof (inv_range _ _ _ Hinv) as Hr. rewrite Forall_forall in Hr.
    by apply Hr.
  - apply visited_complete.
    + eapply grown_NoDup, inv_grown, Hinv.
    + apply Hinv.
    + rewrite (inv_length _ _ _ Hinv). lia.
Qed.

(** C1. For every grid side [n >= 2] and every sequence of random draws,
    [random_prims] on the freshly built grid matrix returns; its edge list has
    [n^2 - 1] edges and is a spanning tree of the [n^2] vertices: it touches every
    vertex, connects every two of them and closes no cycle. *)
Theorem random_prims_spanning_tree (choice : nat → nat) (n : nat) :
  2 ≤ n →
  ∃ st, generate choice n = Some st
    ∧ length (edge_list st) = n ^ 2 - 1
    ∧ spanning_tree (n ^ 2) (edge_list st).
Proof.
  intros Hn. destruct (generate_inv choice n) as (st & Hst & Hinv); [lia|].
  exists st. split; [done|].
  pose proof (inv_grown _ _ _ Hinv) as Hg. split.
  - pose proof (grown_length _ _ Hg) as Hlen.
    rewrite (inv_length _ _ _ Hinv) in Hlen. lia.
  - eapply grown_spanning_tree; [simpl; nia | done |].
    apply prims_inv_all_visited; [lia | done].
Qed.

Lemma random_prims_spanning_tree_witness :
  ∃ st, generate (λ _, 0) 2 = Some st
    ∧ length (edge_list st) = 2 ^ 2 - 1
    ∧ spanning_tree (2 ^ 2) (edge_list st).
Proof. apply (random_prims_spanning_tree (λ _, 0) 2). lia. Defined.

(** C5. For every grid side [n >= 2], at each of the [n^2 - 1] iterations of the
    loop the state exists, the enumeration of the candidate pairs returns a
    non-empty list (the pairs with a visited column and a 1 in the matrix), so
    [random.choice] returns, and generation as a whole returns. *)
Theorem random_prims_candidates (choice : nat → nat) (n k : nat) :
  2 ≤ n → k < n ^ 2 - 1 →
  ∃ st available,
    generate_iter choice n k = Some st
    ∧ available_vertices (ps_matrix st) (n ^ 2) (visited_vertices st) = Some available
    ∧ available ≠ []
    ∧ (∀ row column, (row, column) ∈ available
         ↔ column ∈ visited_vertices st ∧ row < n ^ 2
           ∧ entry (ps_matrix st) row column = Some 1%Z)
    ∧ is_Some (Py.random_choice (choice k) available)
    ∧ is_Some (generate choice n).
Proof.
  intros Hn Hk. destruct (generate_iter_inv choice n k) as (st & Hst & Hinv); [lia..|].
  exists st, (available_pairs (ps_matrix st) (n ^ 2) (visited_vertices st)).
  assert (Hne : available_pairs (ps_matrix st) (n ^ 2) (visited_vertices st) ≠ [])
    by (eapply available_nonempty; [| done |]; lia).
  split_and!; [done | | done | | |].
  - apply available_vertices_eq; apply Hinv.
  - intros row column. apply available_pairs_spec.
  - destruct (random_choice_elem (choice k) _ Hne) as (e & -> & _). by eexists.
  - destruct (generate_inv choice n) as (st' & -> & _); [lia | by eexists].
Qed.

Lemma random_prims_candidates_witness :
  ∃ st available,
    generate_iter (λ _, 0) 2 1 = Some st
    ∧ available_vertices (ps_matrix st) (2 ^ 2) (visited_vertices st) = Some available
    ∧ available ≠ []
    ∧ (∀ row column, (row, column) ∈ available
         ↔ column ∈ visited_vertices st ∧ row < 2 ^ 2
           ∧ entry (ps_matrix st) row column = Some 1%Z)
    ∧ is_Some (Py.random_choice 0 available)
    ∧ is_Some (generate (λ _, 0) 2).
Proof. apply (random_prims_candidates (λ _, 0) 2 1); simpl; lia. Defined.

Lemma zero_rows_eq (m : Matrix) (total : nat) :
  length m = total → (∀ u, u < total → m !! u = Some (zero_row total)) →
  m = replicate total (zero_row total).
Proof.
  intros Hlen Hrows. apply list_eq. intros u.
  destruct (decide (u < total)) as [Hu|Hu].
  - rewrite Hrows by done. symmetry. by apply lookup_replicate.
  - rewrite !lookup_ge_None_2; [done | rewrite length_replicate; lia | lia].
Qed.

(** C9. [random_prims] keeps the row of every visited vertex entirely zero through
    the loop; on return every vertex is visited and the matrix holds only zeros. *)
Theorem random_prims_clears_matrix (choice : nat → nat) (n : nat) :
  1 ≤ n →
  (∀ k, k ≤ n ^ 2 - 1 →
     ∃ st, generate_iter choice n k = Some st
       ∧ ∀ u, u ∈ visited_vertices st → ps_matrix st !! u = Some (replicate (n ^ 2) 0%Z))
  ∧ ∃ st, generate choice n = Some st
      ∧ (∀ v, v < n ^ 2 → v ∈ visited_vertices st)
      ∧ ps_matrix st = replicate (n ^ 2) (replicate (n ^ 2) 0%Z)
      ∧ (∀ u v, u < n ^ 2 → v < n ^ 2 → entry (ps_matrix st) u v = Some 0%Z).
Proof.
  intros Hn. assert (0 < n ^ 2) by (simpl; nia). split.
  - intros k Hk. destruct (generate_iter_inv choice n k) as (st & Hst & Hinv); [lia..|].
    exists st. split; [done|]. apply Hinv.
  - destruct (generate_inv choice n Hn) as (st & Hst & Hinv).
    exists st. split; [done|].
    pose proof (prims_inv_all_visited n st Hn Hinv) as Hall.
    assert (Hzero : ps_matrix st = replicate (n ^ 2) (zero_row (n ^ 2))).
    { apply zero_rows_eq; [apply Hinv|].
      intros u Hu. apply (inv_visited_row _ _ _ Hinv). by apply Hall. }
    split_and!; [intros; by apply Hall | done |].
    intros u v Hu Hv. unfold entry. rewrite Hzero.
    assert (replicate (n ^ 2) (zero_row (n ^ 2)) !! u = Some (zero_row (n ^ 2))) as ->
      by (by apply lookup_replicate).
    simpl. by apply lookup_replicate.
Qed.

Lemma random_prims_clears_matrix_witness :
  (∀ k, k ≤ 2 ^ 2 - 1 →
     ∃ st, generate_iter (λ _, 0) 2 k = Some st
       ∧ ∀ u, u ∈ visited_vertices st → ps_matrix st !! u = Some (replicate (2 ^ 2) 0%Z))
  ∧ ∃ st, generate (λ _, 0) 2 = Some st
      ∧ (∀ v, v < 2 ^ 2 → v ∈ visited_vertices st)
      ∧ ps_matrix st = replicate (2 ^ 2) (replicate (2 ^ 2) 0%Z)
      ∧ (∀ u v, u < 2 ^ 2 → v < 2 ^ 2 → entry (ps_matrix st) u v = Some 0%Z).
Proof. apply (random_prims_clears_matrix (λ _, 0) 2). lia. Defined.

(** ** The endpoints of the recorded edges *)

Lemma occurrences_NoDup (v : nat) (l : list nat) :
  NoDup l → occurrences v l = if decide (v ∈ l) then 1 else 0.
Proof.
  unfold occurrences. induction 1 as [|x l Hx _ IH].
  - rewrite decide_False by apply not_elem_of_nil. done.
  - rewrite filter_cons. destruct (decide (x = v)) as [->|Hne].
    + rewrite decide_True by apply list_elem_of_here. simpl. rewrite IH.
      by rewrite decide_False.
    + rewrite IH. destruct (decide (v ∈ l)) as [Hin|Hout].
      * rewrite decide_True; [done | by apply list_elem_of_further].
      * rewrite decide_False; [done|]. rewrite elem_of_cons. intros [?|?]; congruence.
Qed.

(** The second component of every edge is a vertex visited before the first one. *)
Lemma grown_earlier vs es :
  grown vs es → ∀ i e, es !! i = Some e → e.2 ∈ take (S i) vs.
Proof.
  induction 1 as [|vs es u w Hg IH Hu Hw]; intros i e Hi; [done|].
  pose proof (grown_length _ _ Hg) as Hlen.
  destruct (decide (i < length es)) as [Hlt|Hge].
  - rewrite lookup_app_l in Hi by done.
    rewrite take_app_le by lia. by apply IH.
  - rewrite lookup_app_r in Hi by lia.
    apply list_lookup_singleton_Some in Hi as [Hi <-]. simpl.
    rewrite take_app_le by lia. rewrite take_ge by lia. done.
Qed.

(** The reading of C6 with the [to] endpoints fails: with every draw equal to 0
    the 2 by 2 grid yields the edges (1, 0), (2, 0), (3, 1). Read as (from, to), vertex 0
    is a [to] endpoint twice and vertex 3 never; and no vertex list of length
    [n^2 - 1] can hold each of [n^2] vertices once, whichever component is read:
    vertex 0 is never a first component. *)
Lemma to_endpoint_counterexample :
  ∃ st, generate (λ _, 0) 2 = Some st
    ∧ edge_list st = [(1, 0); (2, 0); (3, 1)]
    ∧ occurrences 0 (edge_list st).*2 = 2
    ∧ occurrences 3 (edge_list st).*2 = 0
    ∧ ¬ (∀ v, v < 2 ^ 2 → occurrences v (edge_list st).*2 = 1)
    ∧ ¬ (∀ v, v < 2 ^ 2 → occurrences v (edge_list st).*1 = 1).
Proof.
  eexists. split; [vm_compute; reflexivity|]. simpl.
  split_and!; [done | done | done | |].
  - intros H. specialize (H 0 ltac:(lia)). vm_compute in H. lia.
  - intros H. specialize (H 0 ltac:(lia)). vm_compute in H. lia.
Qed.

(** C6, amended. In every edge list [random_prims] returns for [n >= 2], each of the
    [n^2 - 1] vertices other than 0 is the first component (the newly connected
    vertex) of exactly one of the [n^2 - 1] edges and vertex 0 of none: the first
    components are the visited vertices after 0, in order; the second component of
    an edge is a vertex visited before its first. *)
Theorem random_prims_from_once (choice : nat → nat) (n : nat) :
  2 ≤ n →
  ∃ st, generate choice n = Some st
    ∧ length (edge_list st) = n ^ 2 - 1
    ∧ (∀ v, 1 ≤ v < n ^ 2 → occurrences v (edge_list st).*1 = 1)
    ∧ occurrences 0 (edge_list st).*1 = 0
    ∧ visited_vertices st = 0 :: (edge_list st).*1
    ∧ (∀ i e, edge_list st !! i = Some e → e.2 ∈ take (S i) (visited_vertices st)).
Proof.
  intros Hn. destruct (generate_inv choice n) as (st & Hst & Hinv); [lia|].
  exists st. split; [done|].
  pose proof (inv_grown _ _ _ Hinv) as Hg.
  pose proof (grown_shape _ _ Hg) as Hshape.
  pose proof (grown_NoDup _ _ Hg) as Hnd. rewrite Hshape in Hnd.
  apply NoDup_cons in Hnd as [H0 Hnd].
  pose proof (prims_inv_all_visited n st ltac:(lia) Hinv) as Hall.
  split_and!.
  - pose proof (grown_length _ _ Hg) as Hlen.
    rewrite (inv_length _ _ _ Hinv) in Hlen. assert (0 < n ^ 2) by (simpl; nia). lia.
  - intros v Hv. rewrite occurrences_NoDup by done.
    rewrite decide_True; [done|].
    assert (v ∈ visited_vertices st) as Hin by (apply Hall; lia).
    rewrite Hshape in Hin. apply elem_of_cons in Hin as [->|Hin]; [lia | done].
  - rewrite occurrences_NoDup by done. by rewrite decide_False.
  - done.
  - by apply grown_earlier.
Qed.

Lemma random_prims_from_once_witness :
  ∃ st, generate (λ _, 0) 2 = Some st
    ∧ length (edge_list st) = 2 ^ 2 - 1
    ∧ (∀ v, 1 ≤ v < 2 ^ 2 → occurrences v (edge_list st).*1 = 1)
    ∧ occurrences 0 (edge_list st).*1 = 0
    ∧ visited_vertices st = 0 :: (edge_list st).*1
    ∧ (∀ i e, edge_list st !! i = Some e → e.2 ∈ take (S i) (visited_vertices st)).
Proof. apply (random_prims_from_once (λ _, 0) 2). lia. Defined.

(** ** The tile layout *)

Section Layout.

Open Scope float_scope.

Context {Rect : Type} (Rect_new : float → float → float → float → Rect).

(** The first loop lays the base tiles in the order of the vertices. *)
Lemma base_loop (g : Game Rect) (N : nat) :
  1 ≤ squares_across g →
  ∃ row column,
    Py.for_each (base_step Rect_new g) (0, 0, [])%nat (Py.range N)
    = Some (row, column, base_tile Rect_new g <$> seq 0 N)
    ∧ (row * squares_across g + column = N)%nat ∧ (column ≤ squares_across g)%nat.
Proof.
  intros Hn. induction N as [|N (row & column & Hloop & Hsum & Hcol)].
  - exists 0%nat, 0%nat. split_and!; [done | done | lia].
  - rewrite range_S, for_each_app, Hloop. cbn [mbind option_bind Py.for_each base_step].
    set (rc := if decide (column = squares_across g) then _ else _).
    assert (rc = (N / squares_across g, N mod squares_across g)%nat) as ->.
    { unfold rc. destruct (decide (column = squares_across g)) as [->|Hne].
      - f_equal.
        + apply (Nat.div_unique _ _ _ 0); lia.
        + apply (Nat.mod_unique _ _ (row + 1)); lia.
      - f_equal.
        + apply (Nat.div_unique _ _ _ column); lia.
        + apply (Nat.mod_unique _ _ row); lia. }
    eexists _, _. split_and!.
    + rewrite seq_S, fmap_app. done.
    + pose proof (Nat.div_mod_eq N (squares_across g)). lia.
    + pose proof (Nat.mod_upper_bound N (squares_across g)). lia.
Qed.

(** The assignment to [path_squares[-1]] reaches the last tile. *)
Lemma mark_end_last (l : list (Square Rect)) (s : Square Rect) :
  mark_end (l ++ [s]) = Some (l ++ [set_colour s Green]).
Proof.
  unfold mark_end, Py.getitem, Py.setitem, Py.index.
  rewrite length_app. cbn [length].
  rewrite decide_False by lia. rewrite decide_True by lia.
  replace (Z.to_nat (Z.of_nat (length l + 1) + -1)) with (length l) by lia.
  cbn [mbind option_bind]. rewrite list_lookup_middle by done. cbn [mbind option_bind].
  f_equal. rewrite insert_app_r_alt by lia. by rewrite Nat.sub_diag.
Qed.

Lemma join_step_eq (g : Game Rect) (squares : list (Square Rect)) (e : nat * nat)
    (a b : Square Rect) :
  squares !! e.1 = Some a → squares !! e.2 = Some b →
  join_step Rect_new g squares e = Some (squares ++ [connector_tile Rect_new g a b]).
Proof. intros Ha Hb. unfold join_step. rewrite Ha, Hb. done. Qed.

(** The second loop appends one connector per edge and changes no earlier tile. *)
Lemma join_loop (g : Game Rect) (edges : list (nat * nat)) (squares : list (Square Rect)) :
  Forall (λ e, e.1 < length squares ∧ e.2 < length squares)%nat edges →
  ∃ connectors,
    Py.for_each (join_step Rect_new g) squares edges = Some (squares ++ connectors)
    ∧ length connectors = length edges
    ∧ ∀ j e, edges !! j = Some e →
        ∃ a b, squares !! e.1 = Some a ∧ squares !! e.2 = Some b
          ∧ connectors !! j = Some (connector_tile Rect_new g a b).
Proof.
  revert squares. induction edges as [|e edges IH]; intros squares Hrange.
  - exists []. rewrite app_nil_r. split_and!; [done | done | intros j e Hj; done].
  - apply Forall_cons in Hrange as [[He1 He2] Hrange].
    destruct (lookup_lt_is_Some_2 squares e.1 He1) as [a Ha].
    destruct (lookup_lt_is_Some_2 squares e.2 He2) as [b Hb].
    cbn [Py.for_each]. rewrite (join_step_eq g squares e a b Ha Hb).
    cbn [mbind option_bind].
    destruct (IH (squares ++ [connector_tile Rect_new g a b])) as (cs & Hloop & Hlen & Hcs).
    { eapply Forall_impl; [exact Hrange|]. intros e' [? ?].
      rewrite length_app. simpl. lia. }
    exists (connector_tile Rect_new g a b :: cs). split_and!.
    + rewrite Hloop, <- app_assoc. done.
    + simpl. by rewrite Hlen.
    + intros [|j] e' Hj.
      * injection Hj as <-. by exists a, b.
      * destruct (Hcs j e' Hj) as (a' & b' & Ha' & Hb' & Hc).
        rewrite Forall_forall in Hrange.
        destruct (Hrange e') as [H1 H2]; [by eapply list_elem_of_lookup_2|].
        rewrite lookup_app_l in Ha', Hb' by done. by exists a', b'.
Qed.

Lemma marked_tiles_length (g : Game Rect) (N : nat) :
  (1 ≤ N → length (marked_tiles Rect_new g N) = N)%nat.
Proof.
  intros HN. unfold marked_tiles. rewrite length_app, length_fmap, length_seq. simpl. lia.
Qed.

Lemma marked_tiles_lookup (g : Game Rect) (N i : nat) :
  (i < N)%nat →
  marked_tiles Rect_new g N !! i
  = Some (if decide (i = N - 1)%nat then set_colour (base_tile Rect_new g i) Green
          else base_tile Rect_new g i).
Proof.
  intros Hi. unfold marked_tiles. destruct (decide (i = N - 1)%nat) as [->|Hne].
  - apply list_lookup_middle. by rewrite length_fmap, length_seq.
  - rewrite lookup_app_l by (rewrite length_fmap, length_seq; lia).
    rewrite list_lookup_fmap.
    assert (seq 0 (N - 1) !! i = Some i) as -> by (apply lookup_seq; lia). done.
Qed.

Lemma create_grid_eq (g : Game Rect) (edges : list (nat * nat)) :
  (1 ≤ squares_across g)%nat → (1 ≤ game_squares_total g)%nat →
  Forall (λ e, e.1 < game_squares_total g ∧ e.2 < game_squares_total g)%nat edges →
  ∃ connectors,
    create_grid Rect_new g edges
    = Some (with_path_squares g (marked_tiles Rect_new g (game_squares_total g) ++ connectors))
    ∧ length connectors = length edges
    ∧ ∀ j e, edges !! j = Some e →
        ∃ a b, marked_tiles Rect_new g (game_squares_total g) !! e.1 = Some a
          ∧ marked_tiles Rect_new g (game_squares_total g) !! e.2 = Some b
          ∧ connectors !! j = Some (connector_tile Rect_new g a b).
Proof.
  intros Hn HN Hrange. unfold create_grid.
  destruct (base_loop g (game_squares_total g) Hn) as (row & column & -> & _).
  cbn [mbind option_bind].
  assert (base_tile Rect_new g <$> seq 0 (game_squares_total g)
          = (base_tile Rect_new g <$> seq 0 (game_squares_total g - 1))
            ++ [base_tile Rect_new g (game_squares_total g - 1)]) as ->.
  { replace (game_squares_total g) with (S (game_squares_total g - 1)) at 1 by lia.
    by rewrite seq_S, fmap_app. }
  rewrite mark_end_last. cbn [mbind option_bind].
  destruct (join_loop g edges (marked_tiles Rect_new g (game_squares_total g)))
    as (cs & Hloop & Hlen & Hcs).
  { by rewrite marked_tiles_length. }
  unfold marked_tiles in Hloop at 1. rewrite Hloop. cbn [mbind option_bind].
  exists cs. done.
Qed.

End Layout.

Section LayoutResults.

Open Scope float_scope.

Context {Rect : Type} (Rect_new : float → float → float → float → Rect).

(** C4. For every grid side [n >= 2] and every edge list of length [n^2 - 1] over
    the vertices, [create_grid] returns [2 n^2 - 1] tiles: the [n^2] base tiles in
    the order of the vertices, then one connector per edge in the order of the
    edges; the tile at index [n^2 - 1] is green and every other tile is black. *)
Theorem create_grid_tiles (g : Game Rect) (n : nat) (edges : list (nat * nat)) :
  (2 ≤ n)%nat → squares_across g = n → game_squares_total g = (n ^ 2)%nat →
  length edges = (n ^ 2 - 1)%nat →
  Forall (λ e, e.1 < n ^ 2 ∧ e.2 < n ^ 2)%nat edges →
  ∃ g', create_grid Rect_new g edges = Some g'
    ∧ length (path_squares g') = (2 * n ^ 2 - 1)%nat
    ∧ (∀ i, (i < n ^ 2)%nat →
         ∃ s, path_squares g' !! i = Some s ∧ set_colour s Black = base_tile Rect_new g i)
    ∧ (∀ j e, edges !! j = Some e →
         ∃ a b, path_squares g' !! e.1 = Some a ∧ path_squares g' !! e.2 = Some b
           ∧ path_squares g' !! (n ^ 2 + j)%nat = Some (connector_tile Rect_new g a b))
    ∧ (∀ i s, path_squares g' !! i = Some s →
         sq_colour s = Green ↔ i = (n ^ 2 - 1)%nat)
    ∧ (∀ i s, path_squares g' !! i = Some s →
         i ≠ (n ^ 2 - 1)%nat → sq_colour s = Black).
Proof.
  intros Hn Hacross Htotal Hlen Hrange.
  assert (HN : (1 ≤ n ^ 2)%nat) by (simpl; nia).
  destruct (create_grid_eq Rect_new g edges) as (cs & Hgrid & Hcs & Hconn).
  { lia. } { lia. } { by rewrite Htotal. }
  rewrite Htotal in Hgrid, Hconn.
  pose proof (marked_tiles_length Rect_new g (n ^ 2) HN) as Hmlen.
  assert (Hcolour : ∀ i s,
            (marked_tiles Rect_new g (n ^ 2) ++ cs) !! i = Some s →
            sq_colour s = if decide (i = n ^ 2 - 1)%nat then Green else Black).
  { intros i s Hs. destruct (decide (i < n ^ 2)%nat) as [Hi|Hi].
    - rewrite lookup_app_l, marked_tiles_lookup in Hs by lia.
      apply (inj Some) in Hs as <-. by destruct (decide (i = n ^ 2 - 1)%nat).
    - rewrite lookup_app_r in Hs by lia. rewrite decide_False by lia.
      assert (∃ j, cs !! j = Some s) as [j Hj] by eauto.
      assert ((j < length edges)%nat) as Hje
        by (rewrite <- Hcs; by eapply lookup_lt_Some).
      destruct (lookup_lt_is_Some_2 edges j Hje) as [e He].
      destruct (Hconn j e He) as (a & b & _ & _ & Hc). by simplify_eq. }
  eexists. split; [exact Hgrid|]. cbn [path_squares with_path_squares]. split_and!.
  - rewrite length_app, Hmlen, Hcs, Hlen. lia.
  - intros i Hi. eexists. split.
    + rewrite lookup_app_l by lia. by apply marked_tiles_lookup.
    + by destruct (decide (i = n ^ 2 - 1)%nat).
  - intros j e He. destruct (Hconn j e He) as (a & b & Ha & Hb & Hc).
    exists a, b. rewrite Forall_forall in Hrange.
    destruct (Hrange e) as [H1 H2]; [by eapply list_elem_of_lookup_2|].
    rewrite !lookup_app_l by lia. split_and!; [done | done |].
    rewrite lookup_app_r by lia. rewrite Hmlen.
    by replace (n ^ 2 + j - n ^ 2)%nat with j by lia.
  - intros i s Hs. rewrite (Hcolour i s Hs).
    destruct (decide (i = n ^ 2 - 1)%nat); split; done.
  - intros i s Hs Hi. rewrite (Hcolour i s Hs). by rewrite decide_False.
Qed.


End LayoutResults.

Lemma create_grid_tiles_witness :
  ∃ g', create_grid FloatRect_new (Game_sizes FloatRect 2 0) [(1, 0); (2, 0); (3, 1)]
        = Some g'
    ∧ length (path_squares g') = 2 * 2 ^ 2 - 1
    ∧ (∀ i, i < 2 ^ 2 →
         ∃ s, path_squares g' !! i = Some s
           ∧ set_colour s Black = base_tile FloatRect_new (Game_sizes FloatRect 2 0) i)
    ∧ (∀ j e, [(1, 0); (2, 0); (3, 1)] !! j = Some e →
         ∃ a b, path_squares g' !! e.1 = Some a ∧ path_squares g' !! e.2 = Some b
           ∧ path_squares g' !! (2 ^ 2 + j)
             = Some (connector_tile FloatRect_new (Game_sizes FloatRect 2 0) a b))
    ∧ (∀ i s, path_squares g' !! i = Some s → sq_colour s = Green ↔ i = 2 ^ 2 - 1)
    ∧ (∀ i s, path_squares g' !! i = Some s → i ≠ 2 ^ 2 - 1 → sq_colour s = Black).
Proof.
  apply (create_grid_tiles FloatRect_new (Game_sizes FloatRect 2 0) 2
           [(1, 0); (2, 0); (3, 1)]); [lia | reflexivity | reflexivity | reflexivity |].
  repeat constructor; simpl; lia.
Defined.


(** ** Floats: zeros, NaN and infinities through the operations of [move] *)

Lemma SFcompare_refl (x : spec_float) : x ≠ S754_nan → SFcompare x x = Some Eq.
Proof.
  destruct x as [s|s| |s m e]; intros Hx; try done.
  - by destruct s.
  - simpl. rewrite Z.compare_refl, Pos.compare_cont_refl. by destruct s.
Qed.

Lemma is_nan_SF (x : float) : is_nan x = true ↔ Prim2SF x = S754_nan.
Proof.
  unfold is_nan. rewrite FloatAxioms.eqb_spec. unfold SFeqb. split.
  - intros H. destruct (Prim2SF x) as [s|s| |s m e] eqn:Hx; [| |done|];
      rewrite SFcompare_refl in H by done; done.
  - intros ->. done.
Qed.

Lemma is_zero_SF (x : float) : is_zero x = true ↔ ∃ s, Prim2SF x = S754_zero s.
Proof.
  unfold is_zero. rewrite FloatAxioms.eqb_spec. unfold SFeqb.
  change (Prim2SF 0) with (S754_zero false). split.
  - destruct (Prim2SF x) as [s|s| |s m e]; simpl; try done; [by exists s | by destruct s..].
  - intros [s ->]. done.
Qed.

Lemma is_infinity_SF (x : float) :
  is_infinity x = true ↔ ∃ s, Prim2SF x = S754_infinity s.
Proof.
  unfold is_infinity. rewrite FloatAxioms.eqb_spec, abs_spec. unfold SFeqb.
  change (Prim2SF infinity) with (S754_infinity false). split.
  - destruct (Prim2SF x) as [s|s| |s m e]; simpl; try done. by exists s.
  - intros [s ->]. done.
Qed.

Lemma is_finite_SF (x : float) :
  is_finite x = true →
  (∃ s, Prim2SF x = S754_zero s) ∨ (∃ s m e, Prim2SF x = S754_finite s m e).
Proof.
  unfold is_finite. rewrite negb_true_iff, orb_false_iff. intros [Hnan Hinf].
  destruct (Prim2SF x) as [s|s| |s m e] eqn:Hx.
  - left. by exists s.
  - assert (is_infinity x = true) by (apply is_infinity_SF; by exists s). congruence.
  - assert (is_nan x = true) by (by apply is_nan_SF). congruence.
  - right. by exists s, m, e.
Qed.

Lemma same_number_refl (a : float) : same_number a a.
Proof. by left. Qed.

Lemma same_number_trans (a b c : float) :
  same_number a b → same_number b c → same_number a c.
Proof.
  intros [->|[Ha Hb]] [->|[Hb' Hc]]; [by left | by right | by right | by right].
Qed.

Section FloatFacts.

Open Scope float_scope.

(** A sum with NaN is NaN. *)
Lemma add_nan_l (a b : float) : is_nan a = true → is_nan (a + b) = true.
Proof. rewrite !is_nan_SF, add_spec. intros ->. done. Qed.

Lemma add_nan_r (a b : float) : is_nan b = true → is_nan (a + b) = true.
Proof. rewrite !is_nan_SF, add_spec. intros ->. by destruct (Prim2SF a). Qed.

Lemma sub_nan_l (a b : float) : is_nan a = true → is_nan (a - b) = true.
Proof. rewrite !is_nan_SF, sub_spec. intros ->. done. Qed.

Lemma mul_nan_l (a b : float) : is_nan a = true → is_nan (a * b) = true.
Proof. rewrite !is_nan_SF, mul_spec. intros ->. done. Qed.

Lemma mul_nan_r (a b : float) : is_nan b = true → is_nan (a * b) = true.
Proof. rewrite !is_nan_SF, mul_spec. intros ->. by destruct (Prim2SF a). Qed.

Lemma div_nan_l (a b : float) : is_nan a = true → is_nan (a / b) = true.
Proof. rewrite !is_nan_SF, div_spec. intros ->. done. Qed.

Lemma div_nan_r (a b : float) : is_nan b = true → is_nan (a / b) = true.
Proof. rewrite !is_nan_SF, div_spec. intros ->. by destruct (Prim2SF a). Qed.

Lemma sqrt_nan (a : float) : is_nan a = true → is_nan (sqrt a) = true.
Proof. rewrite !is_nan_SF, sqrt_spec. intros ->. done. Qed.

Lemma eqb_nan_l (a b : float) : is_nan a = true → (a =? b) = false.
Proof. rewrite is_nan_SF, FloatAxioms.eqb_spec. intros ->. done. Qed.

(** Adding a zero keeps the number. *)
Lemma add_zero_r (p z : float) : is_zero z = true → same_number (p + z) p.
Proof.
  rewrite is_zero_SF. intros [s Hz].
  destruct (Prim2SF p) as [sp|sp| |sp m e] eqn:Hp.
  - right. split; [|apply is_zero_SF; by exists sp].
    apply is_zero_SF. rewrite add_spec, Hp, Hz. destruct sp, s; by eexists.
  - left. apply Prim2SF_inj. rewrite add_spec, Hp, Hz. done.
  - left. apply Prim2SF_inj. rewrite add_spec, Hp, Hz. done.
  - left. apply Prim2SF_inj. rewrite add_spec, Hp, Hz. done.
Qed.

(** A product with a zero or NaN factor on the left is a zero or a NaN; it is a
    zero when the other factor is finite. *)
Lemma mul_zero_or_nan (z v : float) : zero_or_nan z → zero_or_nan (z * v).
Proof.
  intros [Hz|Hz]; [|right; by apply mul_nan_l].
  apply is_zero_SF in Hz as [s Hz]. unfold zero_or_nan.
  rewrite is_zero_SF, is_nan_SF, mul_spec, Hz.
  destruct (Prim2SF v) as [sv|sv| |sv m e]; simpl; eauto.
Qed.

Lemma mul_zero_finite (z v : float) :
  is_zero z = true → is_finite v = true → is_zero (z * v) = true.
Proof.
  rewrite !is_zero_SF. intros [s Hz] Hv. rewrite mul_spec, Hz.
  destruct (is_finite_SF v Hv) as [[sv ->]|(sv & m & e & ->)]; simpl; eauto.
Qed.

(** The projected coordinate [p + z * velocity * dt] for a zero or NaN [z]: it is
    NaN, or the number [p]. *)
Lemma projected_zero_or_nan (p z v dt : float) :
  zero_or_nan z → is_nan (p + z * v * dt) = true ∨ same_number (p + z * v * dt) p.
Proof.
  intros Hz. destruct (mul_zero_or_nan _ dt (mul_zero_or_nan z v Hz)) as [H|H].
  - right. by apply add_zero_r.
  - left. by apply add_nan_r.
Qed.

Lemma projected_zero_finite (p z v dt : float) :
  is_zero z = true → is_finite v = true → is_finite dt = true →
  same_number (p + z * v * dt) p.
Proof.
  intros Hz Hv Hdt. apply add_zero_r. by do 2 (apply mul_zero_finite; [|done]).
Qed.

End FloatFacts.

(** ** The movement solver: the corner scan *)

Section Solver.

Open Scope float_scope.

Context {Rect : Type} (collidepoint : Rect → float * float → bool).

Lemma all_on_path_clear squares corners :
  all_on_path collidepoint squares corners = true ↔ axis_clear collidepoint squares corners.
Proof.
  unfold all_on_path, axis_clear, on_path. rewrite forallb_forall. split.
  - intros H c Hc. apply list_elem_of_In in Hc. specialize (H c Hc).
    apply existsb_exists in H as (sq & Hsq & Hcp). exists sq.
    split; [by apply list_elem_of_In | done].
  - intros H c Hc. apply list_elem_of_In in Hc. destruct (H c Hc) as (sq & Hsq & Hcp).
    apply existsb_exists. exists sq. split; [by apply list_elem_of_In | done].
Qed.

(** One step of the corner loop. *)
Lemma check_corner_eq (rect : Rect) (corners : list (float * float)) (corner : nat)
    (c : float * float) (on_path : list bool) (complete : bool) :
  corners !! corner = Some c → (corner < length on_path)%nat →
  check_corner collidepoint rect corners corner (on_path, complete)
  = Some (if complete then (on_path, true)
          else let o := if collidepoint rect c then <[corner := true]> on_path
                        else on_path in
               (o, bool_decide (o = [true; true; true; true]))).
Proof.
  intros Hc Hlen. unfold check_corner. destruct complete; [done|].
  cbn [negb]. rewrite Hc. cbn [mbind option_bind].
  destruct (collidepoint rect c).
  - rewrite decide_True by done. reflexivity.
  - reflexivity.
Qed.

(** The same step on flags that agree with their [complete] bit: the bit stays the
    test of the flags. *)
Lemma check_corner_inv (rect : Rect) (corners : list (float * float)) (corner : nat)
    (c : float * float) (o : list bool) :
  corners !! corner = Some c → (corner < 4)%nat → length o = 4%nat →
  check_corner collidepoint rect corners corner
    (o, bool_decide (o = [true; true; true; true]))
  = Some (let o' := if collidepoint rect c then <[corner := true]> o else o in
          (o', bool_decide (o' = [true; true; true; true]))).
Proof.
  intros Hc Hi Hlen. rewrite (check_corner_eq rect corners corner c) by (done || lia).
  destruct (bool_decide (o = [true; true; true; true])) eqn:Hb; [|done].
  apply bool_decide_eq_true in Hb. subst o.
  destruct (collidepoint rect c); [|done].
  destruct corner as [|[|[|[|]]]]; [reflexivity..|lia].
Qed.

(** The corner loop on one tile, for one axis. *)
Lemma corner_loop (rect : Rect) (c0 c1 c2 c3 : float * float) (o0 o1 o2 o3 : bool) :
  Py.for_each (λ fl corner, check_corner collidepoint rect [c0; c1; c2; c3] corner fl)
    ([o0; o1; o2; o3], bool_decide ([o0; o1; o2; o3] = [true; true; true; true]))
    (Py.range 4)
  = Some (let o := [o0 || collidepoint rect c0; o1 || collidepoint rect c1;
                    o2 || collidepoint rect c2; o3 || collidepoint rect c3] in
          (o, bool_decide (o = [true; true; true; true]))).
Proof.
  cbn [Py.for_each Py.range seq].
  rewrite (check_corner_inv rect _ 0 c0) by (done || lia). cbn [mbind option_bind]. cbn zeta.
  rewrite (check_corner_inv rect _ 1 c1)
    by (done || lia || (destruct (collidepoint rect c0); done)).
  cbn [mbind option_bind]. cbn zeta.
  rewrite (check_corner_inv rect _ 2 c2)
    by (done || lia || (destruct (collidepoint rect c0), (collidepoint rect c1); done)).
  cbn [mbind option_bind]. cbn zeta.
  rewrite (check_corner_inv rect _ 3 c3)
    by (done || lia
        || (destruct (collidepoint rect c0), (collidepoint rect c1),
              (collidepoint rect c2); done)).
  cbn [mbind option_bind]. cbn zeta.
  destruct (collidepoint rect c0), (collidepoint rect c1), (collidepoint rect c2),
    (collidepoint rect c3), o0, o1, o2, o3; reflexivity.
Qed.

(** Two loops over the same list that do not share state run as one. *)
Lemma for_each_pair {S T A} (f : S → A → option S) (h : T → A → option T)
    (l : list A) (s s' : S) (t t' : T) :
  Py.for_each f s l = Some s' → Py.for_each h t l = Some t' →
  Py.for_each (λ st a, x ← f st.1 a; y ← h st.2 a; Some (x, y)) (s, t) l = Some (s', t').
Proof.
  revert s t. induction l as [|a l IH]; intros s t Hs Ht; simpl in *.
  - by simplify_eq.
  - destruct (f s a) as [s1|]; [|done]. destruct (h t a) as [t1|]; [|done]. simpl in *.
    by apply IH.
Qed.

(** The flags of one axis after the tiles [squares], from flags that agree with
    their [complete] bit. *)
Lemma axis_loop (squares : list (Square Rect)) (c0 c1 c2 c3 : float * float)
    (o0 o1 o2 o3 : bool) :
  Py.for_each (λ fl path_square,
      Py.for_each (λ fl corner,
          check_corner collidepoint (sq_rect path_square) [c0; c1; c2; c3] corner fl)
        fl (Py.range 4))
    ([o0; o1; o2; o3], bool_decide ([o0; o1; o2; o3] = [true; true; true; true])) squares
  = Some (let o := [o0 || on_path collidepoint squares c0; o1 || on_path collidepoint squares c1;
                    o2 || on_path collidepoint squares c2; o3 || on_path collidepoint squares c3] in
          (o, bool_decide (o = [true; true; true; true]))).
Proof.
  revert o0 o1 o2 o3. induction squares as [|sq squares IH]; intros o0 o1 o2 o3.
  - cbn [Py.for_each on_path existsb]. by rewrite !orb_false_r.
  - cbn [Py.for_each]. rewrite corner_loop. cbn [mbind option_bind]. cbn zeta.
    rewrite IH. cbn [on_path existsb]. by rewrite !orb_assoc.
Qed.

(** The scan of [move]: each axis is complete exactly when its four corners all
    lie inside path tiles. *)
Lemma check_corners_eq (squares : list (Square Rect)) (cx0 cx1 cx2 cx3 cy0 cy1 cy2 cy3 : float * float) :
  ∃ on_x on_y,
    check_corners collidepoint squares [cx0; cx1; cx2; cx3] [cy0; cy1; cy2; cy3]
    = Some ((on_x, all_on_path collidepoint squares [cx0; cx1; cx2; cx3]),
            (on_y, all_on_path collidepoint squares [cy0; cy1; cy2; cy3])).
Proof.
  assert (Hflag : ∀ c0 c1 c2 c3,
    bool_decide ([false || on_path collidepoint squares c0; false || on_path collidepoint squares c1;
                  false || on_path collidepoint squares c2; false || on_path collidepoint squares c3]
                 = [true; true; true; true])
    = all_on_path collidepoint squares [c0; c1; c2; c3]).
  { intros c0 c1 c2 c3. unfold all_on_path. cbn [forallb orb].
    destruct (on_path collidepoint squares c0), (on_path collidepoint squares c1), (on_path collidepoint squares c2),
      (on_path collidepoint squares c3); reflexivity. }
  eexists _, _. unfold check_corners.
  enough (H : ∀ (sqs : list (Square Rect)) fx fy fx' fy',
    Py.for_each (λ fl path_square,
      Py.for_each (λ fl corner,
          check_corner collidepoint (sq_rect path_square) [cx0; cx1; cx2; cx3] corner fl)
        fl (Py.range 4)) fx sqs = Some fx' →
    Py.for_each (λ fl path_square,
      Py.for_each (λ fl corner,
          check_corner collidepoint (sq_rect path_square) [cy0; cy1; cy2; cy3] corner fl)
        fl (Py.range 4)) fy sqs = Some fy' →
    Py.for_each (λ st path_square,
      Py.for_each (λ st corner,
        fx ← check_corner collidepoint (sq_rect path_square) [cx0; cx1; cx2; cx3] corner st.1;
        fy ← check_corner collidepoint (sq_rect path_square) [cy0; cy1; cy2; cy3] corner st.2;
        Some (fx, fy)) st (Py.range 4)) (fx, fy) sqs = Some (fx', fy')).
  { pose proof (axis_loop squares cx0 cx1 cx2 cx3 false false false false) as Hx.
    pose proof (axis_loop squares cy0 cy1 cy2 cy3 false false false false) as Hy.
    cbn zeta in Hx, Hy. rewrite Hflag in Hx, Hy. apply H; [exact Hx | exact Hy]. }
  induction sqs as [|sq sqs IH]; intros fx fy fx' fy' Hx Hy;
    cbn [Py.for_each] in Hx, Hy.
  - by simplify_eq.
  - cbn [Py.for_each].
    destruct (Py.for_each _ fx (Py.range 4)) as [fx1|] eqn:Hx1; [|done].
    destruct (Py.for_each _ fy (Py.range 4)) as [fy1|] eqn:Hy1; [|done].
    rewrite (for_each_pair
               (λ fl corner, check_corner collidepoint (sq_rect sq)
                               [cx0; cx1; cx2; cx3] corner fl)
               (λ fl corner, check_corner collidepoint (sq_rect sq)
                               [cy0; cy1; cy2; cy3] corner fl)
               _ _ _ _ _ Hx1 Hy1).
    cbn [mbind option_bind] in *. by apply IH.
Qed.

End Solver.

(** ** The movement solver: [move] *)

Section Move.

Open Scope float_scope.

Context {Rect : Type} (collidepoint : Rect → float * float → bool).

(** The first statement of [move] never raises: the vector is kept when its
    magnitude is 0 or 1 and divided by its magnitude otherwise. *)
Lemma normalise_step_eq (v : Vector2) :
  normalise_step v
  = Some (if (magnitude v =? 0) || (magnitude v =? 1) then v
          else {| vx := vx v / magnitude v; vy := vy v / magnitude v |}).
Proof.
  unfold normalise_step, normalize_ip.
  destruct (magnitude v =? 0) eqn:H0; [done|]. by destruct (magnitude v =? 1).
Qed.

(** [move] never raises; each axis takes its projected coordinate exactly when the
    four corners projected along that axis all lie inside path tiles. *)
Lemma move_after (self : Player) (g : Game Rect) (v v' : Vector2) :
  normalise_step v = Some v' →
  move collidepoint self g v
      = Some (with_pos self
                (if all_on_path collidepoint (path_squares g)
                      (gen_corners self (next_x self g v', (pos self).2))
                 then next_x self g v' else (pos self).1,
                 if all_on_path collidepoint (path_squares g)
                      (gen_corners self ((pos self).1, next_y self g v'))
                 then next_y self g v' else (pos self).2),
              v').
Proof.
  intros Hv'. destruct self as [[x y] w m vel].
  unfold move. rewrite Hv'. cbn [mbind option_bind].
  unfold gen_corners at 1 2.
  cbv zeta. cbn [fst snd pos width collide_margin velocity].
  match goal with
  | |- context [check_corners _ _ [?a; ?b; ?c; ?d] [?e; ?f; ?h; ?k]] =>
      destruct (check_corners_eq collidepoint (path_squares g) a b c d e f h k)
        as (on_x & on_y & Hscan)
  end.
  rewrite Hscan. cbn [mbind option_bind].
  unfold gen_corners. cbv zeta. cbn [fst snd pos width collide_margin velocity].
  destruct (all_on_path _ _ _), (all_on_path _ _ _); reflexivity.
Qed.

(** [gen_corners] returns the four inset corners of the body. *)
Lemma gen_corners_inset (self : Player) (x y : float) (c : float * float) :
  c ∈ gen_corners self (x, y) ↔ c ∈ inset_corners self x y.
Proof.
  unfold gen_corners, inset_corners. cbv zeta. cbn [fst snd].
  rewrite !elem_of_cons. tauto.
Qed.

Lemma axis_clear_inset (self : Player) (squares : list (Square Rect)) (x y : float) :
  axis_clear collidepoint squares (gen_corners self (x, y))
  ↔ axis_clear collidepoint squares (inset_corners self x y).
Proof.
  unfold axis_clear. split; intros H c Hc; apply H; by apply gen_corners_inset.
Qed.

(** C2, amended. In every call [move] returns, and each axis is settled on its own.
    The vector is kept when its magnitude is 0 or 1 and divided by its magnitude
    otherwise; the candidate of an axis is its coordinate plus the vector's
    coordinate times the velocity and the frame time. The body takes the candidate
    x exactly when its four margin-inset corners, moved to the candidate x with y
    held at its current value, each lie inside some path tile, and keeps its x
    otherwise; likewise for y with x held at its current value. So a blocked axis
    keeps its coordinate while the other still moves, and an axis that moved has
    its four corners on path tiles at the position moved along that axis alone.
    Nothing is stated of the corners at the final position when both axes move:
    the code never tests it. *)
Theorem move_resolves_axes (self : Player) (g : Game Rect) (v : Vector2) :
  ∃ self' v',
    let x := (pos self).1 in
    let y := (pos self).2 in
    let candidate_x := x + vx v' * velocity self * delta_time g in
    let candidate_y := y + vy v' * velocity self * delta_time g in
    let clear_x :=
      axis_clear collidepoint (path_squares g) (inset_corners self candidate_x y) in
    let clear_y :=
      axis_clear collidepoint (path_squares g) (inset_corners self x candidate_y) in
    move collidepoint self g v = Some (self', v')
    ∧ v' = (if (magnitude v =? 0) || (magnitude v =? 1) then v
            else {| vx := vx v / magnitude v; vy := vy v / magnitude v |})
    ∧ (clear_x → (pos self').1 = candidate_x)
    ∧ (¬ clear_x → (pos self').1 = x)
    ∧ (clear_y → (pos self').2 = candidate_y)
    ∧ (¬ clear_y → (pos self').2 = y)
    ∧ ((pos self').1 ≠ x
       → axis_clear collidepoint (path_squares g) (inset_corners self (pos self').1 y))
    ∧ ((pos self').2 ≠ y
       → axis_clear collidepoint (path_squares g) (inset_corners self x (pos self').2))
    ∧ width self' = width self ∧ collide_margin self' = collide_margin self
    ∧ velocity self' = velocity self.
Proof.
  pose proof (normalise_step_eq v) as Heq.
  destruct (normalise_step v) as [v'|] eqn:Hv'; [|done].
  apply (inj Some) in Heq.
  eexists _, v'. cbv zeta. split; [exact (move_after self g v v' Hv')|].
  split; [exact Heq|]. clear Heq.
  cbn [pos with_pos width collide_margin velocity fst snd].
  change ((pos self).1 + vx v' * velocity self * delta_time g) with (next_x self g v').
  change ((pos self).2 + vy v' * velocity self * delta_time g) with (next_y self g v').
  rewrite <- !axis_clear_inset.
  destruct (all_on_path collidepoint (path_squares g)
              (gen_corners self (next_x self g v', (pos self).2))) eqn:Hx;
    destruct (all_on_path collidepoint (path_squares g)
                (gen_corners self ((pos self).1, next_y self g v'))) eqn:Hy;
    rewrite <- ?all_on_path_clear, ?Hx, ?Hy, ?not_true_iff_false;
    split_and!; done.
Qed.

End Move.

(** The last clause of C2 read at the final position fails. In the maze of side 2
    that the draws 0 give, the tile of vertex 0 has a connector to its right and
    one below it, and no tile fills the corner between them. A player near that
    corner moving along the diagonal is clear on each axis alone, so both axes
    move; at the position it ends on, its far corner lies inside no tile. *)
Lemma corner_cut_counterexample :
  ∃ s self' v',
    Game_init FloatRect_new (λ _, 0%nat) 2 0 = Some s
    ∧ move FloatRect_collidepoint corner_player (with_delta_time (game s) 0.015625)
        {| vx := 1; vy := 1 |} = Some (self', v')
    ∧ (390 <? (pos self').1)%float = true
    ∧ (390 <? (pos self').2)%float = true
    ∧ all_on_path FloatRect_collidepoint (path_squares (game s))
        (inset_corners corner_player (pos self').1 (pos corner_player).2) = true
    ∧ all_on_path FloatRect_collidepoint (path_squares (game s))
        (inset_corners corner_player (pos corner_player).1 (pos self').2) = true
    ∧ on_path FloatRect_collidepoint (path_squares (game s))
        ((pos self').1 + width self' - collide_margin self',
         (pos self').2 + width self' - collide_margin self')%float = false
    ∧ all_on_path FloatRect_collidepoint (path_squares (game s))
        (gen_corners self' (pos self')) = false
    ∧ ¬ axis_clear FloatRect_collidepoint (path_squares (game s))
          (inset_corners self' (pos self').1 (pos self').2).
Proof.
  eexists _, _, _. split; [vm_compute; reflexivity|].
  split; [vm_compute; reflexivity|].
  cbn [game pos fst snd].
  split_and!; [vm_compute; reflexivity..|].
  rewrite <- (all_on_path_clear FloatRect_collidepoint).
  intros Hclear. vm_compute in Hclear. discriminate.
Qed.

Section MoveVectors.

Open Scope float_scope.

Context {Rect : Type} (collidepoint : Rect → float * float → bool).

(** Corners with a NaN coordinate are on no tile, so the axis is blocked. *)
Lemma nan_corners_blocked (squares : list (Square Rect)) (c : float * float)
    (corners : list (float * float)) :
  rejects_nan collidepoint → is_nan c.1 = true ∨ is_nan c.2 = true →
  all_on_path collidepoint squares (c :: corners) = false.
Proof.
  intros Hrej Hc. unfold all_on_path. cbn [forallb].
  enough (on_path collidepoint squares c = false) as -> by done.
  unfold on_path. induction squares as [|sq squares IH]; [done|].
  cbn [existsb]. by rewrite (Hrej _ _ Hc), IH.
Qed.

Lemma gen_corners_nan_x (self : Player) (x y : float) (squares : list (Square Rect)) :
  rejects_nan collidepoint → is_nan x = true →
  all_on_path collidepoint squares (gen_corners self (x, y)) = false.
Proof.
  intros Hrej Hx. unfold gen_corners. cbv zeta. apply nan_corners_blocked; [done|].
  left. cbn [fst]. by apply sub_nan_l, add_nan_l.
Qed.

Lemma gen_corners_nan_y (self : Player) (x y : float) (squares : list (Square Rect)) :
  rejects_nan collidepoint → is_nan y = true →
  all_on_path collidepoint squares (gen_corners self (x, y)) = false.
Proof.
  intros Hrej Hy. unfold gen_corners. cbv zeta. apply nan_corners_blocked; [done|].
  right. cbn [snd]. by apply add_nan_l.
Qed.

(** The direction of a component that is a zero or a NaN leaves the coordinate the
    same number: its projection is that number, or a NaN that is never taken. *)
Lemma move_keeps_position (self self' : Player) (g : Game Rect) (v v' : Vector2) :
  move collidepoint self g v = Some (self', v') →
  zero_or_nan (vx v') → zero_or_nan (vy v') →
  rejects_nan collidepoint
  ∨ (is_zero (vx v') = true ∧ is_zero (vy v') = true
     ∧ is_finite (velocity self) = true ∧ is_finite (delta_time g) = true) →
  same_number (pos self').1 (pos self).1 ∧ same_number (pos self').2 (pos self).2
  ∧ velocity self' = velocity self.
Proof.
  intros Hmove Hzx Hzy Hcase.
  pose proof (normalise_step_eq v) as Heq.
  destruct (normalise_step v) as [v''|] eqn:Hv'; [clear Heq|done].
  rewrite (move_after collidepoint self g v v'' Hv') in Hmove.
  apply (inj Some) in Hmove. apply pair_equal_spec in Hmove as [<- <-].
  cbn [pos with_pos velocity fst snd].
  split_and!; [| |done].
  - destruct Hcase as [Hrej|(Hx & _ & Hvel & Hdt)].
    + destruct (projected_zero_or_nan (pos self).1 (vx v'') (velocity self)
                  (delta_time g) Hzx) as [Hnan|Hsame].
      * unfold next_x. rewrite gen_corners_nan_x by done. apply same_number_refl.
      * destruct (all_on_path _ _ _); [exact Hsame | apply same_number_refl].
    + destruct (all_on_path _ _ _); [|apply same_number_refl].
      by apply projected_zero_finite.
  - destruct Hcase as [Hrej|(_ & Hy & Hvel & Hdt)].
    + destruct (projected_zero_or_nan (pos self).2 (vy v'') (velocity self)
                  (delta_time g) Hzy) as [Hnan|Hsame].
      * unfold next_y. rewrite gen_corners_nan_y by done. apply same_number_refl.
      * destruct (all_on_path _ _ _); [exact Hsame | apply same_number_refl].
    + destruct (all_on_path _ _ _); [|apply same_number_refl].
      by apply projected_zero_finite.
Qed.

Lemma normalise_zero : normalise_step zero_vector = Some zero_vector.
Proof. reflexivity. Qed.

(** C7. With the zero input vector normalisation is skipped and [move] returns the
    body where it was, frame after frame (the same number on each axis; a zero may
    change its sign). The frame times and the velocity are finite floats, or
    [collidepoint] accepts no NaN point. *)
Theorem move_zero_vector (self : Player) (g : Game Rect) (frames : list (float * Vector2)) :
  Forall (λ frame, frame.2 = zero_vector) frames →
  rejects_nan collidepoint
  ∨ (is_finite (velocity self) = true
     ∧ Forall (λ frame, is_finite frame.1 = true) frames) →
  normalise_step zero_vector = Some zero_vector
  ∧ (∀ dt, (rejects_nan collidepoint ∨ is_finite dt = true ∧ is_finite (velocity self) = true) →
       ∃ self', move collidepoint self (with_delta_time g dt) zero_vector
                = Some (self', zero_vector)
         ∧ same_number (pos self').1 (pos self).1
         ∧ same_number (pos self').2 (pos self).2)
  ∧ ∃ self', move_frames collidepoint self g frames = Some self'
      ∧ same_number (pos self').1 (pos self).1
      ∧ same_number (pos self').2 (pos self).2.
Proof.
  intros Hzero Hcase.
  assert (Hone : ∀ (p : Player) dt,
            (rejects_nan collidepoint
             ∨ is_finite dt = true ∧ is_finite (velocity p) = true) →
            ∃ p', move collidepoint p (with_delta_time g dt) zero_vector
                  = Some (p', zero_vector)
              ∧ same_number (pos p').1 (pos p).1 ∧ same_number (pos p').2 (pos p).2
              ∧ velocity p' = velocity p).
  { intros p dt Hdt.
    pose proof (move_after collidepoint p (with_delta_time g dt) _ _ normalise_zero)
      as Hmove.
    eexists. split; [exact Hmove|].
    eapply move_keeps_position; [exact Hmove | by left | by left |].
    destruct Hdt as [Hrej|[Hdt Hvel]]; [by left | right]. done. }
  split; [reflexivity|]. split.
  - intros dt Hdt. destruct (Hone self dt) as (p' & Hp' & Hx & Hy & _); [tauto|].
    by exists p'.
  - revert self Hcase.
    induction Hzero as [|[dt v] frames Hv _ IH]; intros self Hcase.
    + exists self. split_and!; [done | apply same_number_refl..].
    + cbn [snd] in Hv. subst v. cbn [move_frames].
      destruct (Hone self dt) as (p' & -> & Hx & Hy & Hvel).
      { destruct Hcase as [Hrej|[Hvel Hdts]]; [by left | right].
        apply Forall_cons in Hdts as [Hdt _]. done. }
      cbn [mbind option_bind fst].
      destruct (IH p') as (p'' & Hp'' & Hx' & Hy').
      { destruct Hcase as [Hrej|[Hvel' Hdts]]; [by left | right].
        apply Forall_cons in Hdts as [_ Hdts]. by rewrite Hvel. }
      exists p''. split_and!; [done | by eapply same_number_trans..].
Qed.

End MoveVectors.

Section Malformed.

Open Scope float_scope.

Lemma magnitude_nan (v : Vector2) :
  is_nan (vx v) = true ∨ is_nan (vy v) = true → is_nan (magnitude v) = true.
Proof.
  intros H. unfold magnitude. apply sqrt_nan.
  destruct H as [H|H]; [by apply add_nan_l, mul_nan_l | by apply add_nan_r, mul_nan_l].
Qed.

Lemma square_infinity (a : float) :
  is_infinity a = true → Prim2SF (a * a) = S754_infinity false.
Proof.
  rewrite is_infinity_SF. intros [s Ha]. rewrite mul_spec, Ha. by destruct s.
Qed.

(** The magnitude of a vector with an infinite coordinate is NaN or [+infinity]. *)
Lemma magnitude_infinity (v : Vector2) :
  is_infinity (vx v) = true ∨ is_infinity (vy v) = true →
  is_nan (magnitude v) = true ∨ Prim2SF (magnitude v) = S754_infinity false.
Proof.
  intros H. unfold magnitude. rewrite is_nan_SF, sqrt_spec, add_spec.
  destruct H as [H|H]; rewrite (square_infinity _ H).
  - destruct (Prim2SF (vy v * vy v)) as [s|[]| |s m e]; simpl; auto.
  - destruct (Prim2SF (vx v * vx v)) as [s|[]| |s m e]; simpl; auto.
Qed.

Lemma eqb_infinity (m : float) :
  Prim2SF m = S754_infinity false → (m =? 0) = false ∧ (m =? 1) = false.
Proof. intros Hm. by rewrite !FloatAxioms.eqb_spec, Hm. Qed.

Lemma div_infinity (x m : float) :
  Prim2SF m = S754_infinity false → zero_or_nan (x / m).
Proof.
  intros Hm. unfold zero_or_nan. rewrite is_zero_SF, is_nan_SF, div_spec, Hm.
  destruct (Prim2SF x) as [s|s| |s mx e]; simpl; eauto.
Qed.

Lemma div_infinities (x m : float) :
  is_infinity x = true → Prim2SF m = S754_infinity false → is_nan (x / m) = true.
Proof.
  rewrite is_infinity_SF, is_nan_SF. intros [s Hx] Hm. by rewrite div_spec, Hx, Hm.
Qed.

(** The magnitude of a malformed vector is NaN or [+infinity]. *)
Lemma magnitude_malformed (v : Vector2) :
  malformed v → is_nan (magnitude v) = true ∨ magnitude v = infinity.
Proof.
  assert (Hinf : ∀ m, Prim2SF m = S754_infinity false → m = infinity)
    by (intros m Hm; by apply Prim2SF_inj).
  intros [H|[H|[H|H]]].
  - left. apply magnitude_nan. by left.
  - destruct (magnitude_infinity v) as [Hm|Hm]; [by left | by left | right; by apply Hinf].
  - left. apply magnitude_nan. by right.
  - destruct (magnitude_infinity v) as [Hm|Hm]; [by right | by left | right; by apply Hinf].
Qed.

(** A malformed vector is normalised: its magnitude is neither 0 nor 1, and the
    quotients are zeros or NaN, one of them a NaN. *)
Lemma normalise_malformed (v : Vector2) :
  malformed v →
  normalise_step v = Some {| vx := vx v / magnitude v; vy := vy v / magnitude v |}
  ∧ zero_or_nan (vx v / magnitude v) ∧ zero_or_nan (vy v / magnitude v)
  ∧ (is_nan (vx v / magnitude v) = true ∨ is_nan (vy v / magnitude v) = true).
Proof.
  intros Hv. rewrite normalise_step_eq.
  assert (is_nan (magnitude v) = true
          ∨ Prim2SF (magnitude v) = S754_infinity false
            ∧ (is_infinity (vx v) = true ∨ is_infinity (vy v) = true)) as [Hm|[Hm Hinf]].
  { destruct Hv as [H|[H|[H|H]]].
    - left. apply magnitude_nan. by left.
    - destruct (magnitude_infinity v) as [Hm|Hm]; [by left | by left | right; auto].
    - left. apply magnitude_nan. by right.
    - destruct (magnitude_infinity v) as [Hm|Hm]; [by right | by left | right; auto]. }
  - rewrite !(eqb_nan_l _ _ Hm). cbn [orb]. split; [done|].
    split_and!; [right; by apply div_nan_r | right; by apply div_nan_r |].
    left. by apply div_nan_r.
  - destruct (eqb_infinity _ Hm) as [-> ->]. cbn [orb]. split; [done|].
    split_and!; [by apply div_infinity | by apply div_infinity |].
    destruct Hinf as [H|H]; [left | right]; by apply div_infinities.
Qed.

Lemma nan_not_zero_vector (v : Vector2) :
  is_nan (vx v) = true ∨ is_nan (vy v) = true → v ≠ zero_vector.
Proof. intros [H|H] ->; done. Qed.

End Malformed.

Section MalformedMove.

Open Scope float_scope.

Context {Rect : Type} (collidepoint : Rect → float * float → bool).

(** C8 as the code has it. A direction vector with a NaN or infinite coordinate is
    not replaced by the zero vector: its magnitude is NaN or [+infinity], so
    [move] normalises it in place, to coordinates that are each a zero or NaN with
    at least one NaN. The NaN reaches the candidate coordinate of its axis. The
    position still stays the same number on both axes when [collidepoint] accepts
    no point with a NaN coordinate, the corners of a NaN candidate lying in no
    tile. *)
Theorem move_malformed_vector (self : Player) (g : Game Rect) (v : Vector2) :
  malformed v →
  ∃ self' v',
    let candidate_x := (pos self).1 + vx v' * velocity self * delta_time g in
    let candidate_y := (pos self).2 + vy v' * velocity self * delta_time g in
    move collidepoint self g v = Some (self', v')
    ∧ (is_nan (magnitude v) = true ∨ magnitude v = infinity)
    ∧ v' = {| vx := vx v / magnitude v; vy := vy v / magnitude v |}
    ∧ zero_or_nan (vx v') ∧ zero_or_nan (vy v')
    ∧ (is_nan (vx v') = true ∨ is_nan (vy v') = true)
    ∧ v' ≠ zero_vector
    ∧ candidate_x = next_x self g v' ∧ candidate_y = next_y self g v'
    ∧ (is_nan (vx v') = true → is_nan candidate_x = true)
    ∧ (is_nan (vy v') = true → is_nan candidate_y = true)
    ∧ (is_nan candidate_x = true ∨ is_nan candidate_y = true)
    ∧ (rejects_nan collidepoint →
         same_number (pos self').1 (pos self).1
         ∧ same_number (pos self').2 (pos self).2).
Proof.
  intros Hv. destruct (normalise_malformed v Hv) as (Hstep & Hzx & Hzy & Hnan).
  pose proof (move_after collidepoint self g v _ Hstep) as Hmove.
  eexists _, _. cbv zeta. split; [exact Hmove|].
  split; [by apply magnitude_malformed|]. split; [done|].
  cbn [vx vy]. split; [exact Hzx|]. split; [exact Hzy|]. split; [exact Hnan|].
  split; [by apply nan_not_zero_vector|].
  split; [reflexivity|]. split; [reflexivity|].
  assert (Hcx : is_nan (vx v / magnitude v) = true →
                is_nan ((pos self).1 + vx v / magnitude v * velocity self * delta_time g)
                = true)
    by (intros H; by apply add_nan_r, mul_nan_l, mul_nan_l).
  assert (Hcy : is_nan (vy v / magnitude v) = true →
                is_nan ((pos self).2 + vy v / magnitude v * velocity self * delta_time g)
                = true)
    by (intros H; by apply add_nan_r, mul_nan_l, mul_nan_l).
  split; [exact Hcx|]. split; [exact Hcy|].
  split; [destruct Hnan as [H|H]; [left; by apply Hcx | right; by apply Hcy]|].
  intros Hrej.
  destruct (move_keeps_position collidepoint self _ g v _ Hmove Hzx Hzy) as (Hx & Hy & _);
    [by left | done].
Qed.

End MalformedMove.

Lemma FloatRect_rejects_nan : rejects_nan FloatRect_collidepoint.
Proof.
  intros [[[x y] w] h] [px py] H. cbn [fst snd] in H. unfold FloatRect_collidepoint.
  cbn [fst snd]. destruct H as [H|H].
  - assert ((x <=? px)%float = false) as ->; [|done].
    apply is_nan_SF in H. rewrite leb_spec, H. by destruct (Prim2SF x).
  - assert ((y <=? py)%float = false) as ->; [|by rewrite andb_false_r].
    apply is_nan_SF in H. rewrite leb_spec, H. by destruct (Prim2SF y).
Qed.

Lemma move_zero_vector_witness :
  normalise_step zero_vector = Some zero_vector
  ∧ (∀ dt, (rejects_nan FloatRect_collidepoint
            ∨ is_finite dt = true ∧ is_finite (velocity example_player) = true) →
       ∃ self', move FloatRect_collidepoint example_player
                  (with_delta_time example_game dt) zero_vector
                = Some (self', zero_vector)
         ∧ same_number (pos self').1 (pos example_player).1
         ∧ same_number (pos self').2 (pos example_player).2)
  ∧ ∃ self', move_frames FloatRect_collidepoint example_player example_game
               [(0.015625, zero_vector); (0.03125, zero_vector)]%float = Some self'
      ∧ same_number (pos self').1 (pos example_player).1
      ∧ same_number (pos self').2 (pos example_player).2.
Proof.
  apply (move_zero_vector FloatRect_collidepoint example_player example_game
           [(0.015625, zero_vector); (0.03125, zero_vector)]%float).
  - repeat constructor.
  - right. split; [reflexivity | repeat constructor].
Defined.

(** A vector with an infinite coordinate comes back from [move] as [(NaN, 0)], not
    as the zero vector, and the projected x is NaN. *)
Lemma malformed_vector_counterexample :
  malformed {| vx := infinity; vy := 0 |}
  ∧ ∃ self' v',
      move FloatRect_collidepoint example_player example_game
        {| vx := infinity; vy := 0 |} = Some (self', v')
      ∧ v' ≠ zero_vector
      ∧ is_nan (vx v') = true
      ∧ is_nan (next_x example_player example_game v') = true.
Proof.
  split; [right; left; reflexivity|].
  eexists _, _. split; [vm_compute; reflexivity|].
  split; [|split; reflexivity].
  intros H. apply (f_equal (λ v, is_nan (vx v))) in H. vm_compute in H. discriminate.
Qed.

Lemma move_malformed_vector_witness :
  ∃ self' v',
    let candidate_x :=
      ((pos example_player).1 + vx v' * velocity example_player * delta_time example_game)%float in
    let candidate_y :=
      ((pos example_player).2 + vy v' * velocity example_player * delta_time example_game)%float in
    move FloatRect_collidepoint example_player example_game {| vx := nan; vy := 1 |}
    = Some (self', v')
    ∧ (is_nan (magnitude {| vx := nan; vy := 1 |}) = true
       ∨ magnitude {| vx := nan; vy := 1 |} = infinity)
    ∧ v' = {| vx := nan / magnitude {| vx := nan; vy := 1 |};
              vy := 1 / magnitude {| vx := nan; vy := 1 |} |}%float
    ∧ zero_or_nan (vx v') ∧ zero_or_nan (vy v')
    ∧ (is_nan (vx v') = true ∨ is_nan (vy v') = true)
    ∧ v' ≠ zero_vector
    ∧ candidate_x = next_x example_player example_game v'
    ∧ candidate_y = next_y example_player example_game v'
    ∧ (is_nan (vx v') = true → is_nan candidate_x = true)
    ∧ (is_nan (vy v') = true → is_nan candidate_y = true)
    ∧ (is_nan candidate_x = true ∨ is_nan candidate_y = true)
    ∧ (rejects_nan FloatRect_collidepoint →
         same_number (pos self').1 (pos example_player).1
         ∧ same_number (pos self').2 (pos example_player).2).
Proof.
  apply (move_malformed_vector FloatRect_collidepoint example_player example_game
           {| vx := nan; vy := 1 |}).
  left. reflexivity.
Defined.

(** ** Maze generation: the sizes below 2, the frontier and a second run *)

Lemma generate_zero (choice : nat → nat) : generate choice 0 = None.
Proof. reflexivity. Qed.

(** The entries of the matrix during the loop: a 1 exactly from an unvisited row to
    a neighbour in the grid. *)
Lemma prims_inv_entry (n k : nat) (st : PrimsState) (r c : nat) :
  prims_inv n k st → r < n ^ 2 → c < n ^ 2 →
  entry (ps_matrix st) r c = Some 1%Z ↔ (r ∉ visited_vertices st) ∧ grid_adjacent n r c.
Proof.
  intros Hinv Hr Hc. destruct (decide (r ∈ visited_vertices st)) as [Hin|Hout].
  - split; [|tauto]. intros He. exfalso.
    eapply zero_row_entry; [|exact He]. by apply (inv_visited_row _ _ _ Hinv).
  - unfold entry. rewrite (inv_other_row _ _ _ Hinv r Hr Hout). cbn [mbind option_bind].
    rewrite grid_row_lookup by done.
    destruct (decide (grid_adjacent n r c)); split; [tauto | done | | tauto].
    intros [=].
Qed.

Lemma available_pairs_NoDup (m : Matrix) (total : nat) (visited : list nat) :
  NoDup visited → NoDup (available_pairs m total visited).
Proof.
  intros Hnd. unfold available_pairs. apply NoDup_bind; [| |done].
  - intros c1 c2 [r c] _ _ H1 H2.
    apply list_elem_of_bind in H1 as (r1 & H1 & _).
    apply list_elem_of_bind in H2 as (r2 & H2 & _).
    destruct (decide _); [|by apply elem_of_nil in H1].
    destruct (decide _); [|by apply elem_of_nil in H2].
    apply list_elem_of_singleton in H1, H2. congruence.
  - intros c _. apply NoDup_bind; [| |apply NoDup_seq].
    + intros r1 r2 [r c'] _ _ H1 H2.
      destruct (decide _); [|by apply elem_of_nil in H1].
      destruct (decide _); [|by apply elem_of_nil in H2].
      apply list_elem_of_singleton in H1, H2. congruence.
    + intros r _. destruct (decide _); [apply NoDup_singleton | apply NoDup_nil_2].
Qed.

(** X1. Generation returns exactly for the grid sides [n >= 1]: on the empty grid
    [self.matrix[0] = ...] raises; on the grid of one vertex the loop does not run
    and the edge list is empty. *)
Theorem generate_returns_iff (choice : nat → nat) (n : nat) :
  (is_Some (generate choice n) ↔ 1 ≤ n)
  ∧ generate choice 1
    = Some {| ps_matrix := [[0%Z]]; visited_vertices := [0]; edge_list := [] |}.
Proof.
  split; [|reflexivity]. split.
  - intros Hs. destruct n; [|lia]. rewrite generate_zero in Hs. by destruct Hs.
  - intros Hn. destruct (generate_inv choice n Hn) as (st & -> & _). by eexists.
Qed.

(** X2. Every edge [random_prims] records joins two vertices of the grid that are
    orthogonal neighbours: the maze opens passages between adjacent cells only. *)
Theorem random_prims_grid_edges (choice : nat → nat) (n : nat) :
  1 ≤ n →
  ∃ st, generate choice n = Some st
    ∧ ∀ u v, (u, v) ∈ edge_list st → u < n ^ 2 ∧ v < n ^ 2 ∧ grid_adjacent n u v.
Proof.
  intros Hn. destruct (generate_inv choice n Hn) as (st & Hst & Hinv).
  exists st. split; [done|]. intros u v Huv.
  pose proof (inv_grid_edges _ _ _ Hinv) as Hadj. rewrite Forall_forall in Hadj.
  pose proof (inv_range _ _ _ Hinv) as Hrange. rewrite Forall_forall in Hrange.
  destruct (grown_endpoints _ _ u v (inv_grown _ _ _ Hinv) Huv) as [Hu Hv].
  split_and!; [by apply Hrange | by apply Hrange | by apply (Hadj (u, v))].
Qed.

Lemma random_prims_grid_edges_witness :
  ∃ st, generate (λ _, 0) 2 = Some st
    ∧ ∀ u v, (u, v) ∈ edge_list st → u < 2 ^ 2 ∧ v < 2 ^ 2 ∧ grid_adjacent 2 u v.
Proof. apply (random_prims_grid_edges (λ _, 0) 2). lia. Defined.

(** X3. After any number of iterations the candidates [random.choice] draws from
    are exactly the frontier of the visited set, each pair listed once: the pairs
    of an unvisited row and a visited column that are neighbours in the grid. *)
Theorem random_prims_frontier (choice : nat → nat) (n k : nat) :
  1 ≤ n → k + 1 ≤ n ^ 2 →
  ∃ st available,
    generate_iter choice n k = Some st
    ∧ available_vertices (ps_matrix st) (n ^ 2) (visited_vertices st) = Some available
    ∧ NoDup available
    ∧ ∀ row column, (row, column) ∈ available
        ↔ column ∈ visited_vertices st ∧ row < n ^ 2 ∧ (row ∉ visited_vertices st)
          ∧ grid_adjacent n row column.
Proof.
  intros Hn Hk. destruct (generate_iter_inv choice n k Hn Hk) as (st & Hst & Hinv).
  exists st, (available_pairs (ps_matrix st) (n ^ 2) (visited_vertices st)).
  split_and!; [done | | |].
  - apply available_vertices_eq; apply Hinv.
  - eapply available_pairs_NoDup, grown_NoDup, inv_grown, Hinv.
  - intros r c. rewrite available_pairs_spec.
    pose proof (inv_range _ _ _ Hinv) as Hrange. rewrite Forall_forall in Hrange.
    split.
    + intros (Hc & Hr & He). apply (prims_inv_entry n k) in He; [tauto | done.. |].
      by apply Hrange.
    + intros (Hc & Hr & Hnr & Hadj). split_and!; [done..|].
      apply (prims_inv_entry n k); [done.. | by apply Hrange | done].
Qed.

Lemma random_prims_frontier_witness :
  ∃ st available,
    generate_iter (λ _, 0) 2 1 = Some st
    ∧ available_vertices (ps_matrix st) (2 ^ 2) (visited_vertices st) = Some available
    ∧ NoDup available
    ∧ ∀ row column, (row, column) ∈ available
        ↔ column ∈ visited_vertices st ∧ row < 2 ^ 2 ∧ (row ∉ visited_vertices st)
          ∧ grid_adjacent 2 row column.
Proof. apply (random_prims_frontier (λ _, 0) 2 1); simpl; lia. Defined.

(** No candidate is left in a matrix of zeros. *)
Lemma available_pairs_zero (total : nat) (visited : list nat) :
  available_pairs (replicate total (zero_row total)) total visited = [].
Proof.
  destruct (available_pairs _ _ _) as [|[r c] l] eqn:Hl; [done|]. exfalso.
  assert ((r, c) ∈ available_pairs (replicate total (zero_row total)) total visited)
    as Hin by (rewrite Hl; apply list_elem_of_here).
  apply available_pairs_spec in Hin as (_ & Hr & He).
  eapply zero_row_entry; [|exact He]. by apply lookup_replicate.
Qed.

(** The first iteration on a matrix of zeros: [random.choice] has nothing to draw. *)
Lemma prims_step_zero (choice : nat → nat) (total count : nat) (es : list (nat * nat)) :
  1 ≤ total →
  prims_step choice total
    {| ps_matrix := replicate total (zero_row total); visited_vertices := [0];
       edge_list := es |} count = None.
Proof.
  intros Ht. unfold prims_step. cbn [ps_matrix visited_vertices].
  rewrite available_vertices_eq; cycle 1.
  { split; [by rewrite length_replicate|]. intros u row Hrow.
    apply lookup_replicate in Hrow as [-> _]. unfold zero_row. by rewrite length_replicate. }
  { repeat constructor. lia. }
  by rewrite available_pairs_zero.
Qed.

(** X4. [random_prims] consumes the matrix: for [n >= 2], a second call on the
    object a first call has returned from raises, whatever the draws, since no
    candidate is left for its first [random.choice]. *)
Theorem random_prims_second_run (choice : nat → nat) (n : nat) :
  2 ≤ n →
  ∃ st, generate choice n = Some st
    ∧ ∀ choice',
        random_prims choice'
          {| vertex_across := n; vertex_total := n ^ 2; matrix := ps_matrix st |} = None.
Proof.
  intros Hn. destruct (generate_inv choice n) as (st & Hst & Hinv); [lia|].
  exists st. split; [done|]. intros choice'.
  assert (4 ≤ n ^ 2) as Hsq by (simpl; nia).
  assert (Hzero : ps_matrix st = replicate (n ^ 2) (zero_row (n ^ 2))).
  { apply zero_rows_eq; [apply Hinv|]. intros u Hu.
    apply (inv_visited_row _ _ _ Hinv).
    by apply (prims_inv_all_visited n st ltac:(lia) Hinv). }
  unfold random_prims, prims_iter, prims_start. cbn [vertex_total matrix].
  rewrite Hzero. rewrite (setitem_nat _ 0) by (rewrite length_replicate; lia).
  cbn [mbind option_bind].
  assert (<[0 := replicate (n ^ 2) 0%Z]> (replicate (n ^ 2) (zero_row (n ^ 2)))
          = replicate (n ^ 2) (zero_row (n ^ 2))) as ->.
  { apply list_insert_id. apply lookup_replicate. split; [done | lia]. }
  destruct (n ^ 2 - 1) as [|j] eqn:Hj; [lia|].
  unfold Py.range. cbn [seq Py.for_each]. rewrite prims_step_zero by lia. done.
Qed.

Lemma random_prims_second_run_witness :
  ∃ st, generate (λ _, 0) 2 = Some st
    ∧ ∀ choice',
        random_prims choice'
          {| vertex_across := 2; vertex_total := 2 ^ 2; matrix := ps_matrix st |} = None.
Proof. apply (random_prims_second_run (λ _, 0) 2). lia. Defined.

(** ** The tile layout: when [create_grid] returns *)

Section LayoutReturns.

Open Scope float_scope.

Context {Rect : Type} (Rect_new : float → float → float → float → Rect).

(** The first loop never raises and lays one tile per index. *)
Lemma base_loop_length (g : Game Rect) (l : list nat) (st : nat * nat * list (Square Rect)) :
  ∃ row column squares,
    Py.for_each (base_step Rect_new g) st l = Some (row, column, squares)
    ∧ length squares = (length st.2 + length l)%nat.
Proof.
  revert st. induction l as [|i l IH]; intros [[row column] squares].
  - exists row, column, squares. split; [done | simpl; lia].
  - cbn [Py.for_each base_step].
    destruct (decide (column = squares_across g)); cbn [mbind option_bind];
      (edestruct IH as (r & c & sq & -> & Hlen); exists r, c, sq; split; [done|];
       rewrite Hlen; cbn [snd length]; rewrite length_app; simpl; lia).
Qed.

(** [path_squares[-1]] raises on the empty list only. *)
Lemma mark_end_returns (squares : list (Square Rect)) :
  match mark_end squares with
  | Some squares' => length squares' = length squares ∧ squares ≠ []
  | None => squares = []
  end.
Proof.
  destruct squares as [|s squares _] using rev_ind; [done|].
  rewrite mark_end_last. rewrite !length_app. split; [done|]. by destruct squares.
Qed.

(** The second loop returns exactly when each edge names tiles laid before its
    own connector. *)
Lemma join_loop_returns (g : Game Rect) (edges : list (nat * nat))
    (squares : list (Square Rect)) :
  match Py.for_each (join_step Rect_new g) squares edges with
  | Some squares' =>
      length squares' = (length squares + length edges)%nat
      ∧ ∀ j e, edges !! j = Some e →
          (e.1 < length squares + j ∧ e.2 < length squares + j)%nat
  | None =>
      ∃ j e, edges !! j = Some e
        ∧ ¬ (e.1 < length squares + j ∧ e.2 < length squares + j)%nat
  end.
Proof.
  revert squares. induction edges as [|e edges IH]; intros squares.
  - cbn [Py.for_each]. split; [simpl; lia | intros j e Hj; done].
  - cbn [Py.for_each].
    destruct (squares !! e.1) as [a|] eqn:Ha; cycle 1.
    { assert (join_step Rect_new g squares e = None) as ->
        by (unfold join_step; by rewrite Ha).
      cbn [mbind option_bind]. exists 0%nat, e. split; [done|].
      apply lookup_ge_None_1 in Ha. lia. }
    destruct (squares !! e.2) as [b|] eqn:Hb; cycle 1.
    { assert (join_step Rect_new g squares e = None) as ->
        by (unfold join_step; by rewrite Ha, Hb).
      cbn [mbind option_bind]. exists 0%nat, e. split; [done|].
      apply lookup_ge_None_1 in Hb. lia. }
    rewrite (join_step_eq Rect_new g squares e a b Ha Hb).
    apply lookup_lt_Some in Ha, Hb. cbn [mbind option_bind].
    specialize (IH (squares ++ [connector_tile Rect_new g a b])).
    destruct (Py.for_each _ _ edges) as [squares'|].
    + destruct IH as [Hlen Hrange]. rewrite length_app in Hlen, Hrange. cbn [length] in *.
      split; [lia|]. intros [|j] e' Hj.
      * injection Hj as <-. lia.
      * specialize (Hrange j e' Hj). lia.
    + destruct IH as (j & e' & Hj & Hbad). rewrite length_app in Hbad. cbn [length] in Hbad.
      exists (S j), e'. split; [done | lia].
Qed.

(** X5. [create_grid] returns exactly when the game has a base square (otherwise
    [path_squares[-1]] raises) and each edge names two tiles laid before its own
    connector: base squares, or connectors of earlier edges. It then holds one
    tile per base square and one per edge. *)
Theorem create_grid_returns_iff (g : Game Rect) (edges : list (nat * nat)) :
  (is_Some (create_grid Rect_new g edges)
   ↔ (1 ≤ game_squares_total g)%nat
     ∧ ∀ j e, edges !! j = Some e →
         (e.1 < game_squares_total g + j ∧ e.2 < game_squares_total g + j)%nat)
  ∧ ∀ g', create_grid Rect_new g edges = Some g' →
      length (path_squares g') = (game_squares_total g + length edges)%nat.
Proof.
  unfold create_grid.
  destruct (base_loop_length g (Py.range (game_squares_total g)) (0, 0, [])%nat)
    as (row & column & squares & -> & Hlen).
  unfold Py.range in Hlen. rewrite length_seq in Hlen. cbn [snd length] in Hlen.
  cbn [mbind option_bind].
  pose proof (mark_end_returns squares) as Hmark.
  destruct (mark_end squares) as [marked|]; cbn [mbind option_bind].
  - destruct Hmark as [Hlen' Hne].
    assert (1 ≤ game_squares_total g)%nat as Htotal.
    { destruct squares; [done | simpl in Hlen; lia]. }
    pose proof (join_loop_returns g edges marked) as Hjoin.
    destruct (Py.for_each _ marked edges) as [tiles|]; cbn [mbind option_bind].
    + destruct Hjoin as [Hlen'' Hrange]. split.
      * split; [intros _|intros _; by eexists]. split; [done|].
        intros j e Hj. specialize (Hrange j e Hj). lia.
      * intros g' Hg'. apply (inj Some) in Hg' as <-.
        unfold with_path_squares. cbn [path_squares]. lia.
    + destruct Hjoin as (j & e & Hj & Hbad). split; [|done]. split.
      * intros [? [=]].
      * intros [_ Hrange]. specialize (Hrange j e Hj). lia.
  - subst squares. split; [|done]. split; [intros [? [=]] | simpl in Hlen; lia].
Qed.

End LayoutReturns.

(** ** The movement solver and the set of tiles *)

Section MoveTiles.

Open Scope float_scope.

Context {Rect : Type} (collidepoint : Rect → float * float → bool).

(** More tiles keep every corner that was on the path on the path. *)
Lemma all_on_path_mono (squares squares' : list (Square Rect)) (corners : list (float * float)) :
  (∀ s, s ∈ squares → s ∈ squares') →
  all_on_path collidepoint squares corners = true →
  all_on_path collidepoint squares' corners = true.
Proof.
  intros Hsub. rewrite !all_on_path_clear. intros Hclear c Hc.
  destruct (Hclear c Hc) as (s & Hs & Hcp). exists s. split; [by apply Hsub | done].
Qed.

Lemma all_on_path_same (squares squares' : list (Square Rect)) (corners : list (float * float)) :
  (∀ s, s ∈ squares ↔ s ∈ squares') →
  all_on_path collidepoint squares corners = all_on_path collidepoint squares' corners.
Proof.
  intros Hsame. apply eq_true_iff_eq.
  split; apply all_on_path_mono; intros s; by apply Hsame.
Qed.

Lemma all_on_path_nil (c : float * float) (corners : list (float * float)) :
  all_on_path collidepoint [] (c :: corners) = false.
Proof. reflexivity. Qed.

(** X6. With no path tile [move] returns and leaves the player as it was,
    whatever the vector. *)
Theorem move_without_tiles (self : Player) (g : Game Rect) (v : Vector2) :
  path_squares g = [] →
  ∃ v', move collidepoint self g v = Some (self, v') ∧ normalise_step v = Some v'.
Proof.
  intros Hempty. pose proof (normalise_step_eq v) as Heq.
  destruct (normalise_step v) as [v'|] eqn:Hv'; [clear Heq|done].
  exists v'. split; [|done].
  rewrite (move_after collidepoint self g v v' Hv'), Hempty.
  unfold gen_corners. cbv zeta. rewrite !all_on_path_nil.
  by destruct self as [[x y] w m vel].
Qed.

(** X7. The outcome of [move] depends on the tiles only through their set: the
    order of [path_squares] and repeated tiles make no difference, although the
    loop stops testing an axis at the first tile that completes it. *)
Theorem move_tile_set (self : Player) (g : Game Rect) (squares' : list (Square Rect))
    (v : Vector2) :
  (∀ s, s ∈ path_squares g ↔ s ∈ squares') →
  move collidepoint self (with_path_squares g squares') v = move collidepoint self g v.
Proof.
  intros Hsame. pose proof (normalise_step_eq v) as Heq.
  destruct (normalise_step v) as [v'|] eqn:Hv'; [clear Heq|done].
  rewrite !(move_after collidepoint self _ v v' Hv').
  unfold with_path_squares at 1 2. cbn [path_squares].
  rewrite <- !(all_on_path_same (path_squares g) squares') by done.
  reflexivity.
Qed.

(** X8. Adding tiles never blocks a movement: an axis whose coordinate changes with
    the tiles of [g] takes the same coordinate with any larger set of tiles. *)
Theorem move_more_tiles (self : Player) (g : Game Rect) (squares' : list (Square Rect))
    (v : Vector2) :
  (∀ s, s ∈ path_squares g → s ∈ squares') →
  ∃ p p' v',
    move collidepoint self g v = Some (p, v')
    ∧ move collidepoint self (with_path_squares g squares') v = Some (p', v')
    ∧ ((pos p).1 ≠ (pos self).1 → (pos p').1 = (pos p).1)
    ∧ ((pos p).2 ≠ (pos self).2 → (pos p').2 = (pos p).2).
Proof.
  intros Hsub. pose proof (normalise_step_eq v) as Heq.
  destruct (normalise_step v) as [v'|] eqn:Hv'; [clear Heq|done].
  eexists _, _, v'.
  split; [exact (move_after collidepoint self g v v' Hv')|].
  split; [exact (move_after collidepoint self _ v v' Hv')|].
  change (next_x self (with_path_squares g squares') v') with (next_x self g v').
  change (next_y self (with_path_squares g squares') v') with (next_y self g v').
  change (path_squares (with_path_squares g squares')) with squares'.
  cbn [pos with_pos fst snd].
  split.
  - destruct (all_on_path collidepoint (path_squares g)
                (gen_corners self (next_x self g v', (pos self).2))) eqn:Hx; [|done].
    intros _. by rewrite (all_on_path_mono _ squares' _ Hsub Hx).
  - destruct (all_on_path collidepoint (path_squares g)
                (gen_corners self ((pos self).1, next_y self g v'))) eqn:Hy; [|done].
    intros _. by rewrite (all_on_path_mono _ squares' _ Hsub Hy).
Qed.

End MoveTiles.

Lemma move_without_tiles_witness :
  ∃ v', move FloatRect_collidepoint example_player (Game_sizes FloatRect 2 0.015625)
          {| vx := 1; vy := 1 |} = Some (example_player, v')
    ∧ normalise_step {| vx := 1; vy := 1 |} = Some v'.
Proof.
  apply (move_without_tiles FloatRect_collidepoint example_player
           (Game_sizes FloatRect 2 0.015625) {| vx := 1; vy := 1 |}).
  reflexivity.
Defined.

Lemma move_tile_set_witness :
  move FloatRect_collidepoint example_player
    (with_path_squares example_game
       [Square_init FloatRect_new 225 225 225 Black;
        Square_init FloatRect_new 225 225 225 Black]) {| vx := 1; vy := 0 |}
  = move FloatRect_collidepoint example_player example_game {| vx := 1; vy := 0 |}.
Proof.
  apply (move_tile_set FloatRect_collidepoint example_player example_game
           [Square_init FloatRect_new 225 225 225 Black;
            Square_init FloatRect_new 225 225 225 Black] {| vx := 1; vy := 0 |}).
  intros s. cbn [example_game with_path_squares path_squares].
  rewrite !elem_of_cons. tauto.
Defined.

Lemma move_more_tiles_witness :
  ∃ p p' v',
    move FloatRect_collidepoint example_player example_game {| vx := 1; vy := 0 |}
    = Some (p, v')
    ∧ move FloatRect_collidepoint example_player
        (with_path_squares example_game
           [Square_init FloatRect_new 225 225 225 Black;
            Square_init FloatRect_new 450 225 225 Black]) {| vx := 1; vy := 0 |}
      = Some (p', v')
    ∧ ((pos p).1 ≠ (pos example_player).1 → (pos p').1 = (pos p).1)
    ∧ ((pos p).2 ≠ (pos example_player).2 → (pos p').2 = (pos p).2).
Proof.
  apply (move_more_tiles FloatRect_collidepoint example_player example_game
           [Square_init FloatRect_new 225 225 225 Black;
            Square_init FloatRect_new 450 225 225 Black] {| vx := 1; vy := 0 |}).
  intros s. cbn [example_game with_path_squares path_squares].
  rewrite !elem_of_cons. tauto.
Defined.

(** ** The vector of the keys *)

Section KeyVector.

Open Scope float_scope.

(** X9. Whatever keys are down, the vector [game_loop] hands to [move] has its
    coordinates among -1, 0 and 1 (two opposite keys cancel), so it is never
    malformed; [move] keeps it when a coordinate is 0 and divides both
    coordinates by the square root of 2 when the movement is diagonal. *)
Theorem key_vector_normalised (keys : Keys) :
  let v := key_vector keys in
  (vx v = -1 ∨ vx v = 0 ∨ vx v = 1) ∧ (vy v = -1 ∨ vy v = 0 ∨ vy v = 1)
  ∧ vx v = (if K_d keys then 1 else 0) - (if K_a keys then 1 else 0)
  ∧ vy v = (if K_s keys then 1 else 0) - (if K_w keys then 1 else 0)
  ∧ ¬ malformed v
  ∧ normalise_step v
    = Some (if (vx v =? 0) || (vy v =? 0) then v
            else {| vx := vx v / sqrt 2; vy := vy v / sqrt 2 |}).
Proof.
  destruct keys as [q r [] [] [] []]; cbv zeta;
    (split_and!;
     [vm_compute; tauto | vm_compute; tauto | reflexivity | reflexivity
     | intros [H|[H|[H|H]]]; vm_compute in H; discriminate
     | reflexivity]).
Qed.

End KeyVector.

(** ** The game object: [Game.__init__] *)

Section GameObject.

Open Scope float_scope.

Context {Rect : Type} (Rect_new : float → float → float → float → Rect).

(** On a level with a tile, the player is put on the first tile. *)
Lemma start_player_first (g : Game Rect) (player_velocity : float) (first : Square Rect) :
  path_squares g !! 0%nat = Some first →
  start_player g player_velocity
  = Some (Player_init (sq_x first + (small_square g - small_square g / 4) / 2)
                      (sq_y first + (small_square g - small_square g / 4) / 2)
                      (small_square g / 4) player_velocity).
Proof.
  intros Hfirst. unfold start_player.
  change (Py.getitem (path_squares g) 0) with (Py.getitem (path_squares g) (Z.of_nat 0)).
  by rewrite (getitem_nat _ 0 _ Hfirst).
Qed.

Lemma start_player_returns (g : Game Rect) (player_velocity : float) :
  path_squares g ≠ [] →
  ∃ p, start_player g player_velocity = Some p
    ∧ width p = small_square g / 4 ∧ collide_margin p = 1 ∧ velocity p = player_velocity.
Proof.
  intros Hne. destruct (path_squares g) as [|first l] eqn:Hl; [done|].
  eexists. split; [apply (start_player_first g player_velocity first); by rewrite Hl|].
  done.
Qed.

(** The edges [random_prims] returns name vertices of the grid. *)
Lemma generate_edges_range (choice : nat → nat) (n : nat) (st : PrimsState) :
  (1 ≤ n)%nat → prims_inv n (n ^ 2 - 1) st →
  length (edge_list st) = (n ^ 2 - 1)%nat
  ∧ Forall (λ e, e.1 < n ^ 2 ∧ e.2 < n ^ 2)%nat (edge_list st).
Proof.
  intros Hn Hinv. pose proof (inv_grown _ _ _ Hinv) as Hg. split.
  - pose proof (grown_length _ _ Hg) as Hlen.
    rewrite (inv_length _ _ _ Hinv) in Hlen. lia.
  - apply Forall_forall. intros [u v] Huv.
    pose proof (inv_range _ _ _ Hinv) as Hrange. rewrite Forall_forall in Hrange.
    destruct (grown_endpoints _ _ u v Hg Huv) as [Hu Hv].
    split; by apply Hrange.
Qed.

(** [Game.__init__] step by step, for a difficulty that is not 0. *)
Lemma Game_init_eq (choice : nat → nat) (n : nat) (now : float) :
  (1 ≤ n)%nat →
  ∃ st connectors first,
    let g := with_path_squares (Game_sizes Rect n 0)
               (marked_tiles Rect_new (Game_sizes Rect n 0) (n ^ 2) ++ connectors) in
    generate choice n = Some st
    ∧ length (edge_list st) = (n ^ 2 - 1)%nat
    ∧ length connectors = length (edge_list st)
    ∧ create_grid Rect_new (Game_sizes Rect n 0) (edge_list st) = Some g
    ∧ path_squares g !! 0%nat = Some first
    ∧ sq_x first = sq_x (base_tile Rect_new g 0)
    ∧ sq_y first = sq_y (base_tile Rect_new g 0)
    ∧ path_squares g !! (n ^ 2 - 1)%nat
      = Some (set_colour (base_tile Rect_new g (n ^ 2 - 1)) Green)
    ∧ Game_init Rect_new choice n now
      = Some {| game := g; maze := st;
                end_square := set_colour (base_tile Rect_new g (n ^ 2 - 1)) Green;
                player := Player_init
                            (sq_x first + (small_square g - small_square g / 4) / 2)
                            (sq_y first + (small_square g - small_square g / 4) / 2)
                            (small_square g / 4) (7 * small_square g);
                player_velocity := 7 * small_square g;
                start_time := now; time_last := 0;
                run := true; won := false; to_menu := false |}.
Proof.
  intros Hn.
  assert (0 < n ^ 2)%nat as Hsq by (simpl; nia).
  destruct (generate_inv choice n Hn) as (st & Hst & Hinv).
  destruct (generate_edges_range choice n st Hn Hinv) as [Hlen Hrange].
  destruct (create_grid_eq Rect_new (Game_sizes Rect n 0) (edge_list st))
    as (connectors & Hgrid & Hclen & _); [done.. |].
  change (game_squares_total (Game_sizes Rect n 0)) with (n ^ 2)%nat in Hgrid.
  set (g := with_path_squares (Game_sizes Rect n 0)
              (marked_tiles Rect_new (Game_sizes Rect n 0) (n ^ 2) ++ connectors)) in *.
  assert (Hlast : path_squares g !! (n ^ 2 - 1)%nat
                  = Some (set_colour (base_tile Rect_new g (n ^ 2 - 1)) Green)).
  { unfold g. cbn [with_path_squares path_squares].
    rewrite lookup_app_l by (rewrite marked_tiles_length; lia).
    rewrite marked_tiles_lookup by lia. by rewrite decide_True. }
  assert (Hfirst : ∃ first, path_squares g !! 0%nat = Some first
                     ∧ sq_x first = sq_x (base_tile Rect_new g 0)
                     ∧ sq_y first = sq_y (base_tile Rect_new g 0)).
  { unfold g. cbn [with_path_squares path_squares].
    rewrite lookup_app_l by (rewrite marked_tiles_length; lia).
    rewrite marked_tiles_lookup by lia. eexists. split; [done|].
    by destruct (decide _). }
  destruct Hfirst as (first & Hfirst & Hx & Hy).
  exists st, connectors, first. cbv zeta. fold g.
  split_and!; [done..|].
  unfold Game_init. rewrite decide_False by lia. cbv zeta.
  change (squares_across (Game_sizes Rect n 0)) with n.
  change (game_squares_total (Game_sizes Rect n 0)) with (squares_total n).
  unfold generate, grid_matrix in Hst.
  destruct (AdjacencyMatrix_init n (squares_total n)) as [self_matrix|]; [|done].
  cbn [mbind option_bind] in Hst |- *. rewrite Hst. cbn [mbind option_bind].
  rewrite Hgrid. cbn [mbind option_bind].
  change (game_squares_total g) with (n ^ 2)%nat.
  rewrite Hlast. cbn [mbind option_bind].
  rewrite (start_player_first g _ first Hfirst). done.
Qed.

(** X10. [Game.__init__] returns for every difficulty [n >= 1], whatever the
    draws, and raises for 0 (the division of the window width). The game it
    returns holds the maze of [random_prims] laid out by [create_grid] in
    [2 n^2 - 1] tiles, the green tile of the last vertex as end square, and a
    player a quarter of a tile wide, centred on the tile of vertex 0, with velocity
    seven tiles a second; it runs, and is neither won nor left for the menu. *)
Theorem Game_init_returns (choice : nat → nat) (n : nat) (now : float) :
  (1 ≤ n)%nat →
  Game_init Rect_new choice 0 now = None
  ∧ ∃ s, Game_init Rect_new choice n now = Some s
      ∧ generate choice n = Some (maze s)
      ∧ create_grid Rect_new (Game_sizes Rect n 0) (edge_list (maze s)) = Some (game s)
      ∧ length (path_squares (game s)) = (2 * n ^ 2 - 1)%nat
      ∧ path_squares (game s) !! (n ^ 2 - 1)%nat = Some (end_square s)
      ∧ end_square s = set_colour (base_tile Rect_new (game s) (n ^ 2 - 1)) Green
      ∧ player s
        = Player_init
            (sq_x (base_tile Rect_new (game s) 0)
             + (small_square (game s) - small_square (game s) / 4) / 2)
            (sq_y (base_tile Rect_new (game s) 0)
             + (small_square (game s) - small_square (game s) / 4) / 2)
            (small_square (game s) / 4) (7 * small_square (game s))
      ∧ player_velocity s = 7 * small_square (game s)
      ∧ start_time s = now
      ∧ run s = true ∧ won s = false ∧ to_menu s = false.
Proof.
  intros Hn. split; [reflexivity|].
  assert (0 < n ^ 2)%nat as Hsq by (simpl; nia).
  destruct (Game_init_eq choice n now Hn)
    as (st & connectors & first & Hst & Hlen & Hclen & Hgrid & Hfirst & Hx & Hy & Hlast
        & Hinit).
  cbv zeta in *. eexists. split; [exact Hinit|].
  cbn [game maze end_square player player_velocity start_time run won to_menu].
  split_and!; try done.
  - cbn [with_path_squares path_squares].
    rewrite length_app, marked_tiles_length, Hclen, Hlen by lia. lia.
  - by rewrite Hx, Hy.
Qed.

End GameObject.

Lemma Game_init_returns_witness :
  Game_init FloatRect_new (λ _, 0%nat) 0 0 = None
  ∧ ∃ s, Game_init FloatRect_new (λ _, 0%nat) 2 0 = Some s
      ∧ generate (λ _, 0%nat) 2 = Some (maze s)
      ∧ create_grid FloatRect_new (Game_sizes FloatRect 2 0) (edge_list (maze s))
        = Some (game s)
      ∧ length (path_squares (game s)) = (2 * 2 ^ 2 - 1)%nat
      ∧ path_squares (game s) !! (2 ^ 2 - 1)%nat = Some (end_square s)
      ∧ end_square s = set_colour (base_tile FloatRect_new (game s) (2 ^ 2 - 1)) Green
      ∧ player s
        = Player_init
            (sq_x (base_tile FloatRect_new (game s) 0)
             + (small_square (game s) - small_square (game s) / 4) / 2)%float
            (sq_y (base_tile FloatRect_new (game s) 0)
             + (small_square (game s) - small_square (game s) / 4) / 2)%float
            (small_square (game s) / 4)%float (7 * small_square (game s))%float
      ∧ player_velocity s = (7 * small_square (game s))%float
      ∧ start_time s = 0%float
      ∧ run s = true ∧ won s = false ∧ to_menu s = false.
Proof. apply (Game_init_returns FloatRect_new (λ _, 0%nat) 2 0). lia. Defined.

(** ** The loop of the game *)

Section GameLoopFacts.

Open Scope float_scope.

Context {Rect : Type} (Rect_new : float → float → float → float → Rect).
Context (collidepoint : Rect → float * float → bool) (contains : Rect → Rect → bool).

(** [move] returns, and changes the position only. *)
Lemma move_returns (self : Player) (g : Game Rect) (v : Vector2) :
  ∃ r, move collidepoint self g v = Some r
    ∧ width r.1 = width self ∧ collide_margin r.1 = collide_margin self
    ∧ velocity r.1 = velocity self.
Proof.
  pose proof (normalise_step_eq v) as Heq.
  destruct (normalise_step v) as [v'|] eqn:Hv'; [clear Heq|done].
  eexists. split; [exact (move_after collidepoint self g v v' Hv')|]. done.
Qed.

(** One frame of a running game: it returns, leaves the level alone and keeps the
    flags in agreement; the game stops running only when it is won, left for the
    menu, or a [QUIT] event has come. *)
Lemma game_frame_spec (s : Session Rect) (input : FrameInput) :
  path_squares (game s) ≠ [] → player_shape s →
  won s = false → to_menu s = false →
  ∃ s', game_frame Rect_new collidepoint contains s input = Some s'
    ∧ level_kept s s' ∧ player_shape s' ∧ flags_agree Rect_new contains s'
    ∧ (run s' = false →
         run s = false ∨ won s' = true ∨ to_menu s' = true
         ∨ existsb is_quit (events input) = true).
Proof.
  intros Hne (Hw & Hm & Hv) Hwon Hmenu. unfold game_frame. cbv zeta.
  destruct (0.06 <? _).
  { eexists. split; [done|]. unfold flags_agree, player_shape.
    cbn [get_delta_time game player player_velocity won to_menu run end_square
         with_delta_time small_square].
    split_and!; [by split | done.. | congruence | congruence | tauto]. }
  destruct (start_player_returns (game s) (player_velocity s) Hne)
    as (p0 & Hstart & Hw0 & Hm0 & Hv0).
  set (s1 := if existsb is_quit (events input) then _ else _).
  set (s2 := if K_q (keys input) then _ else _).
  assert (H2 : game s2 = with_delta_time (game s) (time_now input - time_last s)
               ∧ end_square s2 = end_square s ∧ maze s2 = maze s
               ∧ player_velocity s2 = player_velocity s ∧ player s2 = player s
               ∧ won s2 = false
               ∧ (to_menu s2 = true → run s2 = false)
               ∧ (run s2 = false →
                    run s = false ∨ to_menu s2 = true
                    ∨ existsb is_quit (events input) = true)).
  { unfold s2, s1. destruct (existsb is_quit (events input)), (K_q (keys input));
      cbn [with_flags get_delta_time game end_square maze player_velocity player won
           to_menu run]; rewrite ?Hwon, ?Hmenu; split_and!; try done; tauto. }
  clearbody s2. clear s1.
  destruct H2 as (Hg2 & He2 & Hz2 & Hpv2 & Hp2 & Hwon2 & Hmenu2 & Hrun2).
  assert (H3 : ∃ s3,
             (if K_r (keys input) then back_to_start s2 (restart_time input) else Some s2)
             = Some s3
             ∧ game s3 = game s2 ∧ end_square s3 = end_square s2 ∧ maze s3 = maze s2
             ∧ player_velocity s3 = player_velocity s2
             ∧ won s3 = won s2 ∧ to_menu s3 = to_menu s2 ∧ run s3 = run s2
             ∧ width (player s3) = small_square (game s) / 4
             ∧ collide_margin (player s3) = 1
             ∧ velocity (player s3) = player_velocity s).
  { destruct (K_r (keys input)).
    - unfold back_to_start. rewrite Hg2, Hpv2.
      change (start_player (with_delta_time (game s) _) (player_velocity s))
        with (start_player (game s) (player_velocity s)).
      rewrite Hstart. cbn [mbind option_bind]. eexists. split; [done|].
      cbn [game end_square maze player_velocity won to_menu run player].
      by split_and!.
    - exists s2. rewrite Hp2. done. }
  destruct H3 as (s3 & -> & Hg3 & He3 & Hz3 & Hpv3 & Hwon3 & Hmenu3 & Hrun3
                  & Hw3 & Hm3 & Hv3).
  cbn [mbind option_bind].
  destruct (move_returns (player s3) (game s3) (key_vector (keys input)))
    as (r & -> & Hwr & Hmr & Hvr).
  cbn [mbind option_bind].
  change (end_square (with_player s3 r.1)) with (end_square s3).
  change (player (with_player s3 r.1)) with r.1.
  eexists. split; [done|].
  destruct (contains (sq_rect (end_square s3)) (player_rect Rect_new r.1)) eqn:Hc;
    unfold flags_agree, player_shape;
    cbn [with_flags with_player game end_square maze player_velocity won to_menu run
         player];
    rewrite ?Hg3, ?He3, ?Hz3, ?Hpv3, ?Hwon3, ?Hmenu3, ?Hrun3, ?Hg2, ?He2, ?Hz2, ?Hpv2,
      ?Hwon2, ?Hwr, ?Hmr, ?Hvr, ?Hw3, ?Hm3, ?Hv3;
    cbn [with_delta_time small_square path_squares].
  - rewrite He3, He2 in Hc. split_and!; try done; try tauto.
    split; cbn [with_flags with_player game end_square maze player_velocity];
      rewrite ?Hg3, ?Hg2, ?He3, ?He2, ?Hz3, ?Hz2, ?Hpv3, ?Hpv2; done.
  - split_and!; try done; try tauto.
    split; cbn [with_flags with_player game end_square maze player_velocity];
      rewrite ?Hg3, ?Hg2, ?He3, ?He2, ?Hz3, ?Hz2, ?Hpv3, ?Hpv2; done.
Qed.

(** A game that no longer runs takes no frame. *)
Lemma game_frames_stopped (inputs : list FrameInput) (s : Session Rect) :
  run s = false → game_frames Rect_new collidepoint contains s inputs = Some s.
Proof. intros Hr. destruct inputs; [done|]. cbn [game_frames]. by rewrite Hr. Qed.

(** The same over the frames that come. *)
Lemma game_frames_spec (inputs : list FrameInput) (s : Session Rect) :
  path_squares (game s) ≠ [] → player_shape s → flags_agree Rect_new contains s →
  (run s = true → won s = false ∧ to_menu s = false) →
  ∃ s', game_frames Rect_new collidepoint contains s inputs = Some s'
    ∧ level_kept s s' ∧ player_shape s' ∧ flags_agree Rect_new contains s'
    ∧ (run s' = false →
         run s = false ∨ won s' = true ∨ to_menu s' = true ∨ quit_sent inputs).
Proof.
  revert s. induction inputs as [|input inputs IH]; intros s Hne Hshape Hflags Hrun.
  - exists s. split_and!; [done | by split | done | done | tauto].
  - cbn [game_frames]. destruct (run s) eqn:Hr; cycle 1.
    { exists s. split_and!; [done | by split | done | done | tauto]. }
    destruct Hrun as [Hwon Hmenu]; [done|].
    destruct (game_frame_spec s input Hne Hshape Hwon Hmenu)
      as (s1 & -> & Hkept1 & Hshape1 & Hflags1 & Hstop1).
    cbn [mbind option_bind].
    destruct (run s1) eqn:Hr1.
    + destruct (IH s1) as (s' & Hs' & Hkept & Hshape' & Hflags' & Hstop).
      { by rewrite (kept_tiles _ _ Hkept1). }
      { done. }
      { done. }
      { intros _. destruct Hflags1 as [Hw1 Hm1].
        split; [destruct (won s1); [|done] | destruct (to_menu s1); [|done]].
        - destruct Hw1 as [Hw1 _]; [done|]. congruence.
        - specialize (Hm1 eq_refl). congruence. }
      exists s'. split; [done|]. split_and!; [|done..|].
      * destruct Hkept1, Hkept. split; congruence.
      * intros Hr'. destruct (Hstop Hr') as [?|[?|[?|(i & Hi & Hq)]]];
          [congruence | tauto.. |].
        right. right. right. exists i. split; [by apply list_elem_of_further | done].
    + rewrite game_frames_stopped by done.
      exists s1. split; [done|]. split_and!; [done..|].
      intros _. destruct (Hstop1 eq_refl) as [?|[?|[?|Hq]]]; [congruence | tauto.. |].
      right. right. right. exists input. split; [apply list_elem_of_here | done].
Qed.

(** X11. Once [Game.__init__] has returned, [game_loop] raises in no frame,
    whatever the clock, the events and the keys; it leaves the tiles, the end
    square and the maze as they were, and the player keeps its width, margin and
    velocity. *)
Theorem game_loop_returns (choice : nat → nat) (n : nat) (now t0 : float)
    (inputs : list FrameInput) :
  (1 ≤ n)%nat →
  ∃ s s',
    Game_init Rect_new choice n now = Some s
    ∧ game_loop Rect_new collidepoint contains s t0 inputs = Some s'
    ∧ path_squares (game s') = path_squares (game s)
    ∧ end_square s' = end_square s
    ∧ maze s' = maze s
    ∧ width (player s') = width (player s)
    ∧ collide_margin (player s') = collide_margin (player s)
    ∧ velocity (player s') = velocity (player s).
Proof.
  intros Hn.
  destruct (Game_init_eq Rect_new choice n now Hn)
    as (st & connectors & first & _ & _ & _ & _ & Hfirst & _ & _ & _ & Hs).
  cbv zeta in Hfirst, Hs.
  match type of Hs with _ = Some ?x => exists x end.
  unfold game_loop. cbv zeta.
  cbn [game maze end_square player player_velocity start_time won to_menu].
  set (s0 := {| time_last := t0 |}).
  destruct (game_frames_spec inputs s0) as (s' & Hs' & Hkept & Hshape & _).
  - cbn [s0 game]. intros Hnil. by rewrite Hnil in Hfirst.
  - done.
  - by split.
  - done.
  - exists s'. split; [exact Hs|]. split; [exact Hs'|].
    destruct Hkept as [Ht Hsm He Hz Hv]. destruct Hshape as (Hw' & Hm' & Hv').
    cbn [s0 game end_square maze player_velocity player width collide_margin velocity
         Player_init] in *.
    split_and!; [done.. | | |].
    + by rewrite Hw', Hsm.
    + done.
    + by rewrite Hv', Hv.
Qed.

(** X12. When [game_loop] leaves its loop, the flags tell why: the game is won
    only with the player's rectangle inside the end square, a game that is won
    or left for the menu no longer runs, and a game that no longer runs is won,
    left for the menu, or has read a [QUIT] event. *)
Theorem game_loop_flags (choice : nat → nat) (n : nat) (now t0 : float)
    (inputs : list FrameInput) :
  (1 ≤ n)%nat →
  ∃ s s',
    Game_init Rect_new choice n now = Some s
    ∧ game_loop Rect_new collidepoint contains s t0 inputs = Some s'
    ∧ (won s' = true →
         run s' = false
         ∧ contains (sq_rect (end_square s')) (player_rect Rect_new (player s')) = true)
    ∧ (to_menu s' = true → run s' = false)
    ∧ (run s' = false → won s' = true ∨ to_menu s' = true ∨ quit_sent inputs).
Proof.
  intros Hn.
  destruct (Game_init_eq Rect_new choice n now Hn)
    as (st & connectors & first & _ & _ & _ & _ & Hfirst & _ & _ & _ & Hs).
  cbv zeta in Hfirst, Hs.
  match type of Hs with _ = Some ?x => exists x end.
  unfold game_loop. cbv zeta.
  cbn [game maze end_square player player_velocity start_time won to_menu].
  set (s0 := {| time_last := t0 |}).
  destruct (game_frames_spec inputs s0) as (s' & Hs' & _ & _ & Hflags & Hstop).
  - cbn [s0 game]. intros Hnil. by rewrite Hnil in Hfirst.
  - done.
  - by split.
  - done.
  - exists s'. split; [exact Hs|]. split; [exact Hs'|]. destruct Hflags as [Hw Hm].
    split_and!; [done | done |].
    intros Hr. destruct (Hstop Hr) as [Hr0|?]; [done | tauto].
Qed.

(** X13. A frame that presses [R] forgets where the player was: unless the frame
    is skipped for its length, its outcome is the same from any position of the
    player. *)
Theorem restart_forgets_position (s : Session Rect) (p : Player) (input : FrameInput) :
  K_r (keys input) = true →
  (0.06 <? time_now input - time_last s) = false →
  game_frame Rect_new collidepoint contains (with_player s p) input
  = game_frame Rect_new collidepoint contains s input.
Proof.
  intros Hr Hdt. unfold game_frame. cbv zeta.
  cbn [get_delta_time game with_delta_time delta_time with_player time_last].
  rewrite Hdt, Hr.
  destruct (existsb is_quit (events input)), (K_q (keys input)); reflexivity.
Qed.

End GameLoopFacts.

Lemma game_loop_returns_witness :
  ∃ s s',
    Game_init FloatRect_new (λ _, 0) 2 0 = Some s
    ∧ game_loop FloatRect_new FloatRect_collidepoint FloatRect_contains s 0
        [example_input; example_input] = Some s'
    ∧ path_squares (game s') = path_squares (game s)
    ∧ end_square s' = end_square s
    ∧ maze s' = maze s
    ∧ width (player s') = width (player s)
    ∧ collide_margin (player s') = collide_margin (player s)
    ∧ velocity (player s') = velocity (player s).
Proof.
  apply (game_loop_returns FloatRect_new FloatRect_collidepoint FloatRect_contains
           (λ _, 0) 2 0 0 [example_input; example_input]).
  lia.
Defined.

Lemma game_loop_flags_witness :
  ∃ s s',
    Game_init FloatRect_new (λ _, 0) 2 0 = Some s
    ∧ game_loop FloatRect_new FloatRect_collidepoint FloatRect_contains s 0
        [example_input; example_input] = Some s'
    ∧ (won s' = true →
         run s' = false
         ∧ FloatRect_contains (sq_rect (end_square s'))
             (player_rect FloatRect_new (player s')) = true)
    ∧ (to_menu s' = true → run s' = false)
    ∧ (run s' = false →
         won s' = true ∨ to_menu s' = true ∨ quit_sent [example_input; example_input]).
Proof.
  apply (game_loop_flags FloatRect_new FloatRect_collidepoint FloatRect_contains
           (λ _, 0) 2 0 0 [example_input; example_input]).
  lia.
Defined.

Lemma restart_forgets_position_witness :
  game_frame FloatRect_new FloatRect_collidepoint FloatRect_contains
    (with_player example_session (Player_init 0 0 56.25 1575)) example_input
  = game_frame FloatRect_new FloatRect_collidepoint FloatRect_contains
      example_session example_input.
Proof.
  apply (restart_forgets_position FloatRect_new FloatRect_collidepoint
           FloatRect_contains example_session (Player_init 0 0 56.25 1575) example_input);
    reflexivity.
Defined.

(** ** The menu *)

(** A button within the range of [DIFFICULTY] never raises and keeps the menu's
    attributes in agreement. *)
Lemma display_button_agrees (hover : nat → bool) (m : Menu) (i : nat) :
  i < length DIFFICULTY → menu_agrees m →
  ∃ m', display_button hover m i = Some m' ∧ menu_agrees m' ∧ exit m' = exit m
    ∧ mouse_click m' = mouse_click m.
Proof.
  intros Hi [Hrun Hd]. unfold display_button.
  destruct i as [|[|[|i]]]; [| | |simpl in Hi; lia];
    cbn [DIFFICULTY fmap list_fmap fst lookup list_lookup mbind option_bind];
    (destruct (hover _); [|by eexists]);
    (destruct (mouse_click m) eqn:Hclick; cbn [mouse_click];
     [|eexists; split; [done|]; by split_and!]);
    (eexists; split; [vm_compute; reflexivity|]);
    (split_and!; [|done..]);
    (split; cbn [run_game difficulty]; [split; [by eexists | done]|]);
    intros d [= <-]; cbn [DIFFICULTY fmap list_fmap snd]; rewrite !elem_of_cons; tauto.
Qed.

Lemma menu_event_agrees (m : Menu) (event : Event) :
  menu_agrees m → menu_agrees (menu_event m event).
Proof. intros Hm. by destruct event. Qed.

Lemma menu_events_agree (events : list Event) (m : Menu) :
  menu_agrees m → menu_agrees (foldl menu_event m events).
Proof.
  revert m. induction events as [|e events IH]; intros m Hm; [done|].
  cbn [foldl]. by apply IH, menu_event_agrees.
Qed.

Lemma menu_frame_agrees (m : Menu) (input : list Event * (nat → bool)) :
  menu_agrees m → ∃ m', menu_frame m input = Some m' ∧ menu_agrees m'.
Proof.
  intros Hm. unfold menu_frame. cbv zeta.
  set (m0 := foldl menu_event _ _).
  assert (menu_agrees m0) as H0 by (by apply menu_events_agree).
  clearbody m0. change (Py.range (length DIFFICULTY)) with [0; 1; 2].
  cbn [Py.for_each].
  destruct (display_button_agrees input.2 m0 0) as (m1 & -> & H1 & _);
    [simpl; lia | done |]. cbn [mbind option_bind].
  destruct (display_button_agrees input.2 m1 1) as (m2 & -> & H2 & _);
    [simpl; lia | done |]. cbn [mbind option_bind].
  destruct (display_button_agrees input.2 m2 2) as (m3 & -> & H3 & _);
    [simpl; lia | done |]. cbn [mbind option_bind].
  by exists m3.
Qed.

(** X14. [display_loop] raises in no frame, and the menu it leaves has a
    difficulty exactly when a game is to be run; the difficulty is then 5, 10 or
    15. So a menu that was not closed hands [main] one of these grid sides. *)
Theorem display_loop_difficulty (inputs : list (list Event * (nat → bool))) :
  ∃ m, display_loop Menu_init inputs = Some m
    ∧ (run_game m = true ↔ is_Some (difficulty m))
    ∧ (∀ d, difficulty m = Some d → d = 5 ∨ d = 10 ∨ d = 15)
    ∧ (exit m = false → run_game m = false → difficulty m = None).
Proof.
  assert (H : ∀ m, menu_agrees m →
            ∃ m', display_loop m inputs = Some m' ∧ menu_agrees m').
  { induction inputs as [|input inputs IH]; intros m Hm; [by exists m|].
    cbn [display_loop]. destruct (negb _); [|by exists m].
    destruct (menu_frame_agrees m input Hm) as (m1 & -> & H1).
    cbn [mbind option_bind]. by apply IH. }
  destruct (H Menu_init) as (m & Hloop & Hrun & Hd).
  { split; [split; [done | by intros [? [=]]] | by intros d [=]]. }
  exists m. split; [done|]. split; [done|]. split.
  - intros d Hdm. specialize (Hd d Hdm). cbn [DIFFICULTY fmap list_fmap snd] in Hd.
    rewrite !elem_of_cons, elem_of_nil in Hd. tauto.
  - intros _ Hr. destruct (difficulty m) as [d|] eqn:Hdm; [|done].
    destruct Hrun as [_ Hrun]. rewrite Hrun in Hr by (by eexists). done.
Qed.

(** ** One axis at rest *)

Section MoveAxis.

Open Scope float_scope.

Context {Rect : Type} (collidepoint : Rect → float * float → bool).

(** X15. An axis whose coordinate of the vector is zero stays where it is while the
    other one moves: with a finite velocity and frame time, [move] leaves that
    coordinate of the position the same number, whether or not the axis is
    clear. *)
Theorem move_axis_at_rest (self : Player) (g : Game Rect) (v : Vector2) :
  is_finite (velocity self) = true → is_finite (delta_time g) = true →
  ∃ self' v',
    move collidepoint self g v = Some (self', v')
    ∧ normalise_step v = Some v'
    ∧ (is_zero (vx v') = true → same_number (pos self').1 (pos self).1)
    ∧ (is_zero (vy v') = true → same_number (pos self').2 (pos self).2).
Proof.
  intros Hvel Hdt. pose proof (normalise_step_eq v) as Heq.
  destruct (normalise_step v) as [v'|] eqn:Hv'; [clear Heq|done].
  eexists _, v'. split; [exact (move_after collidepoint self g v v' Hv')|].
  split; [done|]. cbn [pos with_pos fst snd]. split.
  - intros Hz. destruct (all_on_path _ _ _); [|apply same_number_refl].
    by apply projected_zero_finite.
  - intros Hz. destruct (all_on_path _ _ (gen_corners self (_, next_y _ _ _)));
      [|apply same_number_refl].
    by apply projected_zero_finite.
Qed.

End MoveAxis.

Lemma move_axis_at_rest_witness :
  ∃ self' v',
    move FloatRect_collidepoint example_player example_game {| vx := 1; vy := 0 |}
    = Some (self', v')
    ∧ normalise_step {| vx := 1; vy := 0 |} = Some v'
    ∧ (is_zero (vx v') = true → same_number (pos self').1 (pos example_player).1)
    ∧ (is_zero (vy v') = true → same_number (pos self').2 (pos example_player).2).
Proof.
  apply (move_axis_at_rest FloatRect_collidepoint example_player example_game
           {| vx := 1; vy := 0 |}); reflexivity.
Defined.
